(** * Delivery API: driver tracker, order lifecycle and dispatch

    A shallow embedding of the TypeScript sources

    - [services/order.service.ts]   (OrderService, isValidTransition),
    - [repositories/order.repository.ts] (OrderRepository over the D1 tables
      [orders] and [driver_status] of [migrations/0001_initial.sql]),
    - [durable-objects/DriverTracker.ts] (the location store),
    - [services/driver.service.ts]  (DriverService),

    followed by the properties of the specification that concern them.

    Modelling conventions.
    - A JavaScript [number] is a rational ([Q]), and [+] and [*] on
      numbers are exact: [total_price] is the exact sum, which the
      double computed by the source approximates.  The order of finite
      doubles is the order of the rationals they denote.
    - [haversineDistance] (utils/index.ts) is built from [Math.sin],
      [Math.cos] and [Math.atan2]; it is a parameter of every function
      that calls it.  The parameter yields a number for every
      argument; where a property depends on the source yielding [NaN],
      the distance is option-valued ([OrderSpec.Haversine]).
    - [new Date()] / [Date.now()] is an explicit argument [now], in
      milliseconds since the epoch.  An ISO-8601 string written by
      [toISOString] and read back by [new Date(s).getTime()] is that same
      number of milliseconds, so [updated_at] is stored as the number.
    - [this.locations] of the tracker is a JavaScript object: its own
      properties in the order [Object.entries] lists them, and what it
      inherits from its prototype, which an assignment to ['__proto__']
      replaces.
    - An asynchronous method is a function from the state before to
      the state after, and the interleaving of several of them is made
      explicit in [Module Concurrent].  Reads and writes of durable
      storage succeed.  A write that D1 or KV refuses is explicit where
      a property depends on it ([OrderCreation], [RateLimit]).
    - A thrown exception is the [Throw] case of [result]. *)

From Stdlib Require Import List String ZArith QArith Qabs Bool Lia Sorted.
Import ListNotations.
Local Open Scope string_scope.
Local Open Scope list_scope.

Set Implicit Arguments.

(* ================================================================= *)
(** ** Common types *)

Definition number := Q.
Definition timestamp := Z.
Bind Scope Q_scope with number.
Bind Scope Z_scope with timestamp.

Inductive Exception : Type :=
| HTTPException (status : Z) (message : string)
| Error (message : string)
| TypeError.

Inductive result (A : Type) : Type :=
| Ok (a : A)
| Throw (e : Exception).
Arguments Ok {A} a.
Arguments Throw {A} e.

(** [OrderStatus] of types.ts, the CHECK constraint of [orders.status]. *)
Inductive OrderStatus : Type :=
| created | accepted | preparing | picked_up | delivered | cancelled.

Definition OrderStatus_eqb (a b : OrderStatus) : bool :=
  match a, b with
  | created, created | accepted, accepted | preparing, preparing
  | picked_up, picked_up | delivered, delivered | cancelled, cancelled => true
  | _, _ => false
  end.

Definition OrderStatus_toString (s : OrderStatus) : string :=
  match s with
  | created => "created" | accepted => "accepted" | preparing => "preparing"
  | picked_up => "picked_up" | delivered => "delivered" | cancelled => "cancelled"
  end.

(** The role of a user, the CHECK constraint of [users.role]. *)
Inductive Role : Type := merchant | driver | customer | admin.

Definition Role_toString (r : Role) : string :=
  match r with
  | merchant => "merchant" | driver => "driver"
  | customer => "customer" | admin => "admin"
  end.

(** A row of the table [orders]. *)
Module OrderRow.
Record t : Type := mk {
  id : string;
  customer_id : string;
  merchant_id : string;
  driver_id : option string;
  status : OrderStatus;
  total_price : number;
  pickup_lat : number;
  pickup_lng : number;
  dropoff_lat : number;
  dropoff_lng : number;
  notes : option string;
  created_at : timestamp;
  updated_at : timestamp
}.
End OrderRow.
Abbreviation OrderRow := OrderRow.t.

(** A row of the table [driver_status]; [is_available] is an INTEGER
    column, 0 or 1. *)
Module DriverStatusRow.
Record t : Type := mk {
  driver_id : string;
  is_available : Z;
  current_lat : option number;
  current_lng : option number;
  updated_at : timestamp
}.
End DriverStatusRow.
Abbreviation DriverStatusRow := DriverStatusRow.t.

(** The D1 database: each table is the list of its rows in scan order. *)
Record D1Database : Type := mkDB {
  orders : list OrderRow;
  driver_status : list DriverStatusRow
}.

(** The element type of [findAvailableDrivers]' result. *)
Module AvailableDriver.
Record t : Type := mk {
  driver_id : string;
  current_lat : number;
  current_lng : number
}.
End AvailableDriver.
Abbreviation AvailableDriver := AvailableDriver.t.

(* ================================================================= *)
(** ** [Array.prototype.sort] with a numeric comparator

    The sort is stable (ECMAScript 2019); with a comparator that is a
    difference of finite numbers its result is the stable sorted
    arrangement, which insertion from the right computes. *)

Section ArraySort.
Context {A : Type}.
Variable compareFn : A -> A -> number.

Fixpoint sort_insert (x : A) (l : list A) : list A :=
  match l with
  | [] => [x]
  | y :: ys =>
      if Qle_bool (compareFn x y) 0 then x :: y :: ys
      else y :: sort_insert x ys
  end.

Fixpoint Array_sort (l : list A) : list A :=
  match l with
  | [] => []
  | x :: xs => sort_insert x (Array_sort xs)
  end.
End ArraySort.

(* ================================================================= *)
(** ** OrderRepository (repositories/order.repository.ts) *)

Module OrderRepository.

(** [SELECT * FROM orders WHERE id = ?], [.first()]. *)
Definition findById (db : D1Database) (id : string) : option OrderRow :=
  find (fun o => String.eqb (OrderRow.id o) id) (orders db).

(** [INSERT INTO orders (...) VALUES (?, ?, ?, NULL, 'created', ...)].
    [orderId] is the value of [generateId()]; the rows of
    [order_items] written by the same batch are not modelled. *)
Definition create (now : timestamp) (orderId : string) (db : D1Database)
    (customer_id merchant_id : string) (total_price : number)
    (pickup_lat pickup_lng dropoff_lat dropoff_lng : number)
    (notes : option string) : D1Database * option OrderRow :=
  let row := OrderRow.mk orderId customer_id merchant_id None created
               total_price pickup_lat pickup_lng dropoff_lat dropoff_lng
               notes now now in
  let db' := mkDB (orders db ++ [row]) (driver_status db) in
  (db', findById db' orderId).

(** The two UPDATE statements of [updateStatus] on one row. *)
Definition setStatusAndDriver (now : timestamp) (status : OrderStatus)
    (driverId : string) (o : OrderRow) : OrderRow :=
  OrderRow.mk (OrderRow.id o) (OrderRow.customer_id o)
    (OrderRow.merchant_id o) (Some driverId) status
    (OrderRow.total_price o) (OrderRow.pickup_lat o) (OrderRow.pickup_lng o)
    (OrderRow.dropoff_lat o) (OrderRow.dropoff_lng o) (OrderRow.notes o)
    (OrderRow.created_at o) now.

Definition setStatus (now : timestamp) (status : OrderStatus)
    (o : OrderRow) : OrderRow :=
  OrderRow.mk (OrderRow.id o) (OrderRow.customer_id o)
    (OrderRow.merchant_id o) (OrderRow.driver_id o) status
    (OrderRow.total_price o) (OrderRow.pickup_lat o) (OrderRow.pickup_lng o)
    (OrderRow.dropoff_lat o) (OrderRow.dropoff_lng o) (OrderRow.notes o)
    (OrderRow.created_at o) now.

(** [updateStatus(id, status, driverId?)]:
    [UPDATE orders SET status = ?, driver_id = ?, updated_at = ? WHERE id = ?]
    when [driverId] is given, otherwise
    [UPDATE orders SET status = ?, updated_at = ? WHERE id = ?];
    then [findById(id)]. *)
Definition updateStatus (now : timestamp) (db : D1Database) (id : string)
    (status : OrderStatus) (driverId : option string)
    : D1Database * option OrderRow :=
  let upd o :=
    if String.eqb (OrderRow.id o) id then
      match driverId with
      | Some d => setStatusAndDriver now status d o
      | None => setStatus now status o
      end
    else o in
  let db' := mkDB (map upd (orders db)) (driver_status db) in
  (db', findById db' id).

(** The sub-query of [findAvailableDrivers]:
    [SELECT DISTINCT driver_id FROM orders
     WHERE status IN ('accepted','preparing','picked_up')
       AND driver_id IS NOT NULL]. *)
Definition isActiveStatus (s : OrderStatus) : bool :=
  match s with
  | accepted | preparing | picked_up => true
  | _ => false
  end.

Definition activeDriverIds (db : D1Database) : list string :=
  flat_map (fun o =>
    if isActiveStatus (OrderRow.status o) then
      match OrderRow.driver_id o with
      | Some d => [d]
      | None => []
      end
    else []) (orders db).

(** [findAvailableDrivers()]: rows of [driver_status] with
    [is_available = 1], both coordinates NOT NULL and [driver_id] not
    in the sub-query above. *)
Definition selectAvailable (busy : list string) (ds : DriverStatusRow)
    : list AvailableDriver :=
  if (DriverStatusRow.is_available ds =? 1)%Z then
    match DriverStatusRow.current_lat ds, DriverStatusRow.current_lng ds with
    | Some la, Some ln =>
        if negb (existsb (String.eqb (DriverStatusRow.driver_id ds)) busy)
        then [AvailableDriver.mk (DriverStatusRow.driver_id ds) la ln]
        else []
    | _, _ => []
    end
  else [].

Definition findAvailableDrivers (db : D1Database) : list AvailableDriver :=
  flat_map (selectAvailable (activeDriverIds db)) (driver_status db).

(** [upsertDriverStatus(driverId, isAvailable, lat?, lng?)]:
    [INSERT INTO driver_status ... VALUES (?, ?, ?, ?, ?)
     ON CONFLICT(driver_id) DO UPDATE SET] every column to the
    excluded value; the bound values are [isAvailable ? 1 : 0],
    [lat ?? null] and [lng ?? null]. *)
Definition upsertDriverStatus (now : timestamp) (db : D1Database)
    (driverId : string) (isAvailable : bool) (lat lng : option number)
    : D1Database :=
  let row := DriverStatusRow.mk driverId (if isAvailable then 1%Z else 0%Z)
               lat lng now in
  let conflict ds := String.eqb (DriverStatusRow.driver_id ds) driverId in
  if existsb conflict (driver_status db) then
    mkDB (orders db)
         (map (fun ds => if conflict ds then row else ds) (driver_status db))
  else
    mkDB (orders db) (driver_status db ++ [row]).

End OrderRepository.

(* ================================================================= *)
(** ** OrderService (services/order.service.ts) *)

Module OrderService.
Import OrderRepository.

(** Valid status transitions per actor role.  [Role] has exactly the
    four keys of the table, so the fallback of
    [ALLOWED_TRANSITIONS[role] ?? []] is never taken. *)
Definition ALLOWED_TRANSITIONS (role : Role) : list OrderStatus :=
  match role with
  | merchant => [accepted; preparing; cancelled]
  | driver => [picked_up; delivered]
  | customer => [cancelled]
  | admin => [accepted; preparing; picked_up; delivered; cancelled]
  end.

Definition includes (l : list OrderStatus) (s : OrderStatus) : bool :=
  existsb (OrderStatus_eqb s) l.

(** The table [order] local to [isValidTransition]. *)
Definition order_rank (s : OrderStatus) : Z :=
  match s with
  | created => 0
  | accepted => 1
  | preparing => 2
  | picked_up => 3
  | delivered => 4
  | cancelled => -1
  end%Z.

(** Enforces logical status ordering to prevent invalid jumps. *)
Definition isValidTransition (current next : OrderStatus) : bool :=
  if OrderStatus_eqb next cancelled then
    (* Can cancel from any non-terminal state *)
    negb (OrderStatus_eqb current delivered)
    && negb (OrderStatus_eqb current cancelled)
  else (order_rank next >? order_rank current)%Z.

Definition option_string_eqb (a : option string) (b : string) : bool :=
  match a with
  | Some s => String.eqb s b
  | None => false
  end.

(** The four exceptions of [updateOrderStatus], under the names the
    specification gives them. *)
Definition NotFound : Exception := HTTPException 404 "Order not found".
Definition AccessDenied : Exception := HTTPException 403 "Access denied".
Definition Forbidden (role : Role) (next : OrderStatus) : Exception :=
  HTTPException 400
    ("Role '" ++ Role_toString role ++ "' cannot set status to '"
       ++ OrderStatus_toString next ++ "'").
Definition InvalidTransition (current next : OrderStatus) : Exception :=
  HTTPException 400
    ("Cannot transition from '" ++ OrderStatus_toString current
       ++ "' to '" ++ OrderStatus_toString next ++ "'").
(** The exception of [triggerDispatch] on an order that is not
    ['created']. *)
Definition AlreadyDispatched : Exception :=
  HTTPException 400 "Order already dispatched or completed".

Definition isParty (order : OrderRow) (requestingUserId : string)
    (role : Role) : bool :=
  match role with admin => true | _ => false end
  || String.eqb (OrderRow.customer_id order) requestingUserId
  || String.eqb (OrderRow.merchant_id order) requestingUserId
  || option_string_eqb (OrderRow.driver_id order) requestingUserId.

(** [updateOrderStatus(orderId, input, requestingUserId, role)];
    [input_status] is [input.status].  The value returned is
    [updated!], whatever [updateStatus] produced. *)
Definition updateOrderStatus (now : timestamp) (db : D1Database)
    (orderId : string) (input_status : OrderStatus)
    (requestingUserId : string) (role : Role)
    : D1Database * result (option OrderRow) :=
  match findById db orderId with
  | None => (db, Throw NotFound)
  | Some order =>
      (* Authorization check *)
      if negb (isParty order requestingUserId role) then
        (db, Throw AccessDenied)
      (* Role-based transition guard *)
      else if negb (includes (ALLOWED_TRANSITIONS role) input_status) then
        (db, Throw (Forbidden role input_status))
      (* Logical ordering guard *)
      else if negb (isValidTransition (OrderRow.status order) input_status)
      then
        (db, Throw (InvalidTransition (OrderRow.status order) input_status))
      else
        let (db', updated) := updateStatus now db orderId input_status None in
        (db', Ok updated)
  end.

(** [CreateOrderInput] of utils/schemas.ts. *)
Record OrderItemInput : Type := mkItem {
  item_name : string;
  quantity : number;
  unit_price : number
}.

Record CreateOrderInput : Type := mkCreateOrderInput {
  input_merchant_id : string;
  pickup_location : number * number;
  dropoff_location : number * number;
  items : list OrderItemInput;
  input_notes : option string
}.

(** [input.items.reduce((sum, item) => sum + item.quantity * item.unit_price, 0)] *)
Definition totalPrice (items : list OrderItemInput) : number :=
  fold_left (fun sum item => sum + quantity item * unit_price item) items 0.

(** An available driver with its distance from the pickup point:
    [{ ...d, distance }]. *)
Definition Candidate : Type := (AvailableDriver * number)%type.
Definition distance (c : Candidate) : number := snd c.

Section Dispatch.
Variable haversineDistance : number -> number -> number -> number -> number.

(** The [.map(...).sort(...)] of [dispatchOrder]. *)
Definition rankDrivers (order : OrderRow)
    (availableDrivers : list AvailableDriver) : list Candidate :=
  Array_sort (fun a b => distance a - distance b)
    (map (fun d =>
            (d, haversineDistance
                  (OrderRow.pickup_lat order) (OrderRow.pickup_lng order)
                  (AvailableDriver.current_lat d)
                  (AvailableDriver.current_lng d)))
         availableDrivers).

(** [dispatchOrder(order)]: finds the nearest available driver to the
    pickup location and assigns them to the order.  [sorted[0]] of an
    empty array is [undefined], whose [driver_id] is a [TypeError]. *)
Definition dispatchOrder (now : timestamp) (db : D1Database)
    (order : OrderRow) : D1Database * result unit :=
  let availableDrivers := findAvailableDrivers db in
  match availableDrivers with
  | [] => (db, Ok tt)
  | _ :: _ =>
      match rankDrivers order availableDrivers with
      | [] => (db, Throw TypeError)
      | nearest :: _ =>
          let (db', _) :=
            updateStatus now db (OrderRow.id order) accepted
              (Some (AvailableDriver.driver_id (fst nearest))) in
          (db', Ok tt)
      end
  end.

(** The value [{ assigned, driver_id }] of [triggerDispatch]. *)
Record DispatchOutcome : Type := mkOutcome {
  assigned : bool;
  outcome_driver_id : option string
}.

Definition outcomeOf (updated : option OrderRow) : DispatchOutcome :=
  match updated with
  | Some u =>
      mkOutcome (match OrderRow.driver_id u with Some _ => true | None => false end)
                (OrderRow.driver_id u)
  | None => mkOutcome false None
  end.

(** [triggerDispatch(orderId)]: manually trigger dispatch for a
    specific order (admin use). *)
Definition triggerDispatch (now : timestamp) (db : D1Database)
    (orderId : string) : D1Database * result DispatchOutcome :=
  match findById db orderId with
  | None => (db, Throw NotFound)
  | Some order =>
      if negb (OrderStatus_eqb (OrderRow.status order) created) then
        (db, Throw AlreadyDispatched)
      else
        match dispatchOrder now db order with
        | (db', Throw e) => (db', Throw e)
        | (db', Ok _) => (db', Ok (outcomeOf (findById db' orderId)))
        end
  end.
End Dispatch.

End OrderService.

(* ================================================================= *)
(** ** DriverTracker (durable-objects/DriverTracker.ts) *)

(** [interface DriverLocation]. *)
Module DriverLocation.
Record t : Type := mk {
  driver_id : string;
  lat : number;
  lng : number;
  updated_at : timestamp
}.
End DriverLocation.
Abbreviation DriverLocation := DriverLocation.t.

(** [interface LocationStore]: a plain JavaScript object used as a
    map.  The object is the list of its own properties in the order in
    which [Object.entries] enumerates them: the keys that are array
    indices first, in ascending numeric order, then the other keys in
    the order in which they were created.  What the object inherits
    from its prototype is modelled in [DriverTracker]. *)
Module LocationStore.
Definition t : Type := list (string * DriverLocation).

(** The own property [key] of the store, if there is one. *)
Fixpoint get (store : t) (key : string) : option DriverLocation :=
  match store with
  | [] => None
  | (k, v) :: rest => if String.eqb k key then Some v else get rest key
  end.

(** An array index is the canonical decimal text of an integer from
    0 to 2^32 - 2: digits only, no leading zero. *)
Definition digitOf (c : Ascii.ascii) : option N :=
  let n := Ascii.N_of_ascii c in
  if ((48 <=? n) && (n <=? 57))%N then Some (n - 48)%N else None.

Fixpoint decimal (s : string) (acc : N) : option N :=
  match s with
  | EmptyString => Some acc
  | String c rest =>
      match digitOf c with
      | Some d => decimal rest (acc * 10 + d)%N
      | None => None
      end
  end.

Definition arrayIndex (key : string) : option N :=
  match key with
  | EmptyString => None
  | String c rest =>
      if (Ascii.N_of_ascii c =? 48)%N && negb (String.eqb rest "") then None
      else
        match decimal key 0 with
        | Some n => if (n <=? 4294967294)%N then Some n else None
        | None => None
        end
  end.

(** The value of an own property is replaced in place. *)
Fixpoint replace (store : t) (key : string) (value : DriverLocation) : t :=
  match store with
  | [] => []
  | (k, v) :: rest =>
      if String.eqb k key then (k, value) :: rest
      else (k, v) :: replace rest key value
  end.

(** A new array index goes before the first key that is a greater
    index or no index at all. *)
Fixpoint insertIndex (n : N) (key : string) (value : DriverLocation)
    (store : t) : t :=
  match store with
  | [] => [(key, value)]
  | (k, v) :: rest =>
      match arrayIndex k with
      | Some m =>
          if (m <? n)%N then (k, v) :: insertIndex n key value rest
          else (key, value) :: (k, v) :: rest
      | None => (key, value) :: (k, v) :: rest
      end
  end.

(** [store[key] = value] where the assignment creates or overwrites
    an own property: an existing property keeps its place, a new one
    takes the place its key gives it. *)
Definition set (store : t) (key : string) (value : DriverLocation) : t :=
  match get store key with
  | Some _ => replace store key value
  | None =>
      match arrayIndex key with
      | Some n => insertIndex n key value store
      | None => store ++ [(key, value)]
      end
  end.

(** [delete store[key]] *)
Definition delete (store : t) (key : string) : t :=
  filter (fun kv => negb (String.eqb (fst kv) key)) store.

(** [Object.entries(store)] and [Object.values(store)] *)
Definition entries (store : t) : list (string * DriverLocation) := store.
Definition values (store : t) : list DriverLocation := map snd store.
End LocationStore.
Abbreviation LocationStore := LocationStore.t.

Module DriverTracker.

(** The durable object: [state.storage] holds at most the key
    ['locations']; [locations] is the in-memory cache, the own
    properties of the object [this.locations], and [prototype] is
    the prototype of that object: [None] for [Object.prototype],
    which every object literal and every object read from storage
    has, [Some entry] once [this.locations['__proto__'] = entry] has
    made [entry] the prototype. *)
Record t : Type := mk {
  storage : option LocationStore;
  locations : LocationStore;
  loaded : bool;
  prototype : option DriverLocation
}.

(** A fresh instance over a given durable storage. *)
Definition constructor (storage : option LocationStore) : t :=
  mk storage [] false None.

(** The JSON bodies read by the handlers.  A field that is absent is
    [None]; so is a [lat], [lng] or [driver_id] that is [null], which
    the handlers do not tell from an absent one. *)
Record UpdateLocationBody : Type := mkUpdateBody {
  body_driver_id : option string;
  body_lat : option number;
  body_lng : option number
}.

Record NearbyBody : Type := mkNearbyBody {
  query_lat : option number;
  query_lng : option number;
  radius_km : option number
}.

(** [{ ...loc, distance_km }] *)
Record NearbyEntry : Type := mkNearby {
  loc : DriverLocation;
  distance_km : number
}.

(** What reading a property of [this.locations] can yield besides
    [undefined]: an entry; a field of the entry that is the
    prototype; a method of [Object.prototype]; [Object.prototype]
    itself. *)
Inductive Property : Type :=
| EntryValue (loc : DriverLocation)
| TextValue (s : string)
| NumberValue (n : number)
| DateValue (t : timestamp)
| FunctionValue (name : string)
| ObjectPrototypeValue.

(** The argument of [jsonResponse] and its status.  [SuccessValue]
    is [{ success: true, data }] for a [data] that is no entry. *)
Inductive ResponseBody : Type :=
| SuccessLocation (data : DriverLocation)
| SuccessNearby (data : list NearbyEntry)
| Success
| ErrorBody (error : string)
| SuccessValue (data : Property).

Record Response : Type := jsonResponse {
  body : ResponseBody;
  status : Z
}.

Definition ok (r : Response) : bool :=
  ((200 <=? status r) && (status r <=? 299))%Z.

Definition ensureLoaded (self : t) : t :=
  if loaded self then self
  else mk (storage self)
          (match storage self with Some stored => stored | None => [] end)
          true None.

(** [storage.put('locations', this.locations)] stores a structured
    clone: the own properties, not the prototype. *)
Definition persist (self : t) : t :=
  mk (Some (locations self)) (locations self) (loaded self)
     (prototype self).

Definition truthy (s : option string) : bool :=
  match s with
  | Some s => negb (String.eqb s "")
  | None => false
  end.

(** The methods of [Object.prototype]. *)
Definition objectPrototypeMethods : list string :=
  ["constructor"; "__defineGetter__"; "__defineSetter__"; "hasOwnProperty";
   "__lookupGetter__"; "__lookupSetter__"; "isPrototypeOf";
   "propertyIsEnumerable"; "toString"; "valueOf"; "toLocaleString"].

Definition fromObjectPrototype (key : string) : option Property :=
  if existsb (String.eqb key) objectPrototypeMethods
  then Some (FunctionValue key) else None.

(** What [this.locations] answers for [key] through its prototype
    chain: ['__proto__'] is the accessor of [Object.prototype], which
    returns the prototype; an entry that is the prototype answers
    with its four fields; [Object.prototype] answers with its
    methods. *)
Definition inherited (self : t) (key : string) : option Property :=
  if String.eqb key "__proto__" then
    Some (match prototype self with
          | Some entry => EntryValue entry
          | None => ObjectPrototypeValue
          end)
  else
    match prototype self with
    | Some entry =>
        if String.eqb key "driver_id" then
          Some (TextValue (DriverLocation.driver_id entry))
        else if String.eqb key "lat" then
          Some (NumberValue (DriverLocation.lat entry))
        else if String.eqb key "lng" then
          Some (NumberValue (DriverLocation.lng entry))
        else if String.eqb key "updated_at" then
          Some (DateValue (DriverLocation.updated_at entry))
        else fromObjectPrototype key
    | None => fromObjectPrototype key
    end.

(** [this.locations[key]]: the own property, else what is
    inherited; [None] is [undefined]. *)
Definition lookup (self : t) (key : string) : option Property :=
  match LocationStore.get (locations self) key with
  | Some loc => Some (EntryValue loc)
  | None => inherited self key
  end.

(** [!value] is false. *)
Definition isTruthy (value : option Property) : bool :=
  match value with
  | None => false
  | Some (TextValue s) => negb (String.eqb s "")
  | Some (NumberValue n) => negb (Qeq_bool n 0)
  | Some _ => true
  end.

(** [this.locations[key] = entry]: an own property is overwritten;
    otherwise ['__proto__'] reaches the setter of [Object.prototype],
    which makes [entry] the prototype, and any other key becomes an
    own property. *)
Definition assign (self : t) (key : string) (entry : DriverLocation) : t :=
  match LocationStore.get (locations self) key with
  | None =>
      if String.eqb key "__proto__" then
        mk (storage self) (locations self) (loaded self) (Some entry)
      else
        mk (storage self) (LocationStore.set (locations self) key entry)
           (loaded self) (prototype self)
  | Some _ =>
      mk (storage self) (LocationStore.set (locations self) key entry)
         (loaded self) (prototype self)
  end.

Definition handleUpdateLocation (now : timestamp) (self : t)
    (body : UpdateLocationBody) : t * Response :=
  match body_driver_id body, body_lat body, body_lng body with
  | Some driver_id, Some lat, Some lng =>
      if negb (truthy (Some driver_id)) then
        (self, jsonResponse (ErrorBody "Missing fields") 400)
      else
        let entry := DriverLocation.mk driver_id lat lng now in
        let self' := assign self driver_id entry in
        (persist self', jsonResponse (SuccessLocation entry) 200)
  | _, _, _ => (self, jsonResponse (ErrorBody "Missing fields") 400)
  end.

Definition handleGetLocation (self : t) (driverId : string) : Response :=
  let loc := lookup self driverId in
  if negb (isTruthy loc) then
    jsonResponse (ErrorBody "Driver not found") 404
  else
    match loc with
    | Some (EntryValue entry) => jsonResponse (SuccessLocation entry) 200
    | Some value => jsonResponse (SuccessValue value) 200
    | None => jsonResponse (ErrorBody "Driver not found") 404
    end.

Definition handleRemoveLocation (self : t) (driverId : string)
    : t * Response :=
  if negb (isTruthy (lookup self driverId)) then
    (self, jsonResponse (ErrorBody "Driver not found") 404)
  else
    let self' :=
      mk (storage self) (LocationStore.delete (locations self) driverId)
         (loaded self) (prototype self) in
    (persist self', jsonResponse Success 200).

(** The pruning loop of [handleNearby]: every entry of
    [Object.entries(this.locations)] with
    [new Date(loc.updated_at).getTime() < staleThreshold] is deleted;
    the second component is the flag [pruned]. *)
Fixpoint pruneLoop (staleThreshold : Z)
    (entries : list (string * DriverLocation))
    (locations : LocationStore) (pruned : bool) : LocationStore * bool :=
  match entries with
  | [] => (locations, pruned)
  | (id, loc) :: rest =>
      if (DriverLocation.updated_at loc <? staleThreshold)%Z then
        pruneLoop staleThreshold rest (LocationStore.delete locations id) true
      else
        pruneLoop staleThreshold rest locations pruned
  end.

(** The requests routed by [fetch]: method and path segments. *)
Inductive Request : Type :=
| PUT_location (body : UpdateLocationBody)
| GET_location (driver_id : string)
| DELETE_location (driver_id : string)
| POST_nearby (body : NearbyBody)
| OtherRequest.

Section Nearby.
Variable haversineDistance : number -> number -> number -> number -> number.

(** The [.map(...).filter(...).sort(...)] of [handleNearby]. *)
Definition nearbyOf (lat lng radius_km : number)
    (locations : LocationStore) : list NearbyEntry :=
  Array_sort (fun a b => distance_km a - distance_km b)
    (filter (fun e => Qle_bool (distance_km e) radius_km)
       (map (fun loc =>
               mkNearby loc
                 (haversineDistance lat lng
                    (DriverLocation.lat loc) (DriverLocation.lng loc)))
          (LocationStore.values locations))).

Definition handleNearby (now : timestamp) (self : t) (body : NearbyBody)
    : t * Response :=
  let radius_km :=
    match radius_km body with Some r => r | None => 10%Q end in
  match query_lat body, query_lng body with
  | Some lat, Some lng =>
      (* Prune stale entries (older than 5 minutes) before returning *)
      let staleThreshold := (now - 5 * 60 * 1000)%Z in
      let (locations', pruned) :=
        pruneLoop staleThreshold (LocationStore.entries (locations self))
          (locations self) false in
      let self1 :=
        mk (storage self) locations' (loaded self) (prototype self) in
      let self2 := if pruned then persist self1 else self1 in
      (self2,
       jsonResponse (SuccessNearby (nearbyOf lat lng radius_km locations'))
         200)
  | _, _ => (self, jsonResponse (ErrorBody "lat and lng required") 400)
  end.

(** [fetch(request)]: [ensureLoaded], then the route.  A path
    segment [segments[1]] that is empty is falsy and falls through
    to the 404 response. *)
Definition fetch (now : timestamp) (self : t) (request : Request)
    : t * Response :=
  let self := ensureLoaded self in
  match request with
  | PUT_location body => handleUpdateLocation now self body
  | GET_location driver_id =>
      if truthy (Some driver_id) then (self, handleGetLocation self driver_id)
      else (self, jsonResponse (ErrorBody "Not found") 404)
  | DELETE_location driver_id =>
      if truthy (Some driver_id) then handleRemoveLocation self driver_id
      else (self, jsonResponse (ErrorBody "Not found") 404)
  | POST_nearby body => handleNearby now self body
  | OtherRequest => (self, jsonResponse (ErrorBody "Not found") 404)
  end.
End Nearby.

End DriverTracker.

(* ================================================================= *)
(** ** DriverService (services/driver.service.ts) *)

(** The worker's world: the singleton tracker and the D1 database. *)
Record Env : Type := mkEnv {
  DRIVER_TRACKER : DriverTracker.t;
  DB : D1Database
}.

Module DriverService.
Import DriverTracker.

Section WithDistance.
Variable haversineDistance : number -> number -> number -> number -> number.

(** [updateLocation(driverId, lat, lng)]: update the durable object,
    then persist to D1 for dispatch queries. *)
Definition updateLocation (now : timestamp) (env : Env)
    (driverId : string) (lat lng : number) : Env * result unit :=
  let (tracker, res) :=
    fetch haversineDistance now (DRIVER_TRACKER env)
      (PUT_location (mkUpdateBody (Some driverId) (Some lat) (Some lng))) in
  if negb (ok res) then
    (mkEnv tracker (DB env),
     Throw (Error ("DO error: " ++
                     match body res with ErrorBody e => e | _ => "" end)))
  else
    (mkEnv tracker
       (OrderRepository.upsertDriverStatus now (DB env) driverId true
          (Some lat) (Some lng)),
     Ok tt).

(** [getNearbyDrivers(lat, lng, radius_km)] *)
Definition getNearbyDrivers (now : timestamp) (env : Env)
    (lat lng radius_km : number) : Env * result (list NearbyEntry) :=
  let (tracker, res) :=
    fetch haversineDistance now (DRIVER_TRACKER env)
      (POST_nearby (mkNearbyBody (Some lat) (Some lng) (Some radius_km))) in
  if negb (ok res) then
    (mkEnv tracker (DB env), Throw (Error "Failed to query nearby drivers"))
  else
    (mkEnv tracker (DB env),
     Ok (match body res with SuccessNearby data => data | _ => [] end)).

(** [goOffline(driverId)].  The id travels in the path of the URL
    [`http://do/location/${driverId}`], which the tracker parses
    and splits on ['/'] without decoding.  The URL parser is not
    part of the sources: [pathSegment driverId] is what the tracker
    finds as [segments[1]] of that URL, and [None] when the parsed
    path does not begin with the segment ['location'] followed by
    another one. *)
Variable pathSegment : string -> option string.

Definition goOffline (now : timestamp) (env : Env) (driverId : string)
    : Env :=
  let request :=
    match pathSegment driverId with
    | Some segment => DELETE_location segment
    | None => OtherRequest
    end in
  let (tracker, _) :=
    fetch haversineDistance now (DRIVER_TRACKER env) request in
  mkEnv tracker
    (OrderRepository.upsertDriverStatus now (DB env) driverId false
       None None).

(** [setAvailability(driverId, available)] *)
Definition setAvailability (now : timestamp) (env : Env)
    (driverId : string) (available : bool) : Env :=
  mkEnv (DRIVER_TRACKER env)
    (OrderRepository.upsertDriverStatus now (DB env) driverId available
       None None).
End WithDistance.

End DriverService.

(* ================================================================= *)
(** ** Interleaved dispatch

    [dispatchOrder] and [triggerDispatch] are [async]: between two
    [await]s other requests run.  A task is the continuation of one call
    at an [await] on the database; [step] runs it up to its next
    [await].  [createOrder] starts [DispatchOrder Auto order] on the row
    it has just inserted and does not wait for it.  The two statements
    of [updateStatus] are one step: [dispatchOrder] drops the row that
    the second one reads. *)

Module Concurrent.
Import OrderRepository OrderService.

Inductive Caller : Type :=
| Auto                        (* this.dispatchOrder(order).catch(...) *)
| Manual (orderId : string).  (* await this.dispatchOrder(order) in triggerDispatch *)

Inductive Task : Type :=
| TriggerDispatch (orderId : string)
    (* about to await findById(orderId) *)
| DispatchOrder (caller : Caller) (order : OrderRow)
    (* about to await findAvailableDrivers() *)
| Assign (caller : Caller) (order : OrderRow) (nearest : string)
    (* about to await updateStatus(order.id, 'accepted', nearest) *)
| Reread (orderId : string)
    (* about to await the second findById(orderId) *)
| Done (r : result (option DispatchOutcome)).

Definition afterDispatch (caller : Caller) : Task :=
  match caller with
  | Auto => Done (Ok None)
  | Manual orderId => Reread orderId
  end.

Section Step.
Variable haversineDistance : number -> number -> number -> number -> number.

Definition step (now : timestamp) (db : D1Database) (task : Task)
    : D1Database * Task :=
  match task with
  | TriggerDispatch orderId =>
      match findById db orderId with
      | None => (db, Done (Throw NotFound))
      | Some order =>
          if negb (OrderStatus_eqb (OrderRow.status order) created)
          then (db, Done (Throw AlreadyDispatched))
          else (db, DispatchOrder (Manual orderId) order)
      end
  | DispatchOrder caller order =>
      match findAvailableDrivers db with
      | [] => (db, afterDispatch caller)
      | availableDrivers =>
          match rankDrivers haversineDistance order availableDrivers with
          | [] => (db, Done (Throw TypeError))
          | nearest :: _ =>
              (db, Assign caller order
                     (AvailableDriver.driver_id (fst nearest)))
          end
      end
  | Assign caller order nearest =>
      (fst (updateStatus now db (OrderRow.id order) accepted (Some nearest)),
       afterDispatch caller)
  | Reread orderId =>
      (db, Done (Ok (Some (outcomeOf (findById db orderId)))))
  | Done r => (db, Done r)
  end.

(** [createOrder(customerId, input)] up to the point where the
    automatic dispatch has been started: the order is inserted and
    [dispatchOrder(order)] is left running on the row read back,
    its failure only logged.  [orderId] is the value of
    [generateId()]. *)
Definition createOrder (now : timestamp) (orderId : string)
    (db : D1Database) (customerId : string) (input : CreateOrderInput)
    : D1Database * option OrderRow * Task :=
  let (db', order) :=
    create now orderId db customerId (input_merchant_id input)
      (totalPrice (items input))
      (fst (pickup_location input)) (snd (pickup_location input))
      (fst (dropoff_location input)) (snd (dropoff_location input))
      (input_notes input) in
  (db', order,
   match order with
   | Some row => DispatchOrder Auto row
   | None => Done (Throw TypeError)
   end).

(** One task running alone for [n] steps. *)
Fixpoint runAlone (n : nat) (now : timestamp) (db : D1Database)
    (task : Task) : D1Database * Task :=
  match n with
  | O => (db, task)
  | S n' => let (db', task') := step now db task in runAlone n' now db' task'
  end.

(** Several tasks under a schedule: at each entry [(i, now)] task
    [i] runs one step at clock reading [now]. *)
Fixpoint stepNth (i : nat) (now : timestamp) (db : D1Database)
    (tasks : list Task) : D1Database * list Task :=
  match tasks, i with
  | [], _ => (db, [])
  | t :: rest, O => let (db', t') := step now db t in (db', t' :: rest)
  | t :: rest, S i' =>
      let (db', rest') := stepNth i' now db rest in (db', t :: rest')
  end.

Fixpoint run (schedule : list (nat * timestamp)) (db : D1Database)
    (tasks : list Task) : D1Database * list Task :=
  match schedule with
  | [] => (db, tasks)
  | (i, now) :: schedule' =>
      let (db', tasks') := stepNth i now db tasks in
      run schedule' db' tasks'
  end.
(** The database after each entry of the schedule. *)
Fixpoint trace (schedule : list (nat * timestamp)) (db : D1Database)
    (tasks : list Task) : list D1Database :=
  match schedule with
  | [] => []
  | (i, now) :: schedule' =>
      let (db', tasks') := stepNth i now db tasks in
      db' :: trace schedule' db' tasks'
  end.
End Step.

End Concurrent.


(* ================================================================= *)
(** ** Reading orders: the list queries of OrderRepository, and
       [getOrder] / [getMyOrders] of OrderService *)

(** A row of the table [order_items]. *)
Module OrderItemRow.
Record t : Type := mk {
  id : string;
  order_id : string;
  name : string;
  quantity : number;
  unit_price : number
}.
End OrderItemRow.
Abbreviation OrderItemRow := OrderItemRow.t.

Module OrderQueries.

(** [findItems(orderId)]: [SELECT * FROM order_items WHERE order_id = ?]
    over the table [order_items]. *)
Definition findItems (order_items : list OrderItemRow) (orderId : string)
    : list OrderItemRow :=
  filter (fun it => String.eqb (OrderItemRow.order_id it) orderId) order_items.








End OrderQueries.

Module OrderViews.
Import OrderRepository OrderService OrderQueries.

(** [getOrder(orderId, requestingUserId, role)]: the order with its
    items, for the involved parties and admins only. *)
Definition getOrder (db : D1Database) (order_items : list OrderItemRow)
    (orderId : string) (requestingUserId : string) (role : Role)
    : result (OrderRow * list OrderItemRow) :=
  match findById db orderId with
  | None => Throw (HTTPException 404 "Order not found")
  | Some order =>
      let canView :=
        match role with admin => true | _ => false end
        || String.eqb (OrderRow.customer_id order) requestingUserId
        || String.eqb (OrderRow.merchant_id order) requestingUserId
        || option_string_eqb (OrderRow.driver_id order) requestingUserId in
      if negb canView then Throw (HTTPException 403 "Access denied")
      else Ok (order, findItems order_items orderId)
  end.




End OrderViews.

(* ================================================================= *)
(** ** Order creation when D1 may refuse the rows *)

Module OrderCreation.
Import OrderRepository OrderService.

(** [createOrder(customerId, input)] (order.service.ts) with the
    answer of D1 to [db.batch([...])] in [create] made explicit.
    The tables of [0001_initial.sql] declare [orders.id] and
    [order_items.id] primary keys, [orders.customer_id] and
    [orders.merchant_id] references to [users(id)], and a CHECK on
    [order_items.unit_price]; [CreateOrderSchema] asks of
    [merchant_id] only the form of a UUID.  A batch that breaks one
    of these is rejected whole: [batch] throws, no row is written,
    [create] and [createOrder] throw with it, and
    [dispatchOrder(order)] is never reached.  [refusal] is that
    exception, [None] when D1 accepts the rows; the table [users] is
    not part of [D1Database], so the answer is an argument.

    The result is the database afterwards, what [create] returned or
    threw, and the dispatch left running, if one was started. *)
Definition createOrder (refusal : option Exception) (now : timestamp)
    (orderId : string) (db : D1Database) (customerId : string)
    (input : CreateOrderInput)
    : D1Database * result (option OrderRow) * option Concurrent.Task :=
  match refusal with
  | Some e => (db, Throw e, None)
  | None =>
      let '(db', order, task) :=
        Concurrent.createOrder now orderId db customerId input in
      (db', Ok order, Some task)
  end.
End OrderCreation.

(* ================================================================= *)
(** ** Utility functions (utils/index.ts)

    A JavaScript string is a sequence of code units; the strings of
    this section are those whose code units are below 256, one [ascii]
    per code unit.  A [Uint8Array] is a list of bytes. *)

From Stdlib Require Strings.Ascii Strings.Byte.

Module Utils.
Import Strings.Ascii.

(** [s.charCodeAt(i)] of one code unit. *)
Definition charCode (c : Ascii.ascii) : Z := Z.of_N (Ascii.N_of_ascii c).

(** The element a [Uint8Array] stores for a number: a NaN ([None]) is
    stored as 0, an integer modulo 256. *)
Definition toUint8 (v : option Z) : Byte.byte :=
  match v with
  | None => Byte.x00
  | Some z =>
      match Byte.of_N (Z.to_N (z mod 256)) with
      | Some b => b
      | None => Byte.x00
      end
  end.

(** *** [parseInt(string, radix)]

    White space of the code units below 256: TAB, LF, VT, FF, CR,
    SP and NBSP.  The result is [None] for NaN.  The integer is the
    exact one, as JavaScript has it below 2^53. *)
Definition isWhiteSpace (c : Ascii.ascii) : bool :=
  let n := Ascii.N_of_ascii c in
  ((9 <=? n) && (n <=? 13) || (n =? 32) || (n =? 160))%N.

Fixpoint trimStart (s : string) : string :=
  match s with
  | String c rest => if isWhiteSpace c then trimStart rest else s
  | EmptyString => EmptyString
  end.

Definition digitValue (c : Ascii.ascii) : option Z :=
  let n := Z.of_N (Ascii.N_of_ascii c) in
  if ((48 <=? n) && (n <=? 57))%Z then Some (n - 48)%Z
  else if ((97 <=? n) && (n <=? 122))%Z then Some (n - 87)%Z
  else if ((65 <=? n) && (n <=? 90))%Z then Some (n - 55)%Z
  else None.

(** The value of the longest prefix of radix-[R] digits, [acc] when
    there is none. *)
Fixpoint digits (R : Z) (s : string) (acc : option Z) : option Z :=
  match s with
  | String c rest =>
      match digitValue c with
      | Some v =>
          if (v <? R)%Z then
            digits R rest
              (Some (match acc with Some a => a * R + v | None => v end))%Z
          else acc
      | None => acc
      end
  | EmptyString => acc
  end.

Definition parseInt (inputString : string) (radix : Z) : option Z :=
  let str := trimStart inputString in
  let sign := match str with String "-"%char _ => (-1)%Z | _ => 1%Z end in
  let str := match str with
           | String "-"%char rest | String "+"%char rest => rest
           | _ => str
           end in
  if ((radix <? 0) || (radix =? 1) || (36 <? radix))%Z then None
  else
    let stripPrefix := ((radix =? 0) || (radix =? 16))%Z in
    let R := if (radix =? 0)%Z then 10%Z else radix in
    let '(str, R) :=
      match str with
      | String "0"%char (String "x"%char rest)
      | String "0"%char (String "X"%char rest) =>
          if stripPrefix then (rest, 16%Z) else (str, R)
      | _ => (str, R)
      end in
    match digits R str None with
    | None => None
    | Some mathInt => Some (sign * mathInt)%Z
    end.

(** *** Hexadecimal *)

Definition hexDigit (n : N) : Ascii.ascii :=
  match String.get (N.to_nat n) "0123456789abcdef" with
  | Some c => c
  | None => "0"%char
  end.

(** [b.toString(16)] for a byte. *)
Definition byteToString16 (b : Byte.byte) : string :=
  let n := Byte.to_N b in
  if (n <? 16)%N then String (hexDigit n) EmptyString
  else String (hexDigit (n / 16)) (String (hexDigit (n mod 16)) EmptyString).

(** [s.padStart(targetLength, padChar)] with a one-character pad. *)
Definition padStart (targetLength : nat) (padChar : Ascii.ascii) (s : string)
    : string :=
  (string_of_list_ascii (repeat padChar (targetLength - String.length s))
     ++ s)%string.

(** [bufferToHex(buf)] *)
Definition bufferToHex (buf : list Byte.byte) : string :=
  String.concat ""
    (map (fun b => padStart 2 "0"%char (byteToString16 b)) buf).

(** [hexToBuffer(hex)]: the array has [hex.length / 2] elements,
    rounded down; element [i / 2] is
    [parseInt(hex.slice(i, i + 2), 16)], and the write of a last
    lone character falls outside the array. *)
Fixpoint hexToBuffer (hex : string) : list Byte.byte :=
  match hex with
  | String c1 (String c2 rest) =>
      toUint8 (parseInt (String c1 (String c2 EmptyString)) 16)
      :: hexToBuffer rest
  | _ => []
  end.

(** *** [timingSafeEqual(a, b)] *)

Fixpoint xorAll (a b : string) (result : Z) : Z :=
  match a, b with
  | String x a', String y b' =>
      xorAll a' b' (Z.lor result (Z.lxor (charCode x) (charCode y)))
  | _, _ => result
  end.

Definition timingSafeEqual (a b : string) : bool :=
  if negb (String.length a =? String.length b)%nat then false
  else (xorAll a b 0 =? 0)%Z.

(** *** [s.split(sep)] with a one-character separator *)
Fixpoint split (sep : Ascii.ascii) (s : string) : list string :=
  match s with
  | EmptyString => [EmptyString]
  | String c rest =>
      if Ascii.eqb c sep then EmptyString :: split sep rest
      else
        match split sep rest with
        | h :: t => String c h :: t
        | [] => [String c EmptyString]
        end
  end.

(** *** Password hashing

    [crypto.subtle.deriveBits] with PBKDF2 and SHA-256 over the
    encoded password is a parameter: it is given the password, the
    salt and the iteration count ([None] for NaN) and returns 32
    bytes or throws.  The salt of [crypto.getRandomValues] is an
    argument. *)
Section Password.
Variable deriveBits : string -> list Byte.byte -> option Z -> result (list Byte.byte).

Definition ITERATIONS : Z := 100000.

(** [hashPassword(password)]: "iterations:salt_hex:hash_hex". *)
Definition hashPassword (salt : list Byte.byte) (password : string)
    : result string :=
  match deriveBits password salt (Some ITERATIONS) with
  | Throw e => Throw e
  | Ok hashBuffer =>
      Ok ("100000" ++ ":" ++ bufferToHex salt ++ ":"
            ++ bufferToHex hashBuffer)%string
  end.

Definition falsy (s : option string) : bool :=
  match s with
  | None | Some EmptyString => true
  | Some _ => false
  end.

(** [verifyPassword(password, stored)] *)
Definition verifyPassword (password stored : string) : result bool :=
  let parts := split ":"%char stored in
  let iterStr := nth_error parts 0 in
  let saltHex := nth_error parts 1 in
  let storedHash := nth_error parts 2 in
  match iterStr, saltHex, storedHash with
  | Some iterStr', Some saltHex', Some storedHash' =>
      if falsy iterStr || falsy saltHex || falsy storedHash then Ok false
      else
        let iterations := parseInt iterStr' 10 in
        let salt := hexToBuffer saltHex' in
        match deriveBits password salt iterations with
        | Throw e => Throw e
        | Ok hashBuffer =>
            Ok (timingSafeEqual (bufferToHex hashBuffer) storedHash')
        end
  | _, _, _ => Ok false
  end.
End Password.

End Utils.

(* ================================================================= *)
(** ** Base64url and JSON Web Tokens (utils/index.ts) *)

Module Base64.
Import Strings.Ascii.

Definition alphabet : string :=
  "ABCDEFGHIJKLMNOPQRSTUVWXYZabcdefghijklmnopqrstuvwxyz0123456789+/".

Definition encodeChar (sextet : N) : ascii :=
  match String.get (N.to_nat sextet) alphabet with
  | Some c => c
  | None => "="%char
  end.

(** The position of a character in the alphabet, if it is there. *)
Definition decodeChar (c : ascii) : option N :=
  let n := N_of_ascii c in
  if ((65 <=? n) && (n <=? 90))%N then Some (n - 65)%N
  else if ((97 <=? n) && (n <=? 122))%N then Some (n - 71)%N
  else if ((48 <=? n) && (n <=? 57))%N then Some (n + 4)%N
  else if (n =? 43)%N then Some 62%N
  else if (n =? 47)%N then Some 63%N
  else None.

(** [btoa(binary)]: three code units make four characters; a rest of
    one or two is padded with ['=']. *)
Fixpoint btoa (binary : string) : string :=
  match binary with
  | EmptyString => EmptyString
  | String a EmptyString =>
      let a := N_of_ascii a in
      String (encodeChar (a / 4))
        (String (encodeChar ((a mod 4) * 16))
           (String "="%char (String "="%char EmptyString)))
  | String a (String b EmptyString) =>
      let a := N_of_ascii a in
      let b := N_of_ascii b in
      String (encodeChar (a / 4))
        (String (encodeChar ((a mod 4) * 16 + b / 16))
           (String (encodeChar ((b mod 16) * 4))
              (String "="%char EmptyString)))
  | String a (String b (String c rest)) =>
      let a := N_of_ascii a in
      let b := N_of_ascii b in
      let c := N_of_ascii c in
      String (encodeChar (a / 4))
        (String (encodeChar ((a mod 4) * 16 + b / 16))
           (String (encodeChar ((b mod 16) * 4 + c / 64))
              (String (encodeChar (c mod 64)) (btoa rest))))
  end%N.

(** [s.replace(/c/g, d)] and [s.replace(/c/g, '')] for one
    character. *)
Fixpoint replaceAll (c d : ascii) (s : string) : string :=
  match s with
  | EmptyString => EmptyString
  | String x rest =>
      String (if Ascii.eqb x c then d else x) (replaceAll c d rest)
  end.

Fixpoint removeAll (c : ascii) (s : string) : string :=
  match s with
  | EmptyString => EmptyString
  | String x rest =>
      if Ascii.eqb x c then removeAll c rest
      else String x (removeAll c rest)
  end.

(** [new TextEncoder().encode(s)]: UTF-8 of code units below 256. *)
Definition encodeUtf8 (s : string) : list Byte.byte :=
  flat_map
    (fun c =>
       let n := N_of_ascii c in
       if (n <? 128)%N then [byte_of_ascii c]
       else [byte_of_ascii (ascii_of_N (192 + n / 64));
             byte_of_ascii (ascii_of_N (128 + n mod 64))])
    (list_ascii_of_string s).

(** [binary += String.fromCharCode(b)] over the bytes. *)
Definition binaryOf (bytes : list Byte.byte) : string :=
  string_of_list_ascii (map ascii_of_byte bytes).

(** The argument of [base64UrlEncode]: [string | Uint8Array]. *)
Inductive Input : Type :=
| Text (s : string)
| Bytes (b : list Byte.byte).

Definition base64UrlEncode (input : Input) : string :=
  let bytes :=
    match input with
    | Text s => encodeUtf8 s
    | Bytes b => b
    end in
  removeAll "="%char
    (replaceAll "/"%char "_"%char
       (replaceAll "+"%char "-"%char (btoa (binaryOf bytes)))).

(** [atob(data)], the forgiving base64 decoding: ASCII white space
    (TAB, LF, FF, CR, SP) is dropped; with a length that is a
    multiple of 4, one or two final ['='] are dropped; a length
    that leaves remainder 1, or a character outside the alphabet,
    is an error ([None]); the bits that do not fill a byte are
    discarded. *)
Definition isAsciiWhitespace (c : ascii) : bool :=
  let n := N_of_ascii c in
  ((n =? 9) || (n =? 10) || (n =? 12) || (n =? 13) || (n =? 32))%N.

Fixpoint removeWhitespace (s : string) : string :=
  match s with
  | EmptyString => EmptyString
  | String x rest =>
      if isAsciiWhitespace x then removeWhitespace rest
      else String x (removeWhitespace rest)
  end.

Definition stripPadding (l : list ascii) : list ascii :=
  if (List.length l mod 4 =? 0)%nat then
    match rev l with
    | "="%char :: "="%char :: r => rev r
    | "="%char :: r => rev r
    | _ => l
    end
  else l.

Fixpoint sextets (l : list ascii) : option (list N) :=
  match l with
  | [] => Some []
  | c :: rest =>
      match decodeChar c, sextets rest with
      | Some n, Some ns => Some (n :: ns)
      | _, _ => None
      end
  end.

Definition byteOf (n : N) : Byte.byte :=
  match Byte.of_N n with
  | Some b => b
  | None => Byte.x00
  end.

Fixpoint decodeSextets (l : list N) : list Byte.byte :=
  match l with
  | a :: b :: c :: d :: rest =>
      byteOf (a * 4 + b / 16)
      :: byteOf ((b mod 16) * 16 + c / 4)
      :: byteOf ((c mod 4) * 64 + d)
      :: decodeSextets rest
  | [a; b; c] =>
      [byteOf (a * 4 + b / 16); byteOf ((b mod 16) * 16 + c / 4)]
  | [a; b] => [byteOf (a * 4 + b / 16)]
  | _ => []
  end%N.

Definition atob (data : string) : option (list Byte.byte) :=
  let chars := stripPadding (list_ascii_of_string (removeWhitespace data)) in
  if (List.length chars mod 4 =? 1)%nat then None
  else
    match sextets chars with
    | None => None
    | Some ns => Some (decodeSextets ns)
    end.

(** [base64UrlDecode(input)]; [None] when [atob] throws. *)
Definition base64UrlDecode (input : string) : option (list Byte.byte) :=
  atob (replaceAll "_"%char "/"%char (replaceAll "-"%char "+"%char input)).

End Base64.

(** [interface JWTPayload] *)
Module JWTPayload.
Record t : Type := mk {
  sub : string;
  email : string;
  role : Role;
  iat : Z;
  exp : Z
}.
End JWTPayload.
Abbreviation JWTPayload := JWTPayload.t.

Module Jwt.
Import Strings.Ascii Base64.

(** The platform functions are parameters: [JSON.stringify] of a
    payload; [TextDecoder.decode] followed by [JSON.parse] of the
    decoded bytes, taken to yield a payload object or to throw
    ([None]); [importHMACKey] followed by [crypto.subtle.sign] or
    [crypto.subtle.verify] under a secret, over the encoded message
    (a [verify] that throws is caught like one that answers
    false). *)
Section WithPlatform.
Variable jsonStringify : JWTPayload -> string.
Variable jsonParse : list Byte.byte -> option JWTPayload.
Variable hmacSign : string -> string -> result (list Byte.byte).
Variable hmacVerify : string -> list Byte.byte -> string -> bool.

(** [JSON.stringify({ alg: 'HS256', typ: 'JWT' })] *)
Definition quoted (s : string) : string :=
  String (ascii_of_nat 34) (s ++ String (ascii_of_nat 34) EmptyString).

Definition headerJson : string :=
  ("{" ++ quoted "alg" ++ ":" ++ quoted "HS256" ++ ","
       ++ quoted "typ" ++ ":" ++ quoted "JWT" ++ "}")%string.

(** [signJWT(payload, secret, expiresInSeconds)]; the payload given
    carries [sub], [email] and [role], and [now] is [Date.now()]. *)
Definition signJWT (nowMs : timestamp) (sub email : string) (role : Role)
    (secret : string) (expiresInSeconds : Z) : result string :=
  let now := (nowMs / 1000)%Z in
  let fullPayload :=
    JWTPayload.mk sub email role now (now + expiresInSeconds)%Z in
  let header := base64UrlEncode (Text headerJson) in
  let body := base64UrlEncode (Text (jsonStringify fullPayload)) in
  let unsigned := (header ++ "." ++ body)%string in
  match hmacSign secret unsigned with
  | Throw e => Throw e
  | Ok signature =>
      Ok (unsigned ++ "." ++ base64UrlEncode (Bytes signature))%string
  end.

(** [verifyJWT(token, secret)]; [None] is [null]. *)
Definition verifyJWT (nowMs : timestamp) (token secret : string)
    : option JWTPayload :=
  match Utils.split "."%char token with
  | [header; body; sig] =>
      let unsigned := (header ++ "." ++ body)%string in
      match base64UrlDecode sig with
      | None => None
      | Some sigBytes =>
          if negb (hmacVerify secret sigBytes unsigned) then None
          else
            match base64UrlDecode body with
            | None => None
            | Some bodyBytes =>
                match jsonParse bodyBytes with
                | None => None
                | Some payload =>
                    if (JWTPayload.exp payload <? nowMs / 1000)%Z
                    then None
                    else Some payload
                end
            end
      end
  | _ => None
  end.
End WithPlatform.
End Jwt.

(* ================================================================= *)
(** ** The rate limiter (middleware) *)

Module RateLimit.

(** [interface RateLimitOptions] *)
Record RateLimitOptions : Type := mkOptions {
  limit : Z;
  windowSeconds : Z;
  keyPrefix : option string
}.

(** What the limiter reads of a request: two headers and the path. *)
Record Req : Type := mkReq {
  cfConnectingIp : option string;
  xForwardedFor : option string;
  path : string
}.

(** The KV namespace [RATE_LIMIT]: under a key, a value and the
    instant (ms) it expires.  The value is the JSON text of an array
    of timestamps, held here as the array it parses to; such a text
    is never empty, so [stored ? ... : []] tests presence.  The
    seconds of [expirationTtl] are counted on the clock of
    [Date.now()], and a read sees the last write. *)
Definition KVNamespace : Type := list (string * (list timestamp * timestamp)).

(** The limits of Workers KV: a key is at most 512 bytes of UTF-8,
    and an [expirationTtl] is at least 60 seconds.  [get] and [put]
    reject with an [Error] outside them; the text of the message is
    the platform's and the code does not read it. *)
Definition maxKeyBytes : Z := 512.
Definition minExpirationTtl : Z := 60.

Definition keyBytes (key : string) : Z :=
  Z.of_nat (List.length (Base64.encodeUtf8 key)).

Definition KVGetFailed : Exception := Error "KV GET failed".
Definition KVPutFailed : Exception := Error "KV PUT failed".

(** The value held under a key at [now], and the namespace with a
    value written under a key. *)
Definition held (now : timestamp) (kv : KVNamespace) (key : string)
    : option (list timestamp) :=
  match find (fun e => String.eqb (fst e) key) kv with
  | Some (_, (value, expiresAt)) =>
      if (now <? expiresAt)%Z then Some value else None
  | None => None
  end.

Definition written (now : timestamp) (kv : KVNamespace) (key : string)
    (value : list timestamp) (expirationTtl : Z) : KVNamespace :=
  (key, (value, now + expirationTtl * 1000)%Z)
  :: filter (fun e => negb (String.eqb (fst e) key)) kv.

(** [await kv.get(key)] *)
Definition kvGet (now : timestamp) (kv : KVNamespace) (key : string)
    : result (option (list timestamp)) :=
  if (maxKeyBytes <? keyBytes key)%Z then Throw KVGetFailed
  else Ok (held now kv key).

(** [await kv.put(key, value, { expirationTtl })] *)
Definition kvPut (now : timestamp) (kv : KVNamespace) (key : string)
    (value : list timestamp) (expirationTtl : Z) : result KVNamespace :=
  if (maxKeyBytes <? keyBytes key)%Z then Throw KVPutFailed
  else if (expirationTtl <? minExpirationTtl)%Z then Throw KVPutFailed
  else Ok (written now kv key value expirationTtl).

(** [a || b]: the first operand unless it is undefined or empty. *)
Definition orElse (a : option string) (b : string) : string :=
  match a with
  | Some (String _ _ as s) => s
  | _ => b
  end.

Definition ipOf (req : Req) : string :=
  orElse (cfConnectingIp req) (orElse (xForwardedFor req) "unknown").

Definition keyOf (opts : RateLimitOptions) (req : Req) : string :=
  let prefix :=
    match keyPrefix opts with
    | Some p => p
    | None => "rl"
    end in
  (prefix ++ ":" ++ ipOf req ++ ":" ++ path req)%string.

Definition TooManyRequests : Exception :=
  HTTPException 429 "Too many requests. Please try again later.".

(** [rateLimiter(opts)] applied to a request at [now]: the value of
    the header [X-RateLimit-Remaining] when [next()] is reached, or
    the exception, and the namespace afterwards.  An exception of
    [get] or [put] leaves the middleware as it is thrown. *)
Definition rateLimiter (opts : RateLimitOptions) (now : timestamp)
    (req : Req) (kv : KVNamespace) : result Z * KVNamespace :=
  let key := keyOf opts req in
  let windowStart := (now - windowSeconds opts * 1000)%Z in
  match kvGet now kv key with
  | Throw e => (Throw e, kv)
  | Ok stored =>
      let timestamps :=
        match stored with
        | Some ts => ts
        | None => []
        end in
      let timestamps := filter (fun ts => (windowStart <? ts)%Z) timestamps in
      if (limit opts <=? Z.of_nat (List.length timestamps))%Z then
        (Throw TooManyRequests, kv)
      else
        let timestamps := timestamps ++ [now] in
        match kvPut now kv key timestamps (windowSeconds opts + 5)%Z with
        | Throw e => (Throw e, kv)
        | Ok kv' =>
            (Ok (limit opts - Z.of_nat (List.length timestamps))%Z, kv')
        end
  end.

End RateLimit.

(* ================================================================= *)
(** ** Users, addresses and authentication *)

(** A row of the table [users]. *)
Module UserRow.
Record t : Type := mk {
  id : string;
  email : string;
  password_hash : string;
  role : Role;
  name : string;
  phone : option string;
  created_at : timestamp
}.
End UserRow.
Abbreviation UserRow := UserRow.t.

(** A row of the table [addresses]. *)
Module AddressRow.
Record t : Type := mk {
  id : string;
  user_id : string;
  label : string;
  street : string;
  city : string;
  country : string;
  lat : number;
  lng : number;
  created_at : timestamp
}.
End AddressRow.
Abbreviation AddressRow := AddressRow.t.

(** The tables [users] and [addresses] of the database, in scan
    order. *)
Record UserTables : Type := mkTables {
  users : list UserRow;
  addresses : list AddressRow
}.

Module UserRepository.

(** [findById(id)]: [SELECT * FROM users WHERE id = ?], first row. *)
Definition findById (db : UserTables) (id : string) : option UserRow :=
  find (fun u => String.eqb (UserRow.id u) id) (users db).

(** [findByEmail(email)]: [SELECT * FROM users WHERE email = ?]. *)
Definition findByEmail (db : UserTables) (email : string) : option UserRow :=
  find (fun u => String.eqb (UserRow.email u) email) (users db).

Record CreateInput : Type := mkCreateInput {
  email : string;
  password_hash : string;
  role : Role;
  name : string;
  phone : option string
}.

Definition ConstraintFailed (what : string) : Exception :=
  Error ("D1_ERROR: " ++ what).

(** [create(input)]: the INSERT fails on the PRIMARY KEY [id] and on
    the UNIQUE [email]; [id] is the value of [generateId()] and [now]
    the time of the call.  The result is what [findById(id)] then
    finds. *)
Definition create (db : UserTables) (id : string) (now : timestamp)
    (input : CreateInput) : result (option UserRow) * UserTables :=
  if existsb (fun u => String.eqb (UserRow.id u) id) (users db) then
    (Throw (ConstraintFailed "UNIQUE constraint failed: users.id"), db)
  else if existsb (fun u => String.eqb (UserRow.email u) (email input))
            (users db) then
    (Throw (ConstraintFailed "UNIQUE constraint failed: users.email"), db)
  else
    let row :=
      UserRow.mk id (email input) (password_hash input) (role input)
        (name input) (phone input) now in
    let db' := mkTables (users db ++ [row]) (addresses db) in
    (Ok (findById db' id), db').

(** [Partial<Pick<UserRow, 'name' | 'phone'>>]: [None] is
    [undefined]. *)
Record UpdateInput : Type := mkUpdateInput {
  new_name : option string;
  new_phone : option (option string)
}.

(** [update(id, input)] *)
Definition update (db : UserTables) (id : string) (input : UpdateInput)
    : option UserRow * UserTables :=
  match new_name input, new_phone input with
  | None, None => (findById db id, db)
  | n, p =>
      let set (u : UserRow) : UserRow :=
        if String.eqb (UserRow.id u) id then
          UserRow.mk (UserRow.id u) (UserRow.email u)
            (UserRow.password_hash u) (UserRow.role u)
            (match n with Some v => v | None => UserRow.name u end)
            (match p with Some v => v | None => UserRow.phone u end)
            (UserRow.created_at u)
        else u in
      let db' := mkTables (map set (users db)) (addresses db) in
      (findById db' id, db')
  end.

(** [findAddresses(userId)]:
    [SELECT * FROM addresses WHERE user_id = ? ORDER BY created_at DESC];
    rows with equal [created_at] are kept in scan order. *)
Definition ofUser (userId : string) (a : AddressRow) : bool :=
  String.eqb (AddressRow.user_id a) userId.

Definition findAddresses (db : UserTables) (userId : string)
    : list AddressRow :=
  Array_sort
    (fun a b => inject_Z (- AddressRow.created_at a)
                - inject_Z (- AddressRow.created_at b))
    (filter (ofUser userId) (addresses db)).

Record AddressInput : Type := mkAddressInput {
  label : string;
  street : string;
  city : string;
  country : string;
  lat : number;
  lng : number
}.

(** [createAddress(userId, input)]: the INSERT fails on the PRIMARY
    KEY [id] and on the reference [user_id] to [users(id)]; the result
    is the row [SELECT * FROM addresses WHERE id = ?] finds. *)
Definition createAddress (db : UserTables) (id : string) (now : timestamp)
    (userId : string) (input : AddressInput)
    : result (option AddressRow) * UserTables :=
  if existsb (fun a => String.eqb (AddressRow.id a) id) (addresses db) then
    (Throw (ConstraintFailed "UNIQUE constraint failed: addresses.id"), db)
  else if negb (existsb (fun u => String.eqb (UserRow.id u) userId)
                  (users db)) then
    (Throw (ConstraintFailed "FOREIGN KEY constraint failed"), db)
  else
    let row :=
      AddressRow.mk id userId (label input) (street input) (city input)
        (country input) (lat input) (lng input) now in
    let db' := mkTables (users db) (addresses db ++ [row]) in
    (Ok (find (fun a => String.eqb (AddressRow.id a) id) (addresses db')),
     db').

(** [deleteAddress(id, userId)]:
    [DELETE FROM addresses WHERE id = ? AND user_id = ?]; the result
    is [meta.changes > 0]. *)
Definition targeted (id userId : string) (a : AddressRow) : bool :=
  String.eqb (AddressRow.id a) id && String.eqb (AddressRow.user_id a) userId.

Definition deleteAddress (db : UserTables) (id userId : string)
    : bool * UserTables :=
  let changes := List.length (filter (targeted id userId) (addresses db)) in
  ((0 <? Z.of_nat changes)%Z,
   mkTables (users db)
     (filter (fun a => negb (targeted id userId a)) (addresses db))).

End UserRepository.

(** [interface PublicUser] *)
Module PublicUser.
Record t : Type := mk {
  id : string;
  email : string;
  role : Role;
  name : string;
  phone : option string;
  created_at : timestamp
}.
End PublicUser.
Abbreviation PublicUser := PublicUser.t.

Module AuthService.
Import UserRepository.

(** [RegisterInput] and [LoginInput], as the schemas leave them. *)
Record RegisterInput : Type := mkRegisterInput {
  reg_email : string;
  reg_password : string;
  reg_name : string;
  reg_phone : option string;
  reg_role : Role
}.

Record LoginInput : Type := mkLoginInput {
  login_email : string;
  login_password : string
}.

Definition toPublicUser (row : UserRow) : PublicUser :=
  PublicUser.mk (UserRow.id row) (UserRow.email row) (UserRow.role row)
    (UserRow.name row) (UserRow.phone row) (UserRow.created_at row).

Definition EmailTaken : Exception :=
  HTTPException 409 "Email already registered".

Definition InvalidCredentials : Exception :=
  HTTPException 401 "Invalid email or password".

Section WithPlatform.
Variable deriveBits :
  string -> list Byte.byte -> option Z -> result (list Byte.byte).
Variable jsonStringify : JWTPayload -> string.
Variable hmacSign : string -> string -> result (list Byte.byte).

(** What one call draws from its surroundings: the secret of the
    environment, the random salt and id, the clock when the row is
    written and when the token is signed. *)
Record Call : Type := mkCall {
  JWT_SECRET : string;
  salt : list Byte.byte;
  newId : string;
  writtenAt : timestamp;
  signedAt : timestamp
}.

Definition issue (call : Call) (user : UserRow)
    : result (PublicUser * string) :=
  match Jwt.signJWT jsonStringify hmacSign (signedAt call)
          (UserRow.id user) (UserRow.email user) (UserRow.role user)
          (JWT_SECRET call) 86400 with
  | Throw e => Throw e
  | Ok token => Ok (toPublicUser user, token)
  end.

(** [register(input)] *)
Definition register (call : Call) (db : UserTables)
    (input : RegisterInput)
    : result (PublicUser * string) * UserTables :=
  match findByEmail db (reg_email input) with
  | Some _ => (Throw EmailTaken, db)
  | None =>
      match Utils.hashPassword deriveBits (salt call)
              (reg_password input) with
      | Throw e => (Throw e, db)
      | Ok hash =>
          match create db (newId call) (writtenAt call)
                  (mkCreateInput (reg_email input) hash (reg_role input)
                     (reg_name input) (reg_phone input)) with
          | (Throw e, db') => (Throw e, db')
          | (Ok None, db') => (Throw TypeError, db')
          | (Ok (Some user), db') => (issue call user, db')
          end
      end
  end.

(** [login(input)]; it writes nothing. *)
Definition login (call : Call) (db : UserTables) (input : LoginInput)
    : result (PublicUser * string) :=
  match findByEmail db (login_email input) with
  | None =>
      match Utils.hashPassword deriveBits (salt call)
              "dummy_timing_safe" with
      | Throw e => Throw e
      | Ok _ => Throw InvalidCredentials
      end
  | Some user =>
      match Utils.verifyPassword deriveBits (login_password input)
              (UserRow.password_hash user) with
      | Throw e => Throw e
      | Ok false => Throw InvalidCredentials
      | Ok true => issue call user
      end
  end.
End WithPlatform.
End AuthService.

Module Middleware.
Import Strings.Ascii.

(** [s.startsWith(p)] and [s.slice(n)] *)
Fixpoint startsWith (p s : string) : bool :=
  match p, s with
  | EmptyString, _ => true
  | String a p', String b s' => Ascii.eqb a b && startsWith p' s'
  | String _ _, EmptyString => false
  end.

Fixpoint slice (n : nat) (s : string) : string :=
  match n, s with
  | O, _ => s
  | S n', String _ s' => slice n' s'
  | S _, EmptyString => EmptyString
  end.

Definition Role_eqb (a b : Role) : bool :=
  match a, b with
  | merchant, merchant | driver, driver
  | customer, customer | admin, admin => true
  | _, _ => false
  end.

Definition MissingHeader : Exception :=
  HTTPException 401 "Missing or invalid Authorization header".

Definition InvalidToken : Exception :=
  HTTPException 401 "Invalid or expired token".

Definition AuthenticationRequired : Exception :=
  HTTPException 401 "Authentication required".

Definition AccessDenied (roles : list Role) : Exception :=
  HTTPException 403
    ("Access denied. Required role: "
       ++ String.concat " or " (map Role_toString roles)).

Section WithPlatform.
Variable jsonParse : list Byte.byte -> option JWTPayload.
Variable hmacVerify : string -> list Byte.byte -> string -> bool.

(** [authMiddleware]: the payload it sets as [user] before
    [next()], or the exception. *)
Definition authMiddleware (now : timestamp) (secret : string)
    (authHeader : option string) : result JWTPayload :=
  match authHeader with
  | None => Throw MissingHeader
  | Some h =>
      if negb (startsWith "Bearer " h) then Throw MissingHeader
      else
        let token := slice 7 h in
        match Jwt.verifyJWT jsonParse hmacVerify now token secret with
        | None => Throw InvalidToken
        | Some payload => Ok payload
        end
  end.
End WithPlatform.

(** [requireRole(...roles)] on the [user] of the context; [Ok tt]
    stands for reaching [next()]. *)
Definition requireRole (roles : list Role) (user : option JWTPayload)
    : result unit :=
  match user with
  | None => Throw AuthenticationRequired
  | Some u =>
      if negb (existsb (Role_eqb (JWTPayload.role u)) roles)
      then Throw (AccessDenied roles)
      else Ok tt
  end.
End Middleware.
(* ================================================================= *)
(** ** Vocabulary of the specification *)

Module Spec.
Import OrderRepository OrderService.

(** The actor is a party to the order: customer, merchant, assigned
    driver, or admin. *)
Definition party (order : OrderRow) (user : string) (role : Role) : Prop :=
  role = admin
  \/ OrderRow.customer_id order = user
  \/ OrderRow.merchant_id order = user
  \/ OrderRow.driver_id order = Some user.

(** The target statuses a role may set: merchant {accepted, preparing,
    cancelled}; driver {picked_up, delivered}; customer {cancelled};
    admin any. *)
Definition permitted (role : Role) (target : OrderStatus) : Prop :=
  match role with
  | merchant => target = accepted \/ target = preparing \/ target = cancelled
  | driver => target = picked_up \/ target = delivered
  | customer => target = cancelled
  | admin => True
  end.

(** The ordering guard in the words of the specification: the rank
    of created = 0, accepted = 1, preparing = 2, picked_up = 3,
    delivered = 4 must strictly increase for any non-cancel target;
    cancellation is legal from any state except delivered or
    cancelled itself.  ['cancelled'] has no rank, and no status
    follows it. *)
Definition rank (s : OrderStatus) : option Z :=
  match s with
  | created => Some 0
  | accepted => Some 1
  | preparing => Some 2
  | picked_up => Some 3
  | delivered => Some 4
  | cancelled => None
  end%Z.

Definition orderingGuard (current target : OrderStatus) : bool :=
  match target with
  | cancelled =>
      negb (OrderStatus_eqb current delivered)
      && negb (OrderStatus_eqb current cancelled)
  | _ =>
      match rank current, rank target with
      | Some c, Some t => (c <? t)%Z
      | _, _ => false
      end
  end.

(** [input.status] ranges over the enumeration of
    [UpdateOrderStatusSchema]: every status but ['created']. *)
Definition inSchema (target : OrderStatus) : Prop := target <> created.

(** An order in status ['created'] has no driver. *)
Definition createdUnassigned (db : D1Database) : Prop :=
  forall o, In o (orders db) ->
    OrderRow.status o = created -> OrderRow.driver_id o = None.

(** The driver ids of a list of dispatch candidates. *)
Definition driverIds (l : list AvailableDriver) : list string :=
  map AvailableDriver.driver_id l.

(** The row of [driver] in the availability ledger carries no
    position. *)
Definition unpositioned (db : D1Database) (driver : string) : Prop :=
  forall row, In row (driver_status db) ->
    DriverStatusRow.driver_id row = driver ->
    DriverStatusRow.current_lat row = None
    /\ DriverStatusRow.current_lng row = None.

(** Status and driver of an order, as [findById] shows them. *)
Definition assignment (db : D1Database) (orderId : string)
    : option (OrderStatus * option string) :=
  option_map (fun o => (OrderRow.status o, OrderRow.driver_id o))
    (findById db orderId).

(** Database writes other than a location update of [driver]: any
    order status write; any write to another driver's ledger row; a
    write to [driver]'s row that carries no position (availability
    toggle, going offline). *)
Inductive withoutLocationUpdate (driver : string)
    : D1Database -> D1Database -> Prop :=
| wlu_refl db : withoutLocationUpdate driver db db
| wlu_updateStatus db db' now id status driverId :
    withoutLocationUpdate driver db db' ->
    withoutLocationUpdate driver db
      (fst (updateStatus now db' id status driverId))
| wlu_other db db' now other isAvailable lat lng :
    withoutLocationUpdate driver db db' ->
    other <> driver ->
    withoutLocationUpdate driver db
      (upsertDriverStatus now db' other isAvailable lat lng)
| wlu_toggle db db' now isAvailable :
    withoutLocationUpdate driver db db' ->
    withoutLocationUpdate driver db
      (upsertDriverStatus now db' driver isAvailable None None).

Section Reachable.
Variable haversineDistance : number -> number -> number -> number -> number.

(** The databases the services produce from the empty one.
    [dispatchOrder] runs on whatever row its caller holds. *)
Inductive reachable : D1Database -> Prop :=
| reach_empty : reachable (mkDB [] [])
| reach_create now orderId db c m price plat plng dlat dlng notes :
    reachable db ->
    findById db orderId = None ->
    reachable (fst (create now orderId db c m price plat plng dlat dlng notes))
| reach_updateOrderStatus now db orderId target user role :
    reachable db ->
    reachable (fst (updateOrderStatus now db orderId target user role))
| reach_dispatchOrder now db order :
    reachable db ->
    reachable (fst (dispatchOrder haversineDistance now db order))
| reach_triggerDispatch now db orderId :
    reachable db ->
    reachable (fst (triggerDispatch haversineDistance now db orderId))
| reach_upsertDriverStatus now db driverId isAvailable lat lng :
    reachable db ->
    reachable (upsertDriverStatus now db driverId isAvailable lat lng).
End Reachable.

(** Staleness at query time [now]: [updated_at] more than five
    minutes in the past. *)
Definition stale (now : timestamp) (loc : DriverLocation) : Prop :=
  (DriverLocation.updated_at loc < now - 5 * 60 * 1000)%Z.

(** The test of the pruning loop of [handleNearby]. *)
Definition staleb (staleThreshold : Z) (loc : DriverLocation) : bool :=
  (DriverLocation.updated_at loc <? staleThreshold)%Z.

(** The key of [kv] is not deleted by the pruning loop over
    [entries]. *)
Definition kept (staleThreshold : Z) (entries : list (string * DriverLocation))
    (kv : string * DriverLocation) : bool :=
  negb (existsb (fun e => staleb staleThreshold (snd e)
                          && String.eqb (fst kv) (fst e)) entries).

(** The entries within the radius, in the order in which the store
    enumerates them: the array [handleNearby] hands to [sort]. *)
Definition withinRadius
    (haversineDistance : number -> number -> number -> number -> number)
    (lat lng radius_km : number) (locations : LocationStore)
    : list DriverTracker.NearbyEntry :=
  filter (fun e => Qle_bool (DriverTracker.distance_km e) radius_km)
    (map (fun loc =>
            DriverTracker.mkNearby loc
              (haversineDistance lat lng
                 (DriverLocation.lat loc) (DriverLocation.lng loc)))
       (LocationStore.values locations)).

(** Coordinates in range, as [UpdateLocationSchema] requires. *)
Definition validCoordinate (lat lng : number) : Prop :=
  (-(90) <= lat /\ lat <= 90 /\ -(180) <= lng /\ lng <= 180)%Q.

(** A list of nearby entries is ascending by distance. *)
Definition ascendingByDistance (l : list DriverTracker.NearbyEntry) : Prop :=
  StronglySorted
    (fun a b => (DriverTracker.distance_km a <= DriverTracker.distance_km b)%Q) l.

(** Entries at equal distance are ordered by [driver_id] ascending. *)
Definition tiesByDriverId (l : list DriverTracker.NearbyEntry) : Prop :=
  forall i j a b,
    (i < j)%nat ->
    nth_error l i = Some a -> nth_error l j = Some b ->
    (DriverTracker.distance_km a == DriverTracker.distance_km b)%Q ->
    String.leb (DriverLocation.driver_id (DriverTracker.loc a))
               (DriverLocation.driver_id (DriverTracker.loc b)) = true.

(** The entries of [l] at distance [d], in the order of [l]. *)
Definition atDistance (d : number) (l : list DriverTracker.NearbyEntry)
    : list DriverTracker.NearbyEntry :=
  filter (fun e => Qeq_bool (DriverTracker.distance_km e) d) l.

(** The names for which the mapping object can answer without
    holding an entry under them: ['__proto__'], the methods of
    [Object.prototype], and the field names of an entry, which
    answer once an entry has been made the prototype. *)
Definition inheritedNames : list string :=
  "__proto__" :: "driver_id" :: "lat" :: "lng" :: "updated_at"
  :: DriverTracker.objectPrototypeMethods.

(** A driver id that is none of them. *)
Definition ownOnly (d : string) : Prop := ~ In d inheritedNames.

(** No entry, live, inherited or stored, is dated after clock
    reading [t]. *)
Definition timely (t : timestamp) (self : DriverTracker.t) : Prop :=
  (forall kv, In kv (DriverTracker.locations self) ->
     (DriverLocation.updated_at (snd kv) <= t)%Z)
  /\ (forall stored kv, DriverTracker.storage self = Some stored ->
        In kv stored -> (DriverLocation.updated_at (snd kv) <= t)%Z)
  /\ (forall entry, DriverTracker.prototype self = Some entry ->
        (DriverLocation.updated_at entry <= t)%Z).

Section TrackerRuns.
Variable haversineDistance : number -> number -> number -> number -> number.

(** The states of the durable object at clock reading [now]: it is
    created over empty storage, serves requests at readings that do
    not decrease, and may be evicted and constructed again over the
    storage it left. *)
Inductive trackerAt : timestamp -> DriverTracker.t -> Prop :=
| tracker_new now : trackerAt now (DriverTracker.constructor None)
| tracker_fetch t now self request :
    trackerAt t self ->
    (t <= now)%Z ->
    trackerAt now (fst (DriverTracker.fetch haversineDistance now self request))
| tracker_restart t self :
    trackerAt t self ->
    trackerAt t (DriverTracker.constructor (DriverTracker.storage self)).
End TrackerRuns.
End Spec.

(* ================================================================= *)
(** ** Data of the worked examples *)

Module Examples.
Import OrderRepository OrderService.

(** The great-circle distance between two points of one meridian is
    the difference of their latitudes times 6371 * pi / 180 km, about
    111.19 km per degree.  The examples place every point on the
    meridian of longitude 1, where this function orders points as
    [haversineDistance] does and is 0 exactly where it is. *)
Definition meridianDistance (lat1 lng1 lat2 lng2 : number) : number :=
  (111.19 * Qabs (lat2 - lat1))%Q.

Definition emptyDB : D1Database := mkDB [] [].

(** Six minutes, in milliseconds. *)
Definition sixMinutes : timestamp := 360000.

(** One order, pickup at (1.0010, 1.0000), just created. *)
Definition db_created : D1Database :=
  fst (create 0 "order-1" emptyDB "customer-1" "merchant-1" 13
         1.0010 1.0000 2 1 None).

Definition order1 : OrderRow :=
  OrderRow.mk "order-1" "customer-1" "merchant-1" None created 13
    1.0010 1.0000 2 1 None 0 0.

(** The same order once delivered by "driver-1". *)
Definition order1_delivered : OrderRow :=
  OrderRow.mk "order-1" "customer-1" "merchant-1" (Some "driver-1") delivered
    13 1.0010 1.0000 2 1 None 0 40.

Definition db_delivered : D1Database := mkDB [order1_delivered] [].

(** The request that creates "order-1": two items at 5.00 and one at
    3.00. *)
Definition input1 : CreateOrderInput :=
  mkCreateOrderInput "merchant-1" (1.0010, 1.0000) (2, 1)
    [mkItem "item-a" 2 5; mkItem "item-b" 1 3] None.

(** The ledger with two available drivers and no order yet. *)
Definition db_drivers : D1Database :=
  upsertDriverStatus 2
    (upsertDriverStatus 1 emptyDB "driver-1" true (Some 1.0001) (Some 1.0000))
    "driver-2" true (Some 1.0050) (Some 1.0000).

(** The order of [db_created] with two available drivers on its
    meridian: "driver-1" at (1.0001, 1.0000), 0.0009 degrees from the
    pickup point, and "driver-2" at (1.0050, 1.0000), 0.0040 degrees
    from it. *)
Definition db_two_drivers : D1Database :=
  upsertDriverStatus 2
    (upsertDriverStatus 1 db_created "driver-1" true (Some 1.0001) (Some 1.0000))
    "driver-2" true (Some 1.0050) (Some 1.0000).

(** Two manual dispatches of "order-1": both read the order while it
    is still ['created'], then task 0 runs to its write, then task 1,
    then each reads the order again. *)
Definition two_dispatchers : list Concurrent.Task :=
  [Concurrent.TriggerDispatch "order-1"; Concurrent.TriggerDispatch "order-1"].

Definition race_schedule : list (nat * timestamp) :=
  [(0%nat, 10); (1%nat, 11); (0%nat, 12); (0%nat, 13);
   (1%nat, 14); (1%nat, 15); (0%nat, 16); (1%nat, 17)]%Z.

(** The automatic dispatch that [createOrder] started on the row it
    inserted (task 0), and a manual dispatch of the same order by an
    admin (task 1) that completes before the automatic one has read
    the drivers. *)
Definition auto_and_manual : list Concurrent.Task :=
  [Concurrent.DispatchOrder Concurrent.Auto order1;
   Concurrent.TriggerDispatch "order-1"].

Definition late_auto_schedule : list (nat * timestamp) :=
  [(1%nat, 10); (1%nat, 11); (1%nat, 12); (1%nat, 13);
   (0%nat, 14); (0%nat, 15)]%Z.

(** A world with "order-1" created, in which "driver-1" reports
    (1.0000, 1.0000) at time 0 and a nearby query arrives six minutes
    later. *)
Definition env_reported : Env :=
  fst (DriverService.updateLocation meridianDistance 0
         (mkEnv (DriverTracker.constructor None) db_created)
         "driver-1" 1.0000 1.0000).

Definition env_queried : Env :=
  fst (DriverService.getNearbyDrivers meridianDistance sixMinutes
         env_reported 1 1 10).

Definition put (driver : string) (lat lng : number) : DriverTracker.Request :=
  DriverTracker.PUT_location
    (DriverTracker.mkUpdateBody (Some driver) (Some lat) (Some lng)).

(** "driver-b" reports (1, 1) first, "driver-a" the same point one
    second later. *)
Definition tracker_tied : DriverTracker.t :=
  let t1 := fst (DriverTracker.fetch meridianDistance 0
                   (DriverTracker.constructor None) (put "driver-b" 1 1)) in
  fst (DriverTracker.fetch meridianDistance 1000 t1 (put "driver-a" 1 1)).

(** "driver-1" reports (1.0000, 1.0000) at time 0 and nothing after. *)
Definition tracker_one : DriverTracker.t :=
  fst (DriverTracker.fetch meridianDistance 0
         (DriverTracker.constructor None) (put "driver-1" 1.0000 1.0000)).


(** "driver-1" reports (1, 1) when the clock reads 1000. *)
Definition tracker_at_1000 : DriverTracker.t :=
  fst (DriverTracker.fetch meridianDistance 1000
         (DriverTracker.constructor None) (put "driver-1" 1 1)).

(** "order-1" once its customer has cancelled it. *)
Definition db_cancelled : D1Database :=
  fst (updateOrderStatus 1 db_created "order-1" cancelled
         "customer-1" customer).

(** A query at (1, 1) with the default radius. *)
Definition query_1_1 : DriverTracker.NearbyBody :=
  DriverTracker.mkNearbyBody (Some 1) (Some 1) None.
End Examples.


(* ================================================================= *)
(** ** Vocabulary for the location store and the ledger *)

Module StoreSpec.

(** No two entries share a key, and every entry is filed under the
    [driver_id] it carries, which is neither empty nor
    ['__proto__']. *)
Definition wellKeyed (store : LocationStore) : Prop :=
  NoDup (map fst store)
  /\ (forall kv, In kv store ->
        DriverLocation.driver_id (snd kv) = fst kv
        /\ fst kv <> "" /\ fst kv <> "__proto__").

(** The persisted copy mirrors the live one: once loaded, storage
    holds the live mapping (or nothing was ever written and the
    mapping is empty); before loading the mapping is empty. *)
Definition synced (self : DriverTracker.t) : Prop :=
  if DriverTracker.loaded self then
    DriverTracker.storage self = Some (DriverTracker.locations self)
    \/ (DriverTracker.storage self = None
        /\ DriverTracker.locations self = [])
  else DriverTracker.locations self = [].

(** Both copies of the mapping are well keyed, and an entry that has
    become the prototype of the mapping was upserted under
    ['__proto__']. *)
Definition trackerKeyed (self : DriverTracker.t) : Prop :=
  wellKeyed (DriverTracker.locations self)
  /\ (forall stored, DriverTracker.storage self = Some stored ->
        wellKeyed stored)
  /\ (forall entry, DriverTracker.prototype self = Some entry ->
        DriverLocation.driver_id entry = "__proto__").

(** The entry [DriverTracker.handleNearby] computes for a location. *)
Definition entryOf
    (haversineDistance : number -> number -> number -> number -> number)
    (lat lng : number) (loc : DriverLocation) : DriverTracker.NearbyEntry :=
  DriverTracker.mkNearby loc
    (haversineDistance lat lng
       (DriverLocation.lat loc) (DriverLocation.lng loc)).

(** The URL path of the worked examples: an id of letters, digits
    and hyphens is its own path segment. *)
Definition plainSegment (driverId : string) : option string :=
  Some driverId.

End StoreSpec.

(* ================================================================= *)
(** ** Vocabulary and data for the order queries *)

Module OrderSpec.
Import OrderRepository OrderService.




(** The distance [dispatchOrder] computes for a candidate. *)
Definition pickupDistance
    (haversineDistance : number -> number -> number -> number -> number)
    (order : OrderRow) (a : AvailableDriver) : number :=
  haversineDistance (OrderRow.pickup_lat order) (OrderRow.pickup_lng order)
    (AvailableDriver.current_lat a) (AvailableDriver.current_lng a).

(** [haversineDistance] as JavaScript evaluates it: the result is a
    finite double or [NaN], here [None].  Rounding can take the
    [a] of the formula above 1, and [Math.sqrt(1 - a)] is then [NaN];
    it happens for points that are antipodal or nearly so. *)
Definition Haversine : Type :=
  number -> number -> number -> number -> option number.

(** The rational-valued distance the embedding of [dispatchOrder] is
    run with.  [rankDrivers] embeds the sort for comparators that
    return numbers; a comparator that returns [NaN] is outside it,
    and the value given here to an undefined distance stands for
    nothing in the source. *)
Definition valueOf (distanceJs : Haversine)
    : number -> number -> number -> number -> number :=
  fun lat1 lng1 lat2 lng2 =>
    match distanceJs lat1 lng1 lat2 lng2 with
    | Some q => q
    | None => 0
    end.

Definition pickupDistanceJs (distanceJs : Haversine)
    (order : OrderRow) (a : AvailableDriver) : option number :=
  distanceJs (OrderRow.pickup_lat order) (OrderRow.pickup_lng order)
    (AvailableDriver.current_lat a) (AvailableDriver.current_lng a).

(** The distance of every candidate is a number. *)
Definition measurable (distanceJs : Haversine) (order : OrderRow)
    (candidates : list AvailableDriver) : Prop :=
  forall a, In a candidates -> pickupDistanceJs distanceJs order a <> None.

(** Order ids are distinct (the primary key of [orders]). *)
Definition uniqueOrderIds (db : D1Database) : Prop :=
  NoDup (map OrderRow.id (orders db)).

(** Driver ids are distinct in the ledger (the primary key of
    [driver_status]). *)
Definition uniqueDriverRows (db : D1Database) : Prop :=
  NoDup (map DriverStatusRow.driver_id (driver_status db)).

(** The ledger row of a driver, if any. *)
Definition ledgerRow (db : D1Database) (driver : string)
    : option DriverStatusRow :=
  find (fun ds => String.eqb (DriverStatusRow.driver_id ds) driver)
    (driver_status db).
End OrderSpec.

Module Examples2.
Import OrderRepository OrderService.

Definition orderAt (id customer : string) (driver : option string)
    (st : OrderStatus) (at_ : timestamp) : OrderRow :=
  OrderRow.mk id customer "merchant-1" driver st 10 1 1 2 2 None at_ at_.

(** Three orders of "customer-1", placed at times 10, 30 and 20, and
    one of "customer-2"; "driver-1" delivered two of them. *)
Definition db_history : D1Database :=
  mkDB [orderAt "o-1" "customer-1" (Some "driver-1") delivered 10;
        orderAt "o-2" "customer-2" (Some "driver-1") delivered 15;
        orderAt "o-3" "customer-1" None created 30;
        orderAt "o-4" "customer-1" None cancelled 20]
       [].

(** [Examples.meridianDistance], which is defined everywhere. *)
Definition meridianDistanceJs : OrderSpec.Haversine :=
  fun lat1 lng1 lat2 lng2 =>
    Some (Examples.meridianDistance lat1 lng1 lat2 lng2).

Definition items_history : list OrderItemRow :=
  [OrderItemRow.mk "i-1" "o-1" "item-a" 2 5;
   OrderItemRow.mk "i-2" "o-3" "item-b" 1 3;
   OrderItemRow.mk "i-3" "o-1" "item-c" 1 1].
End Examples2.

(* ================================================================= *)
(** ** Vocabulary for the utility functions *)

Module UtilsSpec.
Import Strings.Ascii Utils.

(** The two characters [bufferToHex] writes for a byte. *)
Definition hexOf (b : Byte.byte) : string :=
  padStart 2 "0"%char (byteToString16 b).

(** No character of [s] is [sep]. *)
Definition without (sep : ascii) (s : string) : Prop :=
  forall c, In c (list_ascii_of_string s) -> c <> sep.

(** A lowercase hexadecimal digit. *)
Definition isHexDigit (c : ascii) : bool :=
  let n := N_of_ascii c in
  ((48 <=? n) && (n <=? 57) || (97 <=? n) && (n <=? 102))%N.

(** A stand-in for the key derivation in the worked examples: the
    salt followed by the code units of the password. *)
Definition toyDerive (password : string) (salt : list Byte.byte)
    (iterations : option Z) : result (list Byte.byte) :=
  match iterations with
  | Some _ =>
      Ok (salt ++ map Ascii.byte_of_ascii (list_ascii_of_string password))
  | None => Throw TypeError
  end.
End UtilsSpec.

(* ================================================================= *)
(** ** Vocabulary for base64url and tokens *)

Module Base64Spec.
Import Strings.Ascii Base64.

(** The code unit [String.fromCharCode(b)] has. *)
Definition code (b : Byte.byte) : N := N_of_ascii (ascii_of_byte b).

(** The six-bit groups of a byte array, without padding. *)
Fixpoint sextetsOf (bytes : list Byte.byte) : list N :=
  match bytes with
  | [] => []
  | [a] => [code a / 4; (code a mod 4) * 16]
  | [a; b] =>
      [code a / 4; (code a mod 4) * 16 + code b / 16; (code b mod 16) * 4]
  | a :: b :: c :: rest =>
      code a / 4
      :: (code a mod 4) * 16 + code b / 16
      :: (code b mod 16) * 4 + code c / 64
      :: code c mod 64
      :: sextetsOf rest
  end%N.

(** What the three replacements of [base64UrlEncode] make of one
    character of [btoa]'s output, and what the two of
    [base64UrlDecode] make of one character. *)
Definition toUrl (c : ascii) : ascii :=
  let c1 := if Ascii.eqb c "+"%char then "-"%char else c in
  if Ascii.eqb c1 "/"%char then "_"%char else c1.

Definition fromUrl (c : ascii) : ascii :=
  let c1 := if Ascii.eqb c "-"%char then "+"%char else c in
  if Ascii.eqb c1 "_"%char then "/"%char else c1.

(** A character of the URL-safe alphabet: a letter, a digit, ['-']
    or ['_']. *)
Definition urlSafe (c : ascii) : bool :=
  let n := N_of_ascii c in
  ((65 <=? n) && (n <=? 90) || (97 <=? n) && (n <=? 122)
   || (48 <=? n) && (n <=? 57) || (n =? 45) || (n =? 95))%N.

(** The checks on one six-bit group that the round trip needs. *)
Definition sextetOk (n : N) : bool :=
  let c := toUrl (encodeChar n) in
  urlSafe c
  && negb (Ascii.eqb (encodeChar n) "="%char)
  && negb (Ascii.eqb c "="%char)
  && negb (Ascii.eqb (fromUrl c) "="%char)
  && negb (isAsciiWhitespace (fromUrl c))
  && match decodeChar (fromUrl c) with
     | Some m => (m =? n)%N
     | None => false
     end.

Definition allSextets : list N := map N.of_nat (seq 0 64).

(** The bytes [base64UrlEncode] works on. *)
Definition bytesOf (input : Input) : list Byte.byte :=
  match input with
  | Text s => encodeUtf8 s
  | Bytes b => b
  end.
End Base64Spec.

Module JwtSpec.
(** A stand-in platform for the worked example: the JSON text is the
    subject, parsing gives back one fixed payload, and the signature
    of a message is the code units of the secret. *)
Definition toyStringify (p : JWTPayload) : string := JWTPayload.sub p.

Definition toyPayload : JWTPayload :=
  JWTPayload.mk "u1" "a@b.c" customer 1700000000 1700086400.

Definition toyParse (bytes : list Byte.byte) : option JWTPayload :=
  match bytes with
  | [] => None
  | _ => Some toyPayload
  end.

Definition toySign (secret message : string) : result (list Byte.byte) :=
  Ok (map Ascii.byte_of_ascii (list_ascii_of_string secret)).

Definition toyVerify (secret : string) (signature : list Byte.byte)
    (message : string) : bool :=
  if list_eq_dec Byte.byte_eq_dec signature
       (map Ascii.byte_of_ascii (list_ascii_of_string secret))
  then true else false.
End JwtSpec.

(* ================================================================= *)
(** ** Vocabulary for the rate limiter *)

Module RateLimitSpec.
Import RateLimit.

(** Requests handled one after another: the log of the accepted
    ones (key and time, oldest first) and the namespace.  A request
    is accepted when the middleware reaches [next()]. *)
Definition step (opts : RateLimitOptions)
    (state : list (string * timestamp) * KVNamespace)
    (r : timestamp * Req) : list (string * timestamp) * KVNamespace :=
  match rateLimiter opts (fst r) (snd r) (snd state) with
  | (Ok _, kv) => (fst state ++ [(keyOf opts (snd r), fst r)], kv)
  | (Throw _, kv) => (fst state, kv)
  end.

Definition serve (opts : RateLimitOptions)
    (reqs : list (timestamp * Req))
    : list (string * timestamp) * KVNamespace :=
  fold_left (step opts) reqs ([], []).

(** The times at which requests of a key were accepted. *)
Definition acceptedAt (key : string) (log : list (string * timestamp))
    : list timestamp :=
  map snd (filter (fun e => String.eqb (fst e) key) log).

(** The clock does not go back from one request to the next. *)
Fixpoint chronological (start : timestamp)
    (reqs : list (timestamp * Req)) : bool :=
  match reqs with
  | [] => true
  | r :: rest => (start <=? fst r)%Z && chronological (fst r) rest
  end.

Definition lastTime (start : timestamp) (reqs : list (timestamp * Req))
    : timestamp :=
  last (map fst reqs) start.

(** [x] lies in the window of [opts] that ends at [t]. *)
Definition inWindow (opts : RateLimitOptions) (t x : timestamp) : bool :=
  ((t - windowSeconds opts * 1000 <? x) && (x <=? t))%Z.

(** What [rateLimiter] reads for a key at [now], after its filter. *)
Definition recent (opts : RateLimitOptions) (now : timestamp)
    (l : list timestamp) : list timestamp :=
  filter (fun ts => (now - windowSeconds opts * 1000 <? ts)%Z) l.

Definition storedFor (now : timestamp) (kv : KVNamespace) (key : string)
    : list timestamp :=
  match held now kv key with
  | Some ts => ts
  | None => []
  end.

(** The invariant of a sequential run. *)
Definition Inv (opts : RateLimitOptions) (log : list (string * timestamp))
    (kv : KVNamespace) (last : timestamp) : Prop :=
  (forall key x, In x (acceptedAt key log) -> (x <= last)%Z)
  /\ (forall key now, (last <= now)%Z ->
        recent opts now (storedFor now kv key)
        = recent opts now (acceptedAt key log))
  /\ (forall key t,
        (Z.of_nat
           (List.length (filter (inWindow opts t) (acceptedAt key log)))
         <= Z.max 0 (limit opts))%Z).

Definition client (ip : string) : Req := mkReq (Some ip) None "/login".
End RateLimitSpec.

Module RateLimitExamples.
Import RateLimit RateLimitSpec.

(** Two requests a minute for the limiter of the worked examples. *)
Definition twoPerMinute : RateLimitOptions := mkOptions 2 60 (Some "auth").

Definition burst : list (timestamp * Req) :=
  [(0, client "10.0.0.1"); (1000, client "10.0.0.2");
   (1000, client "10.0.0.1"); (2000, client "10.0.0.1")]%Z.
End RateLimitExamples.

(* ================================================================= *)
(** ** Vocabulary for users and authentication *)

Module UserSpec.
Import UserRepository.

(** No two users share an id, and no two an email. *)
Definition uniqueUsers (db : UserTables) : Prop :=
  NoDup (map UserRow.id (users db)) /\ NoDup (map UserRow.email (users db)).

(** The row [register] writes. *)
Definition registered (id : string) (now : timestamp) (hash : string)
    (input : AuthService.RegisterInput) : UserRow :=
  UserRow.mk id (AuthService.reg_email input) hash
    (AuthService.reg_role input) (AuthService.reg_name input)
    (AuthService.reg_phone input) now.

(** A route behind [authMiddleware] and [requireRole(...roles)]: the
    payload the handler sees, or the exception. *)
Definition guarded
    (jsonParse : list Byte.byte -> option JWTPayload)
    (hmacVerify : string -> list Byte.byte -> string -> bool)
    (roles : list Role) (now : timestamp) (secret : string)
    (authHeader : option string) : result JWTPayload :=
  match Middleware.authMiddleware jsonParse hmacVerify now secret
          authHeader with
  | Throw e => Throw e
  | Ok payload =>
      match Middleware.requireRole roles (Some payload) with
      | Throw e => Throw e
      | Ok _ => Ok payload
      end
  end.

(** What [update] makes of the row it finds: the name and the phone
    that are given replace the old ones. *)
Definition profile (input : UpdateInput) (u : UserRow) : UserRow :=
  UserRow.mk (UserRow.id u) (UserRow.email u) (UserRow.password_hash u)
    (UserRow.role u)
    (match new_name input with Some v => v | None => UserRow.name u end)
    (match new_phone input with Some v => v | None => UserRow.phone u end)
    (UserRow.created_at u).

(** What identifies a user and lets them in. *)
Definition credentials (u : UserRow)
    : string * string * string * Role * timestamp :=
  (UserRow.id u, UserRow.email u, UserRow.password_hash u, UserRow.role u,
   UserRow.created_at u).

(** An address of the table with this id that belongs to the user. *)
Definition owns (db : UserTables) (userId id : string) : Prop :=
  exists a, In a (addresses db)
            /\ AddressRow.id a = id /\ AddressRow.user_id a = userId.
End UserSpec.

Module UserExamples.
Import UserRepository AuthService.

Definition noUsers : UserTables := mkTables [] [].

Definition alice : RegisterInput :=
  mkRegisterInput "alice@example.com" "correct horse" "Alice" None customer.

Definition firstCall : Call :=
  mkCall "k" [Byte.x01; Byte.xfe] "u1" 1700000000000 1700000000999.

Definition laterCall : Call :=
  mkCall "k" [Byte.x02] "u2" 1700000050000 1700000050999.

Definition aliceRow : UserRow :=
  UserRow.mk "u1" "alice@example.com" "h" customer "Alice" None
    1700000000000.

Definition bobRow : UserRow :=
  UserRow.mk "u2" "bob@example.com" "h" driver "Bob" None 1700000000001.

Definition home (id userId : string) (at_ : timestamp) : AddressRow :=
  AddressRow.mk id userId "home" "1 Main St" "Town" "NG" 0 0 at_.

Definition twoUsers : UserTables :=
  mkTables [aliceRow; bobRow] [home "a1" "u1" 10; home "a2" "u2" 20].

Definition homeInput : AddressInput :=
  mkAddressInput "work" "2 Side St" "Town" "NG" 1 1.
End UserExamples.
(* ================================================================= *)
(** * Properties *)

(* ================================================================= *)
(** ** Order lifecycle *)

Module LifecycleFacts.
Import OrderRepository OrderService.

Lemma OrderStatus_eqb_eq (a b : OrderStatus) :
  OrderStatus_eqb a b = true <-> a = b.
Proof. destruct a, b; simpl; split; intro H; congruence. Qed.

Lemma OrderStatus_eqb_neq (a b : OrderStatus) :
  OrderStatus_eqb a b = false <-> a <> b.
Proof. destruct a, b; simpl; split; intro H; congruence. Qed.

Lemma includes_In (l : list OrderStatus) (s : OrderStatus) :
  includes l s = true <-> In s l.
Proof.
  unfold includes. rewrite existsb_exists. split.
  - intros [x [Hin Heq]]. apply OrderStatus_eqb_eq in Heq. now subst.
  - intro Hin. exists s. split; [assumption | now apply OrderStatus_eqb_eq].
Qed.

(** The ordering guard on a target other than ['cancelled'] is the
    comparison of the ranks of the table [order]. *)
Lemma isValidTransition_rank (current next : OrderStatus) :
  next <> cancelled ->
  (isValidTransition current next = true
   <-> (order_rank current < order_rank next)%Z).
Proof.
  intro Hn. unfold isValidTransition.
  destruct (OrderStatus_eqb next cancelled) eqn:E.
  - apply OrderStatus_eqb_eq in E. contradiction.
  - rewrite Z.gtb_ltb. apply Z.ltb_lt.
Qed.

(** Cancellation passes the guard from every status but ['delivered']
    and ['cancelled']. *)
Lemma isValidTransition_cancel (current : OrderStatus) :
  isValidTransition current cancelled = true
  <-> current <> delivered /\ current <> cancelled.
Proof.
  destruct current; simpl; split; intro H;
    try reflexivity; try discriminate;
    try (split; discriminate); destruct H; congruence.
Qed.

(** Nothing passes the guard from ['delivered']. *)
Lemma isValidTransition_delivered (next : OrderStatus) :
  isValidTransition delivered next = false.
Proof. destruct next; reflexivity. Qed.

(** No target passes the guard towards ['created'] except from
    ['cancelled'], and no role may ask for it. *)
Lemma created_never_allowed (role : Role) :
  includes (ALLOWED_TRANSITIONS role) created = false.
Proof. destruct role; reflexivity. Qed.

Lemma findById_In (db : D1Database) (id : string) (o : OrderRow) :
  findById db id = Some o -> In o (orders db) /\ OrderRow.id o = id.
Proof.
  unfold findById. intro H. apply find_some in H.
  destruct H as [Hin Heq]. apply String.eqb_eq in Heq. now split.
Qed.
End LifecycleFacts.

Import OrderRepository OrderService Spec LifecycleFacts.

(** Claim C5.  The ordering guard lets an order leave ['cancelled']:
    [isValidTransition('cancelled', 'accepted')] is [true], because the
    table [order] ranks ['cancelled'] at -1, below every other status.
    Through [updateOrderStatus] an order that its customer has
    cancelled is set to ['accepted'] by its merchant, so a status does
    follow ['cancelled'] and the sequence of ranks is not a strictly
    increasing one with a single final jump to ['cancelled']. *)
Theorem cancelled_order_is_accepted :
  isValidTransition cancelled accepted = true
  /\ (order_rank cancelled < order_rank created)%Z
  /\ (forall next, next <> cancelled -> isValidTransition cancelled next = true)
  /\ let (db1, r1) :=
       updateOrderStatus 1 Examples.db_created "order-1" cancelled
         "customer-1" customer in
     let (db2, r2) :=
       updateOrderStatus 2 db1 "order-1" accepted "merchant-1" merchant in
     option_map OrderRow.status (findById Examples.db_created "order-1")
       = Some created
     /\ option_map OrderRow.status (findById db1 "order-1") = Some cancelled
     /\ option_map OrderRow.status (findById db2 "order-1") = Some accepted
     /\ (exists row, r2 = Ok (Some row) /\ OrderRow.status row = accepted).
Proof.
  split; [reflexivity|]. split; [reflexivity|].
  split; [intros next Hn; destruct next; try reflexivity; congruence|].
  vm_compute. repeat split. eexists. split; reflexivity.
Qed.

Module TransitionFacts.

Lemma isParty_party (order : OrderRow) (user : string) (role : Role) :
  isParty order user role = true <-> party order user role.
Proof.
  unfold isParty, party, option_string_eqb.
  rewrite !orb_true_iff, !String.eqb_eq.
  split.
  - intros [[[H|H]|H]|H]; auto.
    + destruct role; try discriminate; auto.
    + destruct (OrderRow.driver_id order) as [d|]; [|discriminate].
      apply String.eqb_eq in H. subst. auto.
  - intros [H|[H|[H|H]]]; auto.
    + subst. auto.
    + rewrite H. right. apply String.eqb_refl.
Qed.

Lemma isParty_not_party (order : OrderRow) (user : string) (role : Role) :
  isParty order user role = false <-> ~ party order user role.
Proof.
  rewrite <- isParty_party. destruct (isParty order user role); split;
    intro H; try reflexivity; try discriminate; try congruence.
Qed.

(** On the statuses of the request schema the table
    [ALLOWED_TRANSITIONS] is the permission relation of the
    specification. *)
Lemma allowed_permitted (role : Role) (target : OrderStatus) :
  inSchema target ->
  (includes (ALLOWED_TRANSITIONS role) target = true <-> permitted role target).
Proof.
  unfold inSchema, permitted. intro Hs.
  destruct role, target; simpl; split; intro H;
    try reflexivity; try discriminate; try exact I; try congruence; auto;
    repeat (destruct H as [H|H]; try discriminate); try discriminate.
Qed.

Lemma allowed_not_permitted (role : Role) (target : OrderStatus) :
  inSchema target ->
  (includes (ALLOWED_TRANSITIONS role) target = false <-> ~ permitted role target).
Proof.
  intro Hs. rewrite <- (allowed_permitted role Hs).
  destruct (includes (ALLOWED_TRANSITIONS role) target); split;
    intro H; try reflexivity; try discriminate; try congruence.
Qed.

(** A call that throws has written nothing. *)
Lemma updateOrderStatus_throw_unchanged now db orderId target user role db' e :
  updateOrderStatus now db orderId target user role = (db', Throw e) ->
  db' = db.
Proof.
  unfold updateOrderStatus.
  destruct (findById db orderId) as [order|]; [|congruence].
  destruct (negb (isParty order user role)); [congruence|].
  destruct (negb (includes (ALLOWED_TRANSITIONS role) target)); [congruence|].
  destruct (negb (isValidTransition (OrderRow.status order) target));
    [congruence|].
  unfold updateStatus. intro H. discriminate H.
Qed.

End TransitionFacts.
Import TransitionFacts.

(** On every current status but ['cancelled'] the guard of the code
    is the ordering guard of the specification. *)
Lemma isValidTransition_orderingGuard (current target : OrderStatus) :
  current <> cancelled ->
  isValidTransition current target = orderingGuard current target.
Proof. destruct current, target; intro H; try reflexivity; congruence. Qed.

(** Claim C6.  A transition that the ordering guard of the
    specification rejects is not refused: "order-1" is cancelled, its
    merchant is a party and may set ['accepted'], and no status
    follows ['cancelled']; [updateOrderStatus] does not throw
    InvalidTransition but writes and returns the order, now
    ['accepted']. *)
Lemma cancelled_order_is_not_refused :
  exists order,
    findById Examples.db_cancelled "order-1" = Some order
    /\ OrderRow.status order = cancelled
    /\ party order "merchant-1" merchant
    /\ permitted merchant accepted
    /\ orderingGuard (OrderRow.status order) accepted = false
    /\ (exists db' row,
          updateOrderStatus 2 Examples.db_cancelled "order-1" accepted
            "merchant-1" merchant = (db', Ok (Some row))
          /\ OrderRow.status row = accepted
          /\ option_map OrderRow.status (findById db' "order-1")
             = Some accepted)
    /\ updateOrderStatus 2 Examples.db_cancelled "order-1" accepted
         "merchant-1" merchant
       <> (Examples.db_cancelled,
           Throw (InvalidTransition (OrderRow.status order) accepted)).
Proof.
  eexists. split; [vm_compute; reflexivity|].
  split; [reflexivity|].
  split; [right; right; left; reflexivity|].
  split; [left; reflexivity|].
  split; [reflexivity|]. split.
  - eexists. eexists. split; [vm_compute; reflexivity|]. split; reflexivity.
  - vm_compute. discriminate.
Qed.

(** What holds of claim C6.  [updateOrderStatus] on a status of the
    request schema throws NotFound when the order does not exist; otherwise
    AccessDenied when the actor is not a party to the order, whatever
    the role permits; otherwise Forbidden when the role does not permit
    the target; otherwise, for an order that is not ['cancelled'],
    InvalidTransition when the ordering guard of the specification
    fails, and it succeeds when that guard passes.  Whenever it throws
    the database is the one it was given. *)
Theorem updateOrderStatus_failures
    (now : timestamp) (db : D1Database) (orderId : string)
    (target : OrderStatus) (user : string) (role : Role) :
  inSchema target ->
  (findById db orderId = None ->
   updateOrderStatus now db orderId target user role = (db, Throw NotFound))
  /\ (forall order, findById db orderId = Some order ->
        (~ party order user role ->
         updateOrderStatus now db orderId target user role
           = (db, Throw AccessDenied))
        /\ (party order user role -> ~ permitted role target ->
            updateOrderStatus now db orderId target user role
              = (db, Throw (Forbidden role target)))
        /\ (party order user role -> permitted role target ->
            OrderRow.status order <> cancelled ->
            orderingGuard (OrderRow.status order) target = false ->
            updateOrderStatus now db orderId target user role
              = (db, Throw (InvalidTransition (OrderRow.status order) target)))
        /\ (party order user role -> permitted role target ->
            OrderRow.status order <> cancelled ->
            orderingGuard (OrderRow.status order) target = true ->
            exists db' updated,
              updateOrderStatus now db orderId target user role
              = (db', Ok updated)))
  /\ (forall db' e,
        updateOrderStatus now db orderId target user role = (db', Throw e) ->
        db' = db).
Proof.
  intro Hs. split; [|split].
  - intro Hnone. unfold updateOrderStatus. now rewrite Hnone.
  - intros order Hfind. unfold updateOrderStatus. rewrite Hfind.
    split; [|split; [|split]].
    + intro Hnp. apply isParty_not_party in Hnp. now rewrite Hnp.
    + intros Hp Hperm. apply isParty_party in Hp.
      apply (allowed_not_permitted role Hs) in Hperm.
      now rewrite Hp, Hperm.
    + intros Hp Hperm Hlive Hguard. apply isParty_party in Hp.
      apply (allowed_permitted role Hs) in Hperm.
      rewrite <- (isValidTransition_orderingGuard target Hlive) in Hguard.
      now rewrite Hp, Hperm, Hguard.
    + intros Hp Hperm Hlive Hguard. apply isParty_party in Hp.
      apply (allowed_permitted role Hs) in Hperm.
      rewrite <- (isValidTransition_orderingGuard target Hlive) in Hguard.
      rewrite Hp, Hperm, Hguard. cbn [negb].
      destruct (updateStatus now db orderId target None) as [db' updated].
      now exists db', updated.
  - intros db' e. apply updateOrderStatus_throw_unchanged.
Qed.

(** The four failures of C6 on the order of the examples: an unknown
    order; a stranger asking as a merchant for a status merchants may
    set; the order's merchant asking for ['delivered']; an admin asking
    for ['accepted'] on an order already ['delivered']. *)
Lemma updateOrderStatus_failures_witness :
  updateOrderStatus 5 Examples.db_created "order-9" accepted "merchant-1" merchant
    = (Examples.db_created, Throw NotFound)
  /\ updateOrderStatus 5 Examples.db_created "order-1" accepted "merchant-7" merchant
    = (Examples.db_created, Throw AccessDenied)
  /\ updateOrderStatus 5 Examples.db_created "order-1" delivered "merchant-1" merchant
    = (Examples.db_created, Throw (Forbidden merchant delivered))
  /\ updateOrderStatus 50 Examples.db_delivered "order-1" accepted "admin-1" admin
    = (Examples.db_delivered, Throw (InvalidTransition delivered accepted)).
Proof.
  assert (Hacc : inSchema accepted) by (intro H; discriminate H).
  assert (Hdel : inSchema delivered) by (intro H; discriminate H).
  split; [|split; [|split]].
  - apply (updateOrderStatus_failures 5 Examples.db_created "order-9"
             "merchant-1" merchant Hacc).
    reflexivity.
  - refine (proj1 (proj1 (proj2 (updateOrderStatus_failures 5
             Examples.db_created "order-1" "merchant-7" merchant Hacc))
             Examples.order1 eq_refl) _).
    intros [H|[H|[H|H]]]; discriminate H.
  - refine (proj1 (proj2 (proj1 (proj2 (updateOrderStatus_failures 5
             Examples.db_created "order-1" "merchant-1" merchant Hdel))
             Examples.order1 eq_refl)) _ _).
    + right. right. left. reflexivity.
    + intros [H|[H|H]]; discriminate H.
  - refine (proj1 (proj2 (proj2 (proj1 (proj2 (updateOrderStatus_failures 50
             Examples.db_delivered "order-1" "admin-1" admin Hacc))
             Examples.order1_delivered eq_refl))) _ _ _ _).
    + left. reflexivity.
    + exact I.
    + discriminate.
    + reflexivity.
Defined.

(* ================================================================= *)
(** ** Sorting by a numeric key *)

Section SortByKey.
Context {A : Type}.
Variable key : A -> number.

Let compareFn (a b : A) : number := key a - key b.
Let ascending (a b : A) : Prop := key a <= key b.

Lemma compare_nonpositive (x y : A) :
  Qle_bool (compareFn x y) 0 = true <-> key x <= key y.
Proof.
  unfold compareFn. rewrite Qle_bool_iff. split; intro H.
  - apply Qle_minus_iff. setoid_replace (key y + - key x) with (- (key x - key y)) by ring.
    apply (Qopp_le_compat _ 0) in H. exact H.
  - apply Qle_minus_iff in H.
    setoid_replace (key x - key y) with (- (key y + - key x)) by ring.
    apply (Qopp_le_compat 0 _) in H. exact H.
Qed.

Lemma compare_positive (x y : A) :
  Qle_bool (compareFn x y) 0 = false -> key y <= key x /\ ~ key x == key y.
Proof.
  intro H.
  assert (Hn : ~ key x <= key y).
  { intro Hle. apply compare_nonpositive in Hle. congruence. }
  split.
  - apply Qnot_lt_le. intro Hlt. apply Hn. now apply Qlt_le_weak.
  - intro Heq. apply Hn. rewrite Heq. apply Qle_refl.
Qed.

Lemma sort_insert_In (x z : A) (l : list A) :
  In z (sort_insert compareFn x l) <-> z = x \/ In z l.
Proof.
  induction l as [|y ys IH]; simpl.
  - intuition.
  - destruct (Qle_bool (compareFn x y) 0); simpl.
    + intuition.
    + rewrite IH. intuition.
Qed.

Lemma Array_sort_In (z : A) (l : list A) :
  In z (Array_sort compareFn l) <-> In z l.
Proof.
  induction l as [|x xs IH]; simpl.
  - tauto.
  - rewrite sort_insert_In, IH. intuition.
Qed.

Lemma sort_insert_length (x : A) (l : list A) :
  List.length (sort_insert compareFn x l) = S (List.length l).
Proof.
  induction l as [|y ys IH]; simpl; [reflexivity|].
  destruct (Qle_bool (compareFn x y) 0); simpl; congruence.
Qed.

Lemma Array_sort_length (l : list A) :
  List.length (Array_sort compareFn l) = List.length l.
Proof.
  induction l as [|x xs IH]; simpl; [reflexivity|].
  now rewrite sort_insert_length, IH.
Qed.

Lemma sort_insert_sorted (x : A) (l : list A) :
  StronglySorted ascending l ->
  StronglySorted ascending (sort_insert compareFn x l).
Proof.
  induction 1 as [|y ys Hs IH Hall]; simpl.
  - constructor; constructor.
  - destruct (Qle_bool (compareFn x y) 0) eqn:E.
    + apply compare_nonpositive in E.
      constructor; [constructor; assumption|].
      constructor; [exact E|].
      rewrite Forall_forall in *. intros z Hz.
      unfold ascending. eapply Qle_trans; [exact E|]. now apply Hall.
    + apply compare_positive in E. destruct E as [E _].
      constructor; [exact IH|].
      rewrite Forall_forall in *. intros z Hz.
      apply sort_insert_In in Hz. destruct Hz as [->|Hz]; [exact E|].
      now apply Hall.
Qed.

(** The result of the sort is ascending in the key. *)
Lemma Array_sort_sorted (l : list A) :
  StronglySorted ascending (Array_sort compareFn l).
Proof.
  induction l as [|x xs IH]; simpl.
  - constructor.
  - now apply sort_insert_sorted.
Qed.

(** The sort is stable: the elements of one key value come out in the
    order they went in. *)
Lemma sort_insert_stable (d : number) (x : A) (l : list A) :
  filter (fun e => Qeq_bool (key e) d) (sort_insert compareFn x l)
  = filter (fun e => Qeq_bool (key e) d) (x :: l).
Proof.
  induction l as [|y ys IH]; [reflexivity|].
  simpl sort_insert. destruct (Qle_bool (compareFn x y) 0) eqn:E;
    [reflexivity|].
  apply compare_positive in E. destruct E as [_ Hne].
  cbn [filter] in *. rewrite IH.
  destruct (Qeq_bool (key x) d) eqn:Ex, (Qeq_bool (key y) d) eqn:Ey;
    try reflexivity.
  exfalso. apply Hne.
  apply Qeq_bool_iff in Ex. apply Qeq_bool_iff in Ey.
  rewrite Ex, Ey. reflexivity.
Qed.

Lemma Array_sort_stable (d : number) (l : list A) :
  filter (fun e => Qeq_bool (key e) d) (Array_sort compareFn l)
  = filter (fun e => Qeq_bool (key e) d) l.
Proof.
  induction l as [|x xs IH]; [reflexivity|].
  simpl Array_sort. rewrite sort_insert_stable. simpl. now rewrite IH.
Qed.
End SortByKey.

(* ================================================================= *)
(** ** The location store *)

Module StoreFacts.
Import LocationStore.

Lemma get_In (store : LocationStore) (key : string) (v : DriverLocation) :
  get store key = Some v -> In (key, v) store.
Proof.
  induction store as [|[k w] rest IH]; simpl; [discriminate|].
  destruct (String.eqb k key) eqn:E.
  - intro H. injection H as ->. apply String.eqb_eq in E. subst. now left.
  - intro H. right. now apply IH.
Qed.

Lemma get_None (store : LocationStore) (key : string) :
  (forall v, ~ In (key, v) store) -> get store key = None.
Proof.
  induction store as [|[k w] rest IH]; simpl; [reflexivity|].
  intro H. destruct (String.eqb k key) eqn:E.
  - apply String.eqb_eq in E. subst. exfalso. apply (H w). now left.
  - apply IH. intros v Hin. apply (H v). now right.
Qed.

Lemma get_replace_same (store : LocationStore) (key : string)
    (v w : DriverLocation) :
  get store key = Some w -> get (replace store key v) key = Some v.
Proof.
  induction store as [|[k u] rest IH]; simpl; [discriminate|].
  destruct (String.eqb k key) eqn:E; simpl; rewrite E; [reflexivity|exact IH].
Qed.

Lemma get_replace_other (store : LocationStore) (key other : string)
    (v : DriverLocation) :
  other <> key -> get (replace store key v) other = get store other.
Proof.
  intro Hne. induction store as [|[k u] rest IH]; simpl; [reflexivity|].
  destruct (String.eqb k key) eqn:E; simpl.
  - apply String.eqb_eq in E. subst k.
    destruct (String.eqb key other) eqn:E2; [|reflexivity].
    apply String.eqb_eq in E2. congruence.
  - destruct (String.eqb k other); [reflexivity|exact IH].
Qed.

Lemma In_replace (store : LocationStore) (key : string) (v : DriverLocation)
    (kv : string * DriverLocation) :
  In kv (replace store key v) -> kv = (key, v) \/ In kv store.
Proof.
  induction store as [|[k u] rest IH]; simpl; [intros []|].
  destruct (String.eqb k key) eqn:E; simpl.
  - apply String.eqb_eq in E. subst. intros [H|H]; auto.
  - intros [H|H]; auto. destruct (IH H); auto.
Qed.

Lemma keys_replace (store : LocationStore) (key : string)
    (v : DriverLocation) :
  map fst (replace store key v) = map fst store.
Proof.
  induction store as [|[k u] rest IH]; simpl; [reflexivity|].
  destruct (String.eqb k key); simpl; [reflexivity|now rewrite IH].
Qed.

Lemma In_insertIndex (n : N) (store : LocationStore) (key : string)
    (v : DriverLocation) (kv : string * DriverLocation) :
  In kv (insertIndex n key v store) <-> kv = (key, v) \/ In kv store.
Proof.
  induction store as [|[k u] rest IH]; simpl.
  - split; intros [H|[]]; auto.
  - destruct (arrayIndex k) as [m|]; [destruct (m <? n)%N|]; simpl;
      rewrite ?IH; intuition congruence.
Qed.

Lemma get_insertIndex_same (n : N) (store : LocationStore) (key : string)
    (v : DriverLocation) :
  get store key = None -> get (insertIndex n key v store) key = Some v.
Proof.
  induction store as [|[k u] rest IH]; simpl.
  - now rewrite String.eqb_refl.
  - destruct (String.eqb k key) eqn:E; [discriminate|]. intro Hn.
    destruct (arrayIndex k) as [m|]; [destruct (m <? n)%N|]; simpl;
      rewrite ?E, ?String.eqb_refl; auto.
Qed.

Lemma get_insertIndex_other (n : N) (store : LocationStore)
    (key other : string) (v : DriverLocation) :
  other <> key -> get (insertIndex n key v store) other = get store other.
Proof.
  intro Hne.
  assert (Hk : String.eqb key other = false).
  { apply String.eqb_neq. congruence. }
  induction store as [|[k u] rest IH]; simpl.
  - now rewrite Hk.
  - destruct (arrayIndex k) as [m|]; [destruct (m <? n)%N|]; simpl;
      rewrite ?Hk; [now rewrite IH|reflexivity|reflexivity].
Qed.

Lemma get_app_fresh (store : LocationStore) (key other : string)
    (v : DriverLocation) :
  get (store ++ [(key, v)]) other
  = match get store other with
    | Some w => Some w
    | None => if String.eqb key other then Some v else None
    end.
Proof.
  induction store as [|[k u] rest IH]; simpl; [reflexivity|].
  destruct (String.eqb k other); [reflexivity|exact IH].
Qed.

Lemma get_set_same (store : LocationStore) (key : string) (v : DriverLocation) :
  get (set store key v) key = Some v.
Proof.
  unfold set. destruct (get store key) as [w|] eqn:E.
  - now apply (@get_replace_same store key v w E).
  - destruct (arrayIndex key) as [n|].
    + now apply get_insertIndex_same.
    + rewrite get_app_fresh, E. now rewrite String.eqb_refl.
Qed.

Lemma In_set (store : LocationStore) (key : string) (v : DriverLocation)
    (kv : string * DriverLocation) :
  In kv (set store key v) -> kv = (key, v) \/ In kv store.
Proof.
  unfold set. destruct (get store key) as [w|].
  - apply In_replace.
  - destruct (arrayIndex key) as [n|].
    + apply In_insertIndex.
    + intro H. apply in_app_or in H. destruct H as [H|[H|[]]]; auto.
Qed.

Lemma In_delete (store : LocationStore) (key : string)
    (kv : string * DriverLocation) :
  In kv (delete store key) -> In kv store.
Proof. unfold delete. intro H. now apply filter_In in H. Qed.

Lemma filter_filter {A : Type} (f g : A -> bool) (l : list A) :
  filter f (filter g l) = filter (fun x => g x && f x) l.
Proof.
  induction l as [|x xs IH]; simpl; [reflexivity|].
  destruct (g x); simpl; [destruct (f x)|]; now rewrite IH.
Qed.
End StoreFacts.

Module TrackerFacts.
Import DriverTracker StoreFacts Spec.

(** The pruning loop in closed form. *)
Lemma pruneLoop_filter (th : Z) (entries : list (string * DriverLocation)) :
  forall (locations : LocationStore) (pruned : bool),
    pruneLoop th entries locations pruned
    = (filter (kept th entries) locations,
       pruned || existsb (fun e => staleb th (snd e)) entries).
Proof.
  induction entries as [|[id loc] rest IH]; intros locations pruned.
  - simpl. unfold kept. simpl.
    rewrite orb_false_r. f_equal.
    induction locations as [|x xs IHx]; simpl; [reflexivity|]. now rewrite <- IHx.
  - simpl pruneLoop. fold (staleb th loc).
    destruct (staleb th loc) eqn:E.
    + rewrite IH. unfold LocationStore.delete. rewrite filter_filter.
      f_equal.
      * apply filter_ext. intro kv. unfold kept. simpl. rewrite E. simpl.
        destruct (String.eqb (fst kv) id); reflexivity.
      * simpl. rewrite E. simpl. now rewrite orb_true_r.
    + rewrite IH. f_equal.
      * apply filter_ext. intro kv. unfold kept. simpl. rewrite E. reflexivity.
      * simpl. rewrite E. reflexivity.
Qed.

(** After the loop over the store's own entries nothing stale is
    left. *)
Lemma pruned_fresh (th : Z) (locations : LocationStore)
    (kv : string * DriverLocation) :
  In kv (fst (pruneLoop th (LocationStore.entries locations) locations false)) ->
  In kv locations /\ staleb th (snd kv) = false.
Proof.
  rewrite pruneLoop_filter. simpl. intro H. apply filter_In in H.
  destruct H as [Hin Hk]. split; [exact Hin|].
  unfold kept in Hk. apply negb_true_iff in Hk.
  destruct (staleb th (snd kv)) eqn:E; [|reflexivity].
  assert (Hex : existsb (fun e => staleb th (snd e)
                                  && String.eqb (fst kv) (fst e))
                  (LocationStore.entries locations) = true).
  { apply existsb_exists. exists kv. split; [exact Hin|].
    now rewrite E, String.eqb_refl. }
  congruence.
Qed.


Lemma stale_staleb (now : timestamp) (loc : DriverLocation) :
  stale now loc <-> staleb (now - 5 * 60 * 1000) loc = true.
Proof. unfold stale, staleb. symmetry. apply Z.ltb_lt. Qed.

Section WithDistance.
Variable haversineDistance : number -> number -> number -> number -> number.

End WithDistance.
End TrackerFacts.

Import DriverTracker StoreFacts TrackerFacts.

(** Claim C3 as stated fails: with "driver-b" and "driver-a" at the
    same point, a query returns them in the order "driver-b",
    "driver-a" in which the store enumerates them; at equal distance
    they are not in ascending order of [driver_id]. *)
Lemma nearby_ties_not_by_driver_id :
  exists data,
    body (snd (fetch Examples.meridianDistance 2000 Examples.tracker_tied
                 (POST_nearby Examples.query_1_1)))
      = SuccessNearby data
    /\ map (fun e => DriverLocation.driver_id (loc e)) data
       = ["driver-b"; "driver-a"]
    /\ Forall (fun e => distance_km e == 0) data
    /\ ~ tiesByDriverId data.
Proof.
  eexists. split; [vm_compute; reflexivity|].
  split; [reflexivity|].
  split; [repeat (constructor; [unfold Qeq; reflexivity|]); constructor|].
  intro H.
  specialize (H 0%nat 1%nat _ _ (Nat.lt_0_succ 0) eq_refl eq_refl (Qeq_refl _)).
  vm_compute in H. discriminate H.
Qed.

(** The same answer under every distance function that puts a point
    within 10 km of itself, as the haversine formula does. *)
Lemma nearby_ties_any_distance
    (haversineDistance : number -> number -> number -> number -> number) :
  haversineDistance 1 1 1 1 <= 10 ->
  exists data,
    body (snd (fetch haversineDistance 2000 Examples.tracker_tied
                 (POST_nearby Examples.query_1_1)))
      = SuccessNearby data
    /\ map (fun e => DriverLocation.driver_id (loc e)) data
       = ["driver-b"; "driver-a"].
Proof.
  intro Hle. apply Qle_bool_iff in Hle.
  assert (Hself : Qle_bool (haversineDistance 1 1 1 1
                            - haversineDistance 1 1 1 1) 0 = true).
  { apply (compare_nonpositive (fun x : number => x)). apply Qle_refl. }
  eexists. split.
  - cbn. rewrite Hle. cbn. rewrite Hself. reflexivity.
  - reflexivity.
Qed.

(** Claim C3, amended.  The sequence returned by a nearby query is
    ascending by distance, and the entries at any one distance are in
    the order in which the store enumerates them (the sort is stable
    and compares nothing but the distance). *)
Theorem handleNearby_sorted_stable
    (haversineDistance : number -> number -> number -> number -> number)
    (now : timestamp) (self : DriverTracker.t)
    (lat lng : number) (radius : option number) :
  let out := handleNearby haversineDistance now self
               (mkNearbyBody (Some lat) (Some lng) radius) in
  exists data,
    body (snd out) = SuccessNearby data
    /\ ascendingByDistance data
    /\ forall d,
         atDistance d data
         = atDistance d
             (withinRadius haversineDistance lat lng
                (match radius with Some r => r | None => 10 end)
                (locations (fst out))).
Proof.
  unfold handleNearby. cbn [query_lat query_lng radius_km].
  destruct (pruneLoop _ _ _ _) as [locations' pruned]. cbn [fst snd body].
  eexists. split; [reflexivity|]. split.
  - apply (Array_sort_sorted distance_km).
  - intro d. unfold atDistance, nearbyOf, withinRadius.
    rewrite (Array_sort_stable distance_km).
    destruct pruned; reflexivity.
Qed.

Module LookupFacts.
Import LocationStore.

(** An own entry answers before anything inherited. *)
Lemma lookup_own (self : DriverTracker.t) (d : string)
    (entry : DriverLocation) :
  get (locations self) d = Some entry ->
  lookup self d = Some (EntryValue entry).
Proof. unfold lookup. now intros ->. Qed.

Lemma handleGetLocation_own (self : DriverTracker.t) (d : string)
    (entry : DriverLocation) :
  get (locations self) d = Some entry ->
  handleGetLocation self d = jsonResponse (SuccessLocation entry) 200.
Proof. intro H. unfold handleGetLocation. now rewrite (@lookup_own self d entry H). Qed.

Lemma fromObjectPrototype_none (d : string) :
  ~ In d objectPrototypeMethods -> fromObjectPrototype d = None.
Proof.
  intro H. unfold fromObjectPrototype.
  destruct (existsb (String.eqb d) objectPrototypeMethods) eqn:E;
    [|reflexivity].
  apply existsb_exists in E. destruct E as [x [Hin Heq]].
  apply String.eqb_eq in Heq. subst x. contradiction.
Qed.

(** Nothing is inherited under a name that is none of
    [inheritedNames]. *)
Lemma inherited_ownOnly (self : DriverTracker.t) (d : string) :
  ownOnly d -> inherited self d = None.
Proof.
  unfold ownOnly, inheritedNames. intro H.
  assert (H1 : String.eqb d "__proto__" = false)
    by (apply String.eqb_neq; intros ->; apply H; now left).
  assert (H2 : String.eqb d "driver_id" = false)
    by (apply String.eqb_neq; intros ->; apply H; right; now left).
  assert (H3 : String.eqb d "lat" = false)
    by (apply String.eqb_neq; intros ->; apply H; right; right; now left).
  assert (H4 : String.eqb d "lng" = false)
    by (apply String.eqb_neq; intros ->; apply H; do 3 right; now left).
  assert (H5 : String.eqb d "updated_at" = false)
    by (apply String.eqb_neq; intros ->; apply H; do 4 right; now left).
  assert (H6 : fromObjectPrototype d = None).
  { apply fromObjectPrototype_none. intro Hin. apply H. now do 5 right. }
  unfold inherited. rewrite H1, H2, H3, H4, H5, H6.
  now destruct (prototype self).
Qed.

Lemma lookup_absent (self : DriverTracker.t) (d : string) :
  get (locations self) d = None -> ownOnly d -> lookup self d = None.
Proof.
  intros Hn Ho. unfold lookup. rewrite Hn. now apply inherited_ownOnly.
Qed.

Lemma handleGetLocation_absent (self : DriverTracker.t) (d : string) :
  get (locations self) d = None -> ownOnly d ->
  handleGetLocation self d = jsonResponse (ErrorBody "Driver not found") 404.
Proof.
  intros Hn Ho. unfold handleGetLocation.
  now rewrite (@lookup_absent self d Hn Ho).
Qed.

(** What a Get answers after [this.locations[d] = entry]. *)
Lemma lookup_assign (self : DriverTracker.t) (d : string)
    (entry : DriverLocation) :
  lookup (assign self d entry) d = Some (EntryValue entry).
Proof.
  unfold assign.
  destruct (get (locations self) d) as [w|] eqn:E.
  - apply lookup_own. cbn [locations]. apply get_set_same.
  - destruct (String.eqb d "__proto__") eqn:Ep.
    + unfold lookup. cbn [locations]. rewrite E.
      unfold inherited. now rewrite Ep.
    + apply lookup_own. cbn [locations]. apply get_set_same.
Qed.

Lemma ownOnly_driver (d : string) :
  forallb (fun name => negb (String.eqb d name)) inheritedNames = true ->
  ownOnly d.
Proof.
  intros H Hin. rewrite forallb_forall in H. specialize (H d Hin).
  now rewrite String.eqb_refl in H.
Qed.
End LookupFacts.
Import LookupFacts.




Module ClockFacts.

Lemma timely_mono (t t' : timestamp) (self : DriverTracker.t) :
  (t <= t')%Z -> timely t self -> timely t' self.
Proof.
  intros Hle [Hl [Hs Hp]]. split; [|split].
  - intros kv Hin. specialize (Hl kv Hin). lia.
  - intros stored kv Hst Hin. specialize (Hs stored kv Hst Hin). lia.
  - intros entry He. specialize (Hp entry He). lia.
Qed.

Lemma timely_ensureLoaded (t : timestamp) (self : DriverTracker.t) :
  timely t self -> timely t (ensureLoaded self).
Proof.
  intros [Hl [Hs Hp]]. unfold ensureLoaded.
  destruct (loaded self); [now repeat split|].
  split; [|split]; simpl.
  - intros kv Hin. destruct (storage self) as [stored|] eqn:E.
    + now apply (Hs stored kv).
    + destruct Hin.
  - exact Hs.
  - intros entry He. discriminate He.
Qed.

(** A state whose live and inherited entries are timely stays so
    when persisted. *)
Lemma timely_persist (t : timestamp) (self : DriverTracker.t) :
  (forall kv, In kv (locations self) ->
     (DriverLocation.updated_at (snd kv) <= t)%Z) ->
  (forall entry, prototype self = Some entry ->
     (DriverLocation.updated_at entry <= t)%Z) ->
  timely t (persist self).
Proof.
  intros Hl Hp. unfold persist. split; [|split]; simpl.
  - exact Hl.
  - intros stored kv Hst Hin. injection Hst as <-. now apply Hl.
  - exact Hp.
Qed.

Lemma timely_handleUpdateLocation now self body :
  timely now self -> timely now (fst (handleUpdateLocation now self body)).
Proof.
  intros [Hl [Hs Hp]]. unfold handleUpdateLocation.
  destruct (body_driver_id body) as [d|]; [|now repeat split].
  destruct (body_lat body) as [lat|]; [|now repeat split].
  destruct (body_lng body) as [lng|]; [|now repeat split].
  destruct (negb (truthy (Some d))); [now repeat split|].
  cbn [fst]. unfold assign.
  assert (Hset : forall kv,
            In kv (LocationStore.set (locations self) d
                     (DriverLocation.mk d lat lng now)) ->
            (DriverLocation.updated_at (snd kv) <= now)%Z).
  { intros kv Hin. apply In_set in Hin. destruct Hin as [->|Hin].
    - simpl. lia.
    - now apply Hl. }
  destruct (LocationStore.get (locations self) d);
    [|destruct (String.eqb d "__proto__")];
    apply timely_persist; cbn [locations prototype]; trivial.
  intros entry He. injection He as <-. simpl. lia.
Qed.

Lemma timely_handleRemoveLocation now self driverId :
  timely now self -> timely now (fst (handleRemoveLocation self driverId)).
Proof.
  intros [Hl [Hs Hp]]. unfold handleRemoveLocation.
  destruct (negb (isTruthy (lookup self driverId))); [now repeat split|].
  cbn [fst]. apply timely_persist; cbn [locations prototype]; [|exact Hp].
  intros kv Hin. apply In_delete in Hin. now apply Hl.
Qed.

Lemma timely_handleNearby hav now self body :
  timely now self -> timely now (fst (handleNearby hav now self body)).
Proof.
  intros [Hl [Hs Hp]]. unfold handleNearby.
  destruct (query_lat body) as [lat|]; [|now repeat split].
  destruct (query_lng body) as [lng|]; [|now repeat split].
  pose proof (pruned_fresh (now - 5 * 60 * 1000) (locations self)) as Hfresh.
  destruct (pruneLoop _ _ _ _) as [locations' pruned].
  cbn [fst snd] in *.
  assert (Hl' : forall kv, In kv locations' ->
                  (DriverLocation.updated_at (snd kv) <= now)%Z).
  { intros kv Hin. apply Hl. now apply Hfresh. }
  destruct pruned.
  - now apply timely_persist.
  - split; [exact Hl'|split; [exact Hs|exact Hp]].
Qed.

Lemma timely_fetch hav now self request :
  timely now self -> timely now (fst (fetch hav now self request)).
Proof.
  intro H. apply timely_ensureLoaded in H. unfold fetch.
  destruct request as [b|d|d|b|].
  - now apply timely_handleUpdateLocation.
  - destruct (truthy (Some d)); exact H.
  - destruct (truthy (Some d)); [|exact H].
    now apply timely_handleRemoveLocation.
  - now apply timely_handleNearby.
  - exact H.
Qed.

(** The clock invariant of the durable object. *)
Lemma trackerAt_timely hav t self : trackerAt hav t self -> timely t self.
Proof.
  induction 1 as [now|t now self request Hrun IH Hle|t self Hrun IH].
  - split; [|split]; simpl;
      [intros kv []|intros stored kv Hst; discriminate Hst
      |intros entry He; discriminate He].
  - apply timely_fetch. now apply (timely_mono Hle).
  - destruct IH as [Hl [Hs Hp]]. split; [|split]; simpl;
      [intros kv []|exact Hs|intros entry He; discriminate He].
Qed.

(** The entry a Get returns is held live or is the prototype. *)
Lemma handleGetLocation_timely t self d entry :
  timely t self ->
  handleGetLocation self d = jsonResponse (SuccessLocation entry) 200 ->
  (DriverLocation.updated_at entry <= t)%Z.
Proof.
  intros [Hl [_ Hp]]. unfold handleGetLocation, lookup.
  destruct (LocationStore.get (locations self) d) as [w|] eqn:E.
  - cbn. intro H. injection H as <-. apply get_In in E.
    exact (Hl _ E).
  - unfold inherited.
    destruct (String.eqb d "__proto__").
    + destruct (prototype self) as [e|] eqn:Ee; cbn; intro H;
        [|discriminate H].
      injection H as <-. now apply Hp.
    + destruct (prototype self) as [e|];
        repeat match goal with
               | |- context [String.eqb d ?x] => destruct (String.eqb d x)
               end;
        unfold fromObjectPrototype;
        try destruct (existsb _ _); cbn;
        try destruct (negb _); intro H; discriminate H.
Qed.

Lemma loaded_ensureLoaded self : loaded (ensureLoaded self) = true.
Proof. unfold ensureLoaded. destruct (loaded self) eqn:E; [exact E|reflexivity]. Qed.

Lemma ensureLoaded_loaded self : loaded self = true -> ensureLoaded self = self.
Proof. unfold ensureLoaded. now intros ->. Qed.

Lemma truthy_nonempty (d : string) : d <> "" -> truthy (Some d) = true.
Proof.
  intro H. unfold truthy. apply negb_true_iff. now apply String.eqb_neq.
Qed.

Lemma loaded_assign self d entry :
  loaded (assign self d entry) = loaded self.
Proof.
  unfold assign. destruct (LocationStore.get (locations self) d);
    [|destruct (String.eqb d "__proto__")]; reflexivity.
Qed.

End ClockFacts.
Import ClockFacts.

(** Claim C9 as stated fails: "driver-1" reported when the clock read
    1000; an upsert for the same driver served when the clock reads
    500 is stored with the timestamp 500, which a Get then returns:
    earlier than the timestamp of the entry it replaced. *)
Lemma upsert_timestamp_goes_back :
  let upsert := fetch Examples.meridianDistance 500 Examples.tracker_at_1000
                  (Examples.put "driver-1" 2 3) in
  validCoordinate 2 3
  /\ snd (fetch Examples.meridianDistance 1000 Examples.tracker_at_1000
            (GET_location "driver-1"))
     = jsonResponse (SuccessLocation (DriverLocation.mk "driver-1" 1 1 1000)) 200
  /\ snd (fetch Examples.meridianDistance 1001 (fst upsert)
            (GET_location "driver-1"))
     = jsonResponse (SuccessLocation (DriverLocation.mk "driver-1" 2 3 500)) 200
  /\ (DriverLocation.updated_at (DriverLocation.mk "driver-1" 2 3 500)
      < DriverLocation.updated_at (DriverLocation.mk "driver-1" 1 1 1000))%Z.
Proof.
  cbv zeta. split; [unfold validCoordinate, Qle; simpl; lia|].
  split; [reflexivity|]. split; [reflexivity|]. simpl. lia.
Qed.

(** Claim C9, amended.  An upsert of coordinates in range for a driver
    with a non-empty id, served when the clock reads [now], followed by
    a Get for that driver returns exactly the upserted coordinates with
    the timestamp [now].  The timestamp is no earlier than that of the
    entry a Get returned for the driver before the upsert when the
    tracker has served its requests, this one included, at clock
    readings that never decreased. *)
Theorem upsert_then_get
    (haversineDistance : number -> number -> number -> number -> number)
    (now : timestamp) (self : DriverTracker.t)
    (d : string) (lat lng : number) :
  d <> "" ->
  validCoordinate lat lng ->
  let upsert := fetch haversineDistance now self
                  (PUT_location (mkUpdateBody (Some d) (Some lat) (Some lng))) in
  snd upsert = jsonResponse (SuccessLocation (DriverLocation.mk d lat lng now)) 200
  /\ (forall now',
        snd (fetch haversineDistance now' (fst upsert) (GET_location d))
        = jsonResponse (SuccessLocation (DriverLocation.mk d lat lng now)) 200)
  /\ (forall t replaced returned now',
        trackerAt haversineDistance t self ->
        (t <= now)%Z ->
        snd (fetch haversineDistance now self (GET_location d))
        = jsonResponse (SuccessLocation replaced) 200 ->
        snd (fetch haversineDistance now' (fst upsert) (GET_location d))
        = jsonResponse (SuccessLocation returned) 200 ->
        (DriverLocation.updated_at replaced
         <= DriverLocation.updated_at returned)%Z).
Proof.
  intros Hd _. cbv zeta.
  pose proof (truthy_nonempty Hd) as Ht.
  assert (Hput : fetch haversineDistance now self
                   (PUT_location (mkUpdateBody (Some d) (Some lat) (Some lng)))
                 = (persist (assign (ensureLoaded self) d
                               (DriverLocation.mk d lat lng now)),
                    jsonResponse
                      (SuccessLocation (DriverLocation.mk d lat lng now)) 200)).
  { unfold fetch, handleUpdateLocation.
    cbn [body_driver_id body_lat body_lng]. now rewrite Ht. }
  assert (Hget : forall now',
            snd (fetch haversineDistance now'
                   (persist (assign (ensureLoaded self) d
                               (DriverLocation.mk d lat lng now)))
                   (GET_location d))
            = jsonResponse
                (SuccessLocation (DriverLocation.mk d lat lng now)) 200).
  { intro now'. unfold fetch. rewrite Ht.
    rewrite ensureLoaded_loaded
      by (cbn [persist loaded]; rewrite loaded_assign;
          apply loaded_ensureLoaded).
    cbn [snd]. unfold handleGetLocation.
    assert (Hl : lookup (persist (assign (ensureLoaded self) d
                                    (DriverLocation.mk d lat lng now))) d
                 = Some (EntryValue (DriverLocation.mk d lat lng now))).
    { rewrite <- (lookup_assign (ensureLoaded self) d
                    (DriverLocation.mk d lat lng now)).
      reflexivity. }
    now rewrite Hl. }
  rewrite Hput. cbn [fst snd].
  split; [reflexivity|]. split; [exact Hget|].
  intros t replaced returned now' Hrun Hle Hbefore Hafter.
  rewrite Hget in Hafter. injection Hafter as <-. cbn [DriverLocation.updated_at].
  apply trackerAt_timely in Hrun. apply (timely_mono Hle) in Hrun.
  apply timely_ensureLoaded in Hrun.
  unfold fetch in Hbefore. rewrite Ht in Hbefore. cbn [snd] in Hbefore.
  exact (@handleGetLocation_timely now (ensureLoaded self) d replaced Hrun Hbefore).
Qed.

(** C9 on the tracker holding "driver-1" at (1, 1) since time 0: the
    driver reports (2, 3) at time 1000. *)
Lemma upsert_then_get_witness :
  "driver-1" <> ""
  /\ validCoordinate 2 3
  /\ snd (fetch Examples.meridianDistance 1007
            (fst (fetch Examples.meridianDistance 1000 Examples.tracker_one
                    (PUT_location
                       (mkUpdateBody (Some "driver-1") (Some 2) (Some 3)))))
            (GET_location "driver-1"))
     = jsonResponse (SuccessLocation (DriverLocation.mk "driver-1" 2 3 1000)) 200
  /\ (DriverLocation.updated_at (DriverLocation.mk "driver-1" 1.0000 1.0000 0)
      <= DriverLocation.updated_at (DriverLocation.mk "driver-1" 2 3 1000))%Z.
Proof.
  assert (Hrun : trackerAt Examples.meridianDistance 0 Examples.tracker_one).
  { unfold Examples.tracker_one.
    apply (@tracker_fetch Examples.meridianDistance 0 0).
    - apply tracker_new.
    - lia. }
  assert (Hvalid : validCoordinate 2 3).
  { unfold validCoordinate, Qle. simpl. lia. }
  assert (Hd : "driver-1" <> "") by discriminate.
  assert (Hle : (0 <= 1000)%Z) by lia.
  pose proof (@upsert_then_get Examples.meridianDistance 1000
                Examples.tracker_one "driver-1" 2 3 Hd Hvalid) as H.
  cbv zeta in H. destruct H as [_ [Hgetd Hold]].
  split; [exact Hd|]. split; [exact Hvalid|].
  split; [apply Hgetd|].
  apply (Hold 0%Z (DriverLocation.mk "driver-1" 1.0000 1.0000 0)
           (DriverLocation.mk "driver-1" 2 3 1000) 1007%Z Hrun Hle).
  - reflexivity.
  - apply Hgetd.
Defined.

(* ================================================================= *)
(** ** The availability ledger and dispatch *)

Module DispatchFacts.
Import OrderRepository OrderService Spec LifecycleFacts.

Lemma not_busy (busy : list string) (d : string) :
  negb (existsb (String.eqb d) busy) = true <-> ~ In d busy.
Proof.
  rewrite negb_true_iff. split.
  - intros H Hin.
    assert (Hex : existsb (String.eqb d) busy = true).
    { apply existsb_exists. exists d. split; [exact Hin|apply String.eqb_refl]. }
    congruence.
  - intro H. destruct (existsb (String.eqb d) busy) eqn:E; [|reflexivity].
    apply existsb_exists in E. destruct E as [x [Hin Heq]].
    apply String.eqb_eq in Heq. subst. contradiction.
Qed.

(** The rows [findAvailableDrivers] selects. *)
Lemma findAvailableDrivers_In (db : D1Database) (a : AvailableDriver) :
  In a (findAvailableDrivers db)
  <-> exists row,
        In row (driver_status db)
        /\ DriverStatusRow.is_available row = 1%Z
        /\ DriverStatusRow.current_lat row = Some (AvailableDriver.current_lat a)
        /\ DriverStatusRow.current_lng row = Some (AvailableDriver.current_lng a)
        /\ DriverStatusRow.driver_id row = AvailableDriver.driver_id a
        /\ ~ In (AvailableDriver.driver_id a) (activeDriverIds db).
Proof.
  unfold findAvailableDrivers. rewrite in_flat_map. split.
  - intros [row [Hin Hsel]]. exists row. unfold selectAvailable in Hsel.
    destruct (DriverStatusRow.is_available row =? 1)%Z eqn:Ea; [|destruct Hsel].
    destruct (DriverStatusRow.current_lat row) as [la|]; [|destruct Hsel].
    destruct (DriverStatusRow.current_lng row) as [ln|]; [|destruct Hsel].
    destruct (negb (existsb (String.eqb (DriverStatusRow.driver_id row))
                      (activeDriverIds db))) eqn:Eb; [|destruct Hsel].
    destruct Hsel as [<-|[]]. simpl.
    apply Z.eqb_eq in Ea. apply not_busy in Eb. repeat split; assumption.
  - intros [row [Hin [Ha [Hla [Hln [Hid Hb]]]]]]. exists row.
    split; [exact Hin|]. unfold selectAvailable.
    rewrite Ha, Hla, Hln. simpl.
    rewrite Hid. apply not_busy in Hb. rewrite Hb.
    left. destruct a; simpl in *. reflexivity.
Qed.

(** The candidates [dispatchOrder] ranks are the available drivers,
    each with its distance from the pickup point. *)
Lemma rankDrivers_In hav (order : OrderRow) (l : list AvailableDriver)
    (c : Candidate) :
  In c (rankDrivers hav order l)
  <-> In (fst c) l
      /\ snd c = hav (OrderRow.pickup_lat order) (OrderRow.pickup_lng order)
                   (AvailableDriver.current_lat (fst c))
                   (AvailableDriver.current_lng (fst c)).
Proof.
  unfold rankDrivers. rewrite (Array_sort_In distance). rewrite in_map_iff.
  split.
  - intros [d [<- Hin]]. now split.
  - intros [Hin Hd]. exists (fst c). split; [|exact Hin].
    destruct c as [d x]. simpl in *. now subst.
Qed.

Lemma rankDrivers_nonempty hav (order : OrderRow) (a : AvailableDriver)
    (l : list AvailableDriver) :
  rankDrivers hav order (a :: l) <> [].
Proof.
  intro H. apply (f_equal (@List.length _)) in H.
  unfold rankDrivers in H. rewrite (Array_sort_length distance) in H.
  simpl in H. discriminate H.
Qed.

(** The ledger after [upsertDriverStatus]: the row written, and the
    rows of the other drivers. *)
Lemma upsertDriverStatus_rows now db driverId isAvailable lat lng row :
  In row (driver_status (upsertDriverStatus now db driverId isAvailable lat lng)) ->
  row = DriverStatusRow.mk driverId (if isAvailable then 1%Z else 0%Z) lat lng now
  \/ (In row (driver_status db) /\ DriverStatusRow.driver_id row <> driverId).
Proof.
  unfold upsertDriverStatus. cbv zeta.
  destruct (existsb _ (driver_status db)) eqn:E; simpl.
  - rewrite in_map_iff. intros [ds [Hds Hin]].
    destruct (String.eqb (DriverStatusRow.driver_id ds) driverId) eqn:Ed.
    + left. now symmetry.
    + right. subst. split; [exact Hin|]. now apply String.eqb_neq.
  - rewrite in_app_iff. intros [Hin|[<-|[]]]; [right|now left].
    split; [exact Hin|].
    intro Heq.
    assert (Hex : existsb (fun ds => String.eqb (DriverStatusRow.driver_id ds) driverId)
                    (driver_status db) = true).
    { apply existsb_exists. exists row. split; [exact Hin|].
      now apply String.eqb_eq. }
    congruence.
Qed.

Lemma upsertDriverStatus_has_row now db driverId (isAvailable : bool) lat lng :
  In (DriverStatusRow.mk driverId (if isAvailable then 1%Z else 0%Z) lat lng now)
     (driver_status (upsertDriverStatus now db driverId isAvailable lat lng)).
Proof.
  unfold upsertDriverStatus. cbv zeta.
  destruct (existsb _ (driver_status db)) eqn:E; simpl.
  - apply existsb_exists in E. destruct E as [ds [Hin Hc]].
    apply in_map_iff. exists ds. now rewrite Hc.
  - apply in_app_iff. right. now left.
Qed.

Lemma upsertDriverStatus_orders now db driverId isAvailable lat lng :
  orders (upsertDriverStatus now db driverId isAvailable lat lng) = orders db.
Proof.
  unfold upsertDriverStatus. cbv zeta.
  now destruct (existsb _ (driver_status db)).
Qed.

Lemma updateStatus_driver_status now db id status driverId :
  driver_status (fst (updateStatus now db id status driverId)) = driver_status db.
Proof. reflexivity. Qed.

(** A driver whose ledger row has no position is not a candidate. *)
Lemma unpositioned_absent (db : D1Database) (d : string) :
  unpositioned db d -> ~ In d (driverIds (findAvailableDrivers db)).
Proof.
  intros Hun Hin. unfold driverIds in Hin. apply in_map_iff in Hin.
  destruct Hin as [a [Hid Hin]]. apply findAvailableDrivers_In in Hin.
  destruct Hin as [row [Hrow [_ [Hla [_ [Hrid _]]]]]].
  destruct (Hun row Hrow) as [Hnone _]; [congruence|]. congruence.
Qed.

(** A location update of a driver on no active order makes the
    driver a candidate again. *)
Lemma location_update_restores now db d lat lng :
  ~ In d (activeDriverIds db) ->
  In d (driverIds (findAvailableDrivers
          (upsertDriverStatus now db d true (Some lat) (Some lng)))).
Proof.
  intro Hfree. unfold driverIds. apply in_map_iff.
  exists (AvailableDriver.mk d lat lng). split; [reflexivity|].
  apply findAvailableDrivers_In.
  exists (DriverStatusRow.mk d 1 (Some lat) (Some lng) now).
  split; [apply (upsertDriverStatus_has_row now db d true)|].
  repeat split. simpl. unfold activeDriverIds.
  rewrite upsertDriverStatus_orders. exact Hfree.
Qed.

Lemma unpositioned_kept (d : string) (db db' : D1Database) :
  withoutLocationUpdate d db db' -> unpositioned db d -> unpositioned db' d.
Proof.
  induction 1 as [db|db db' now id status driverId Hw IH
                 |db db' now other av lat lng Hw IH Hne
                 |db db' now av Hw IH]; intro Hun.
  - exact Hun.
  - specialize (IH Hun). intros row Hin Hid.
    rewrite updateStatus_driver_status in Hin. now apply IH.
  - specialize (IH Hun). intros row Hin Hid.
    apply upsertDriverStatus_rows in Hin. destruct Hin as [->|[Hin _]].
    + simpl in Hid. contradiction.
    + now apply IH.
  - specialize (IH Hun). intros row Hin Hid.
    apply upsertDriverStatus_rows in Hin. destruct Hin as [->|[Hin Hne]].
    + now split.
    + contradiction.
Qed.
End DispatchFacts.
Import DispatchFacts.

(** Claim C10.  [setAvailability], which passes no position, leaves the
    driver's ledger row with [current_lat] and [current_lng] null,
    whatever [available] is; the driver is then absent from the drivers
    [findAvailableDrivers] returns for dispatch, and stays absent under
    every later database write that is not a location update of that
    driver. *)
Theorem availability_toggle_clears_position
    (now : timestamp) (env : Env) (d : string) (available : bool) :
  let env' := DriverService.setAvailability now env d available in
  In (DriverStatusRow.mk d (if available then 1%Z else 0%Z) None None now)
     (driver_status (DB env'))
  /\ unpositioned (DB env') d
  /\ ~ In d (driverIds (findAvailableDrivers (DB env')))
  /\ (forall db', withoutLocationUpdate d (DB env') db' ->
        ~ In d (driverIds (findAvailableDrivers db'))).
Proof.
  cbv zeta. unfold DriverService.setAvailability. cbn [DB].
  assert (Hun : unpositioned
                  (upsertDriverStatus now (DB env) d available None None) d).
  { intros row Hin Hid. apply upsertDriverStatus_rows in Hin.
    destruct Hin as [->|[_ Hne]]; [now split|contradiction]. }
  split; [apply upsertDriverStatus_has_row|].
  split; [exact Hun|].
  split; [now apply unpositioned_absent|].
  intros db' Hw. apply unpositioned_absent. now apply (unpositioned_kept Hw).
Qed.

(** C10 on the ledger with "driver-1" and "driver-2" available and
    positioned: "driver-1" toggles availability to [true]. *)
Lemma availability_toggle_clears_position_witness :
  let env := mkEnv (DriverTracker.constructor None) Examples.db_two_drivers in
  let env' := DriverService.setAvailability 5 env "driver-1" true in
  driverIds (findAvailableDrivers (DB env)) = ["driver-1"; "driver-2"]
  /\ driverIds (findAvailableDrivers (DB env')) = ["driver-2"]
  /\ ~ In "driver-1" (driverIds (findAvailableDrivers (DB env')))
  /\ ~ In "driver-1"
       (driverIds (findAvailableDrivers
          (upsertDriverStatus 6 (DB env') "driver-2" true (Some 1) (Some 1)))).
Proof.
  cbv zeta.
  pose proof (availability_toggle_clears_position 5
                (mkEnv (DriverTracker.constructor None) Examples.db_two_drivers)
                "driver-1" true) as H.
  cbv zeta in H. destruct H as [_ [_ [Habsent Hlater]]].
  split; [reflexivity|]. split; [reflexivity|]. split; [exact Habsent|].
  apply Hlater. apply wlu_other; [apply wlu_refl|discriminate].
Defined.


(** The same dispatch under every distance function: one candidate
    needs no comparison. *)
Lemma stale_driver_any_distance
    (haversineDistance : number -> number -> number -> number -> number) :
  snd (triggerDispatch haversineDistance (Examples.sixMinutes + 2)
         (DB Examples.env_queried) "order-1")
  = Ok (mkOutcome true (Some "driver-1")).
Proof. reflexivity. Qed.



(* ================================================================= *)
(** ** Orders in status ['created'] *)

Module AssignmentFacts.
Import Concurrent.

Lemma updateStatus_createdUnassigned now db id status driverId :
  createdUnassigned db -> status <> created ->
  createdUnassigned (fst (updateStatus now db id status driverId)).
Proof.
  intros Hinv Hs o Hin Hst. simpl in Hin. apply in_map_iff in Hin.
  destruct Hin as [o0 [Ho Hin0]].
  destruct (String.eqb (OrderRow.id o0) id).
  - destruct driverId; subst o; simpl in Hst; contradiction.
  - subst o. now apply Hinv.
Qed.

Lemma updateOrderStatus_createdUnassigned now db orderId target user role :
  createdUnassigned db ->
  createdUnassigned (fst (updateOrderStatus now db orderId target user role)).
Proof.
  intro Hinv. unfold updateOrderStatus.
  destruct (findById db orderId) as [order|]; [|exact Hinv].
  destruct (negb (isParty order user role)); [exact Hinv|].
  destruct (negb (includes (ALLOWED_TRANSITIONS role) target)) eqn:E;
    [exact Hinv|].
  destruct (negb (isValidTransition (OrderRow.status order) target));
    [exact Hinv|].
  apply (updateStatus_createdUnassigned now orderId None Hinv).
  intros ->. rewrite created_never_allowed in E. discriminate E.
Qed.

Lemma dispatchOrder_createdUnassigned hav now db order :
  createdUnassigned db ->
  createdUnassigned (fst (dispatchOrder hav now db order)).
Proof.
  intro Hinv. unfold dispatchOrder.
  destruct (findAvailableDrivers db) as [|a l]; [exact Hinv|].
  destruct (rankDrivers hav order (a :: l)) as [|nearest rest]; [exact Hinv|].
  apply (updateStatus_createdUnassigned now (OrderRow.id order)
           (Some (AvailableDriver.driver_id (fst nearest))) Hinv).
  discriminate.
Qed.

Lemma triggerDispatch_createdUnassigned hav now db orderId :
  createdUnassigned db ->
  createdUnassigned (fst (triggerDispatch hav now db orderId)).
Proof.
  intro Hinv. unfold triggerDispatch.
  destruct (findById db orderId) as [order|]; [|exact Hinv].
  destruct (negb (OrderStatus_eqb (OrderRow.status order) created));
    [exact Hinv|].
  pose proof (dispatchOrder_createdUnassigned hav now order Hinv) as H.
  destruct (dispatchOrder hav now db order) as [db' [u|e]]; exact H.
Qed.

(** Every database the services produce keeps orders in status
    ['created'] without a driver. *)
Lemma reachable_createdUnassigned hav db :
  reachable hav db -> createdUnassigned db.
Proof.
  induction 1 as [|now orderId db c m price plat plng dlat dlng notes Hr IH Hfresh
                 |now db orderId target user role Hr IH
                 |now db order Hr IH
                 |now db orderId Hr IH
                 |now db driverId av lat lng Hr IH].
  - intros o [].
  - intros o Hin Hst. simpl in Hin. apply in_app_iff in Hin.
    destruct Hin as [Hin|[<-|[]]]; [now apply IH|reflexivity].
  - now apply updateOrderStatus_createdUnassigned.
  - now apply dispatchOrder_createdUnassigned.
  - now apply triggerDispatch_createdUnassigned.
  - intros o Hin. rewrite upsertDriverStatus_orders in Hin. now apply IH.
Qed.

Lemma findById_map (f : OrderRow -> OrderRow) (db : D1Database) (id : string) :
  (forall o, OrderRow.id (f o) = OrderRow.id o) ->
  findById (mkDB (map f (orders db)) (driver_status db)) id
  = option_map f (findById db id).
Proof.
  intro Hid. unfold findById. simpl.
  induction (orders db) as [|o rest IH]; simpl; [reflexivity|].
  rewrite Hid. destruct (String.eqb (OrderRow.id o) id); [reflexivity|exact IH].
Qed.

(** What [updateStatus] leaves of an order: the write applies to the
    row of the given id whatever its current status. *)
Lemma updateStatus_assignment now db id status driverId other :
  assignment (fst (updateStatus now db id status driverId)) other
  = match assignment db other with
    | None => None
    | Some (s, d) =>
        if String.eqb other id then
          Some (status, match driverId with Some n => Some n | None => d end)
        else Some (s, d)
    end.
Proof.
  unfold assignment, updateStatus. cbn [fst].
  rewrite findById_map.
  - destruct (findById db other) as [o|] eqn:E; [|reflexivity].
    apply findById_In in E. destruct E as [_ Eid]. simpl. rewrite Eid.
    rewrite String.eqb_sym.
    destruct (String.eqb id other); [|reflexivity].
    destruct driverId; reflexivity.
  - intro o. destruct (String.eqb (OrderRow.id o) id); [|reflexivity].
    destruct driverId; reflexivity.
Qed.

(** [dispatchOrder] with a driver to offer writes ['accepted'] and
    that driver on the order of the row it was given, whatever the
    status of the order in the database. *)
Lemma dispatchOrder_overwrites hav now db order s d :
  assignment db (OrderRow.id order) = Some (s, d) ->
  findAvailableDrivers db <> [] ->
  exists nearest,
    In nearest (driverIds (findAvailableDrivers db))
    /\ snd (dispatchOrder hav now db order) = Ok tt
    /\ assignment (fst (dispatchOrder hav now db order)) (OrderRow.id order)
       = Some (accepted, Some nearest).
Proof.
  intros Ha Hne. unfold dispatchOrder.
  destruct (findAvailableDrivers db) as [|a l] eqn:El; [contradiction|].
  destruct (rankDrivers hav order (a :: l)) as [|nearest rest] eqn:Er.
  - exfalso. exact (rankDrivers_nonempty hav order a l Er).
  - exists (AvailableDriver.driver_id (fst nearest)).
    assert (Hin : In nearest (rankDrivers hav order (a :: l)))
      by (rewrite Er; now left).
    apply rankDrivers_In in Hin. destruct Hin as [Hin _].
    split; [unfold driverIds; apply in_map; exact Hin|].
    pose proof (updateStatus_assignment now db (OrderRow.id order) accepted
                  (Some (AvailableDriver.driver_id (fst nearest)))
                  (OrderRow.id order)) as Hu.
    rewrite Ha, String.eqb_refl in Hu.
    destruct (updateStatus now db (OrderRow.id order) accepted
                (Some (AvailableDriver.driver_id (fst nearest))))
      as [db' r]. split; [reflexivity|exact Hu].
Qed.

(** Run without interleaving, [updateOrderStatus] and
    [triggerDispatch] never change the driver of an order that has
    one. *)
Lemma driver_kept_sequentially hav now db id s d :
  createdUnassigned db ->
  assignment db id = Some (s, Some d) ->
  (forall orderId target user role,
      exists s',
        assignment (fst (updateOrderStatus now db orderId target user role)) id
        = Some (s', Some d))
  /\ (forall orderId,
        exists s',
          assignment (fst (triggerDispatch hav now db orderId)) id
          = Some (s', Some d)).
Proof.
  intros Hinv Ha. split.
  - intros orderId target user role. unfold updateOrderStatus.
    destruct (findById db orderId) as [order|]; [|now exists s].
    destruct (negb (isParty order user role)); [now exists s|].
    destruct (negb (includes (ALLOWED_TRANSITIONS role) target));
      [now exists s|].
    destruct (negb (isValidTransition (OrderRow.status order) target));
      [now exists s|].
    pose proof (updateStatus_assignment now db orderId target None id) as Hu.
    rewrite Ha in Hu.
    destruct (updateStatus now db orderId target None) as [db' r].
    cbn [fst] in *. destruct (String.eqb id orderId); eexists; exact Hu.
  - intro orderId. unfold triggerDispatch.
    destruct (findById db orderId) as [order|] eqn:Ef; [|now exists s].
    destruct (negb (OrderStatus_eqb (OrderRow.status order) created)) eqn:Ec;
      [now exists s|].
    apply negb_false_iff, OrderStatus_eqb_eq in Ec.
    pose proof Ef as Hin. apply findById_In in Hin. destruct Hin as [Hin Hid].
    pose proof (Hinv order Hin Ec) as Hnone.
    assert (Hne : String.eqb id orderId = false).
    { apply String.eqb_neq. intros ->. unfold assignment in Ha.
      rewrite Ef in Ha. simpl in Ha. congruence. }
    assert (Hkeep : assignment (fst (dispatchOrder hav now db order)) id
                    = Some (s, Some d)).
    { unfold dispatchOrder.
      destruct (findAvailableDrivers db) as [|a l]; [exact Ha|].
      destruct (rankDrivers hav order (a :: l)) as [|nearest rest]; [exact Ha|].
      pose proof (updateStatus_assignment now db (OrderRow.id order) accepted
                    (Some (AvailableDriver.driver_id (fst nearest))) id) as Hu.
      rewrite Ha, Hid, Hne in Hu. rewrite Hid.
      destruct (updateStatus now db orderId accepted
                  (Some (AvailableDriver.driver_id (fst nearest)))) as [db' r].
      exact Hu. }
    destruct (dispatchOrder hav now db order) as [db' [u|e]];
      exists s; exact Hkeep.
Qed.

(** A manual dispatch running alone takes four steps and is
    [triggerDispatch]. *)
Lemma runAlone_triggerDispatch hav now db orderId :
  runAlone hav 4 now db (TriggerDispatch orderId)
  = (fst (triggerDispatch hav now db orderId),
     Done (match snd (triggerDispatch hav now db orderId) with
           | Ok outcome => Ok (Some outcome)
           | Throw e => Throw e
           end)).
Proof.
  unfold triggerDispatch, dispatchOrder. cbn [runAlone]. unfold step at 1.
  destruct (findById db orderId) as [order|]; [|reflexivity].
  destruct (negb (OrderStatus_eqb (OrderRow.status order) created));
    [reflexivity|].
  unfold step at 1.
  destruct (findAvailableDrivers db) as [|a l]; [reflexivity|].
  destruct (rankDrivers hav order (a :: l)) as [|nearest rest];
    [reflexivity|].
  cbn [step afterDispatch fst snd].
  destruct (updateStatus now db (OrderRow.id order) accepted
              (Some (AvailableDriver.driver_id (fst nearest)))) as [db' r].
  reflexivity.
Qed.
End AssignmentFacts.
Import AssignmentFacts.

(** Claim C8.  On a database the services have produced, dispatch of an
    order in status ['created'] when no driver is eligible raises
    nothing: [dispatchOrder] returns normally and [triggerDispatch]
    answers [{assigned: false}]; the database is the one given, so the
    order is still ['created'] and has no driver. *)
Theorem dispatch_without_drivers
    (haversineDistance : number -> number -> number -> number -> number)
    (now : timestamp) (db : D1Database) (orderId : string) (order : OrderRow) :
  reachable haversineDistance db ->
  findById db orderId = Some order ->
  OrderRow.status order = created ->
  findAvailableDrivers db = [] ->
  dispatchOrder haversineDistance now db order = (db, Ok tt)
  /\ triggerDispatch haversineDistance now db orderId
     = (db, Ok (mkOutcome false None))
  /\ assignment db orderId = Some (created, None).
Proof.
  intros Hreach Hfind Hst Hnil.
  apply reachable_createdUnassigned in Hreach.
  pose proof (findById_In _ _ Hfind) as [Hin _].
  pose proof (Hreach order Hin Hst) as Hnone.
  assert (Hd : dispatchOrder haversineDistance now db order = (db, Ok tt)).
  { unfold dispatchOrder. now rewrite Hnil. }
  split; [exact Hd|]. split.
  - unfold triggerDispatch. rewrite Hfind, Hst. cbn [OrderStatus_eqb negb].
    rewrite Hd, Hfind. unfold outcomeOf. now rewrite Hnone.
  - unfold assignment. rewrite Hfind. simpl. now rewrite Hst, Hnone.
Qed.

(** C8 on the database that holds "order-1", just created, and no
    driver at all. *)
Lemma dispatch_without_drivers_witness :
  reachable Examples.meridianDistance Examples.db_created
  /\ findAvailableDrivers Examples.db_created = []
  /\ dispatchOrder Examples.meridianDistance 7 Examples.db_created Examples.order1
     = (Examples.db_created, Ok tt)
  /\ triggerDispatch Examples.meridianDistance 7 Examples.db_created "order-1"
     = (Examples.db_created, Ok (mkOutcome false None))
  /\ assignment Examples.db_created "order-1" = Some (created, None).
Proof.
  assert (Hreach : reachable Examples.meridianDistance Examples.db_created).
  { unfold Examples.db_created. apply reach_create.
    - apply reach_empty.
    - reflexivity. }
  split; [exact Hreach|]. split; [reflexivity|].
  apply (@dispatch_without_drivers Examples.meridianDistance 7
           Examples.db_created "order-1" Examples.order1 Hreach);
    reflexivity.
Defined.

(** Claim C1.  The write of [dispatchOrder] is not conditioned on the
    status of the order.  (1) Given the row of "order-1" as it was when
    created, [dispatchOrder] on a database in which the order is
    already ['accepted'] with "driver-1" throws nothing and rewrites
    the order to "driver-2".  (2) Two manual dispatches of "order-1"
    that both read the order before either writes both assign a
    driver, first "driver-1" and then "driver-2"; neither ends in
    AlreadyDispatched and both report [assigned: true]. *)
Theorem dispatch_write_is_unguarded :
  let db1 := fst (dispatchOrder Examples.meridianDistance 10
                    Examples.db_two_drivers Examples.order1) in
  let out2 := dispatchOrder Examples.meridianDistance 20 db1 Examples.order1 in
  (assignment db1 "order-1" = Some (accepted, Some "driver-1")
   /\ snd out2 = Ok tt
   /\ assignment (fst out2) "order-1" = Some (accepted, Some "driver-2"))
  /\ (let raced := Concurrent.run Examples.meridianDistance
                     Examples.race_schedule Examples.db_two_drivers
                     Examples.two_dispatchers in
      assignment
        (fst (Concurrent.run Examples.meridianDistance
                (firstn 4 Examples.race_schedule) Examples.db_two_drivers
                Examples.two_dispatchers)) "order-1"
      = Some (accepted, Some "driver-1")
      /\ assignment (fst raced) "order-1" = Some (accepted, Some "driver-2")
      /\ snd raced
         = [Concurrent.Done (Ok (Some (mkOutcome true (Some "driver-2"))));
            Concurrent.Done (Ok (Some (mkOutcome true (Some "driver-2"))))]
      /\ ~ In (Concurrent.Done (Throw AlreadyDispatched)) (snd raced)).
Proof.
  cbv zeta. split.
  - repeat split; reflexivity.
  - split; [reflexivity|]. split; [reflexivity|]. split; [reflexivity|].
    vm_compute. intros [H|[H|[]]]; discriminate H.
Qed.

(** The same race under every distance function: whichever driver
    the function ranks first is assigned first and the other second;
    both dispatches report the second. *)
Lemma race_any_distance
    (haversineDistance : number -> number -> number -> number -> number) :
  exists first second,
    first <> second
    /\ assignment
         (fst (Concurrent.run haversineDistance
                 (firstn 4 Examples.race_schedule)
                 Examples.db_two_drivers Examples.two_dispatchers)) "order-1"
       = Some (accepted, Some first)
    /\ assignment
         (fst (Concurrent.run haversineDistance Examples.race_schedule
                 Examples.db_two_drivers Examples.two_dispatchers)) "order-1"
       = Some (accepted, Some second)
    /\ snd (Concurrent.run haversineDistance Examples.race_schedule
              Examples.db_two_drivers Examples.two_dispatchers)
       = [Concurrent.Done (Ok (Some (mkOutcome true (Some second))));
          Concurrent.Done (Ok (Some (mkOutcome true (Some second))))].
Proof.
  destruct (Qle_bool (haversineDistance 1.0010 1.0000 1.0001 1.0000
                      - haversineDistance 1.0010 1.0000 1.0050 1.0000) 0) eqn:E.
  - exists "driver-1", "driver-2". split; [discriminate|].
    cbn -[Qle_bool Qminus]. rewrite E. cbn -[Qle_bool Qminus].
    repeat split; reflexivity.
  - exists "driver-2", "driver-1". split; [discriminate|].
    cbn -[Qle_bool Qminus]. rewrite E. cbn -[Qle_bool Qminus].
    repeat split; reflexivity.
Qed.

(** Claim C2.  The driver of an order does change after it has been
    set.  [createOrder] leaves "order-1" in the database with its
    automatic dispatch running.  Under two overlapping manual
    dispatches of that order its driver goes from null to "driver-1"
    and then to "driver-2"; the same happens when the automatic
    dispatch completes after a manual one, whose caller was told
    "driver-1". *)
Theorem driver_id_is_reassigned :
  Concurrent.createOrder 0 "order-1"
    Examples.db_drivers "customer-1" Examples.input1
  = (Examples.db_two_drivers, Some Examples.order1,
     Concurrent.DispatchOrder Concurrent.Auto Examples.order1)
  /\ map (fun db => option_map snd (assignment db "order-1"))
    (Concurrent.trace Examples.meridianDistance Examples.race_schedule
       Examples.db_two_drivers Examples.two_dispatchers)
  = [Some None; Some None; Some None; Some (Some "driver-1");
     Some (Some "driver-1"); Some (Some "driver-2");
     Some (Some "driver-2"); Some (Some "driver-2")]
  /\ map (fun db => option_map snd (assignment db "order-1"))
       (Concurrent.trace Examples.meridianDistance Examples.late_auto_schedule
          Examples.db_two_drivers Examples.auto_and_manual)
     = [Some None; Some None; Some (Some "driver-1"); Some (Some "driver-1");
        Some (Some "driver-1"); Some (Some "driver-2")]
  /\ snd (Concurrent.run Examples.meridianDistance Examples.late_auto_schedule
            Examples.db_two_drivers Examples.auto_and_manual)
     = [Concurrent.Done (Ok None);
        Concurrent.Done (Ok (Some (mkOutcome true (Some "driver-1"))))].
Proof. repeat split; reflexivity. Qed.

(* ================================================================= *)
(** * Further properties *)

(* ================================================================= *)
(** ** The location store: keys, persistence, removal, queries *)

Module KeyFacts.
Import LocationStore StoreSpec.

Lemma get_set_other (store : LocationStore) (key other : string)
    (v : DriverLocation) :
  other <> key -> get (set store key v) other = get store other.
Proof.
  intro Hne. unfold set. destruct (get store key) as [w|].
  - now apply get_replace_other.
  - destruct (arrayIndex key) as [n|].
    + now apply get_insertIndex_other.
    + rewrite get_app_fresh.
      destruct (get store other); [reflexivity|].
      destruct (String.eqb key other) eqn:E; [|reflexivity].
      apply String.eqb_eq in E. congruence.
Qed.

Lemma get_None_keys (store : LocationStore) (key : string) :
  get store key = None -> ~ In key (map fst store).
Proof.
  induction store as [|[k w] rest IH]; simpl; [intros _ []|].
  destruct (String.eqb k key) eqn:E; [discriminate|].
  intros Hn [H|H]; [|now apply IH].
  apply String.eqb_neq in E. contradiction.
Qed.

Lemma keys_get (store : LocationStore) (key : string) :
  In key (map fst store) -> exists v, get store key = Some v.
Proof.
  intro Hin. destruct (get store key) as [v|] eqn:E; [now exists v|].
  exfalso. exact (get_None_keys _ _ E Hin).
Qed.

Lemma get_delete_same (store : LocationStore) (key : string) :
  get (delete store key) key = None.
Proof.
  apply get_None. intros v Hin. unfold delete in Hin.
  apply filter_In in Hin. destruct Hin as [_ H]. simpl in H.
  now rewrite String.eqb_refl in H.
Qed.

Lemma get_filter (f : string * DriverLocation -> bool)
    (store : LocationStore) (key : string) :
  (forall v, f (key, v) = true) ->
  get (filter f store) key = get store key.
Proof.
  intro Hf. induction store as [|[k w] rest IH]; simpl; [reflexivity|].
  destruct (String.eqb k key) eqn:E.
  - apply String.eqb_eq in E. subst k. rewrite Hf. simpl.
    now rewrite String.eqb_refl.
  - destruct (f (k, w)); simpl; [rewrite E|]; exact IH.
Qed.

Lemma get_delete_other (store : LocationStore) (key other : string) :
  other <> key -> get (delete store key) other = get store other.
Proof.
  intro Hne. unfold delete. apply get_filter. intro v. simpl.
  apply negb_true_iff. now apply String.eqb_neq.
Qed.

Lemma keys_set_present (store : LocationStore) (key : string)
    (v : DriverLocation) :
  In key (map fst store) -> map fst (set store key v) = map fst store.
Proof.
  intro Hin. destruct (keys_get _ _ Hin) as [w Hw].
  unfold set. rewrite Hw. apply keys_replace.
Qed.

(** A new key that is no array index goes to the end. *)
Lemma keys_set_absent (store : LocationStore) (key : string)
    (v : DriverLocation) :
  get store key = None -> arrayIndex key = None ->
  map fst (set store key v) = map fst store ++ [key].
Proof.
  intros Hn Hi. unfold set. rewrite Hn, Hi. now rewrite map_app.
Qed.

Lemma keys_insertIndex (n : N) (store : LocationStore) (key : string)
    (v : DriverLocation) (k : string) :
  In k (map fst (insertIndex n key v store))
  <-> k = key \/ In k (map fst store).
Proof.
  rewrite !in_map_iff. split.
  - intros [kv [Hk Hin]]. apply In_insertIndex in Hin.
    destruct Hin as [->|Hin]; [now left|right; now exists kv].
  - intros [->|[kv [Hk Hin]]].
    + exists (key, v). split; [reflexivity|]. apply In_insertIndex. now left.
    + exists kv. split; [exact Hk|]. apply In_insertIndex. now right.
Qed.

Lemma NoDup_insertIndex (n : N) (store : LocationStore) (key : string)
    (v : DriverLocation) :
  ~ In key (map fst store) -> NoDup (map fst store) ->
  NoDup (map fst (insertIndex n key v store)).
Proof.
  induction store as [|[k w] rest IH]; simpl.
  - intros _ _. repeat constructor. intros [].
  - intros Hn Hnd. inversion Hnd as [|x l Hnin Hnd' Heq]; subst.
    destruct (arrayIndex k) as [m|]; [destruct (m <? n)%N|]; simpl.
    + constructor.
      * intro Hin. apply keys_insertIndex in Hin.
        destruct Hin as [->|Hin]; [apply Hn; now left|contradiction].
      * apply IH; [|exact Hnd']. intro H. apply Hn. now right.
    + constructor; [exact Hn|exact Hnd].
    + constructor; [exact Hn|exact Hnd].
Qed.

Lemma NoDup_keys_set (store : LocationStore) (key : string)
    (v : DriverLocation) :
  NoDup (map fst store) -> NoDup (map fst (set store key v)).
Proof.
  intro Hnd. unfold set. destruct (get store key) as [w|] eqn:E.
  - now rewrite keys_replace.
  - pose proof (get_None_keys _ _ E) as Hn.
    destruct (arrayIndex key) as [n|].
    + now apply NoDup_insertIndex.
    + rewrite map_app. apply NoDup_app;
        [exact Hnd|repeat constructor; intros []|].
      intros x Hx [<-|[]]. contradiction.
Qed.

Lemma NoDup_keys_filter (f : string * DriverLocation -> bool)
    (store : LocationStore) :
  NoDup (map fst store) -> NoDup (map fst (filter f store)).
Proof.
  induction store as [|[k w] rest IH]; simpl; [constructor|].
  intro Hnd. inversion Hnd as [|x l Hnin Hnd' Heq]; subst.
  destruct (f (k, w)); simpl; [|now apply IH].
  constructor; [|now apply IH].
  intro Hin. apply Hnin. apply in_map_iff in Hin.
  destruct Hin as [kv [Hk Hin]]. apply filter_In in Hin.
  apply in_map_iff. exists kv. now split.
Qed.

Lemma wellKeyed_nil : wellKeyed [].
Proof. split; [constructor|intros kv []]. Qed.

Lemma wellKeyed_set (store : LocationStore) (key : string)
    (lat lng : number) (now : timestamp) :
  key <> "" -> key <> "__proto__" -> wellKeyed store ->
  wellKeyed (set store key (DriverLocation.mk key lat lng now)).
Proof.
  intros Hne Hp [Hnd Hk]. split; [now apply NoDup_keys_set|].
  intros kv Hin. apply In_set in Hin. destruct Hin as [->|Hin].
  - now repeat split.
  - now apply Hk.
Qed.

Lemma wellKeyed_filter (f : string * DriverLocation -> bool)
    (store : LocationStore) :
  wellKeyed store -> wellKeyed (filter f store).
Proof.
  intros [Hnd Hk]. split; [now apply NoDup_keys_filter|].
  intros kv Hin. apply filter_In in Hin. now apply Hk.
Qed.

(** With distinct keys, [get] finds every entry of the store. *)
Lemma In_get (store : LocationStore) (key : string) (v : DriverLocation) :
  NoDup (map fst store) -> In (key, v) store -> get store key = Some v.
Proof.
  induction store as [|[k w] rest IH]; simpl; [intros _ []|].
  intros Hnd Hin. inversion Hnd as [|x l Hnin Hnd' Heq]; subst.
  destruct Hin as [Heq|Hin].
  - injection Heq as -> ->. now rewrite String.eqb_refl.
  - destruct (String.eqb k key) eqn:E; [|now apply IH].
    apply String.eqb_eq in E. subst k. exfalso. apply Hnin.
    apply in_map_iff. now exists (key, v).
Qed.
End KeyFacts.

Module TrackerInvariants.
Import LocationStore StoreSpec KeyFacts.

Lemma filter_all {A : Type} (f : A -> bool) (l : list A) :
  (forall x, In x l -> f x = true) -> filter f l = l.
Proof.
  induction l as [|x xs IH]; simpl; [reflexivity|].
  intro H. rewrite (H x (or_introl eq_refl)). f_equal.
  apply IH. intros y Hy. apply H. now right.
Qed.

(** The key of [kv] survives the pruning loop when no stale entry
    has that key. *)
Lemma kept_fresh_key (th : Z) (entries : list (string * DriverLocation))
    (kv : string * DriverLocation) :
  (forall e, In e entries -> fst e = fst kv -> staleb th (snd e) = false) ->
  kept th entries kv = true.
Proof.
  intro H. unfold kept. apply negb_true_iff.
  destruct (existsb _ entries) eqn:E; [|reflexivity].
  apply existsb_exists in E. destruct E as [e [Hin He]].
  apply andb_true_iff in He. destruct He as [Hs Hk].
  apply String.eqb_eq in Hk. symmetry in Hk.
  rewrite (H e Hin Hk) in Hs. discriminate Hs.
Qed.

(** When the flag [pruned] stays down the mapping is untouched. *)
Lemma pruneLoop_unpruned (th : Z) (locations : LocationStore) :
  snd (pruneLoop th (entries locations) locations false) = false ->
  fst (pruneLoop th (entries locations) locations false) = locations.
Proof.
  rewrite pruneLoop_filter. simpl. intro H.
  apply filter_all. intros kv _. apply kept_fresh_key.
  intros e Hin _. destruct (staleb th (snd e)) eqn:E; [|reflexivity].
  assert (Hex : existsb (fun e => staleb th (snd e)) (entries locations) = true).
  { apply existsb_exists. now exists e. }
  congruence.
Qed.

(** With distinct keys a fresh entry survives the pruning loop. *)
Lemma pruned_keeps_fresh (th : Z) (locations : LocationStore)
    (key : string) (v : DriverLocation) :
  NoDup (map fst locations) ->
  In (key, v) locations -> staleb th v = false ->
  forall w, kept th (entries locations) (key, w) = true.
Proof.
  intros Hnd Hin Hfresh w. apply kept_fresh_key.
  intros [k u] He Hk. simpl in Hk. subst k. simpl.
  pose proof (In_get _ _ _ Hnd Hin) as H1.
  pose proof (In_get _ _ _ Hnd He) as H2.
  congruence.
Qed.

(** *** Keys *)

Lemma keyed_ensureLoaded self :
  trackerKeyed self -> trackerKeyed (ensureLoaded self).
Proof.
  intros [Hl [Hs Hp]]. unfold ensureLoaded.
  destruct (loaded self); [exact (conj Hl (conj Hs Hp))|].
  split; [|split]; simpl; [|exact Hs|intros e He; discriminate He].
  destruct (storage self) as [stored|]; [now apply Hs|apply wellKeyed_nil].
Qed.

Lemma keyed_persist self :
  wellKeyed (locations self) ->
  (forall entry, prototype self = Some entry ->
     DriverLocation.driver_id entry = "__proto__") ->
  trackerKeyed (persist self).
Proof.
  intros H Hp. split; [|split]; simpl; [exact H| |exact Hp].
  intros stored Hst. now injection Hst as <-.
Qed.

(** An own key of a well-keyed mapping is not ['__proto__']. *)
Lemma wellKeyed_get (store : LocationStore) (key : string)
    (v : DriverLocation) :
  wellKeyed store -> get store key = Some v ->
  key <> "" /\ key <> "__proto__".
Proof.
  intros [_ Hk] Hget. apply get_In in Hget.
  destruct (Hk _ Hget) as [_ [H1 H2]]. now split.
Qed.

Lemma keyed_assign self d lat lng now :
  d <> "" -> trackerKeyed self ->
  trackerKeyed (persist (assign self d (DriverLocation.mk d lat lng now))).
Proof.
  intros Hd [Hl [Hs Hp]]. unfold assign.
  destruct (get (locations self) d) as [w|] eqn:E.
  - destruct (wellKeyed_get _ Hl E) as [_ Hnp].
    apply keyed_persist; cbn [locations prototype]; [|exact Hp].
    now apply wellKeyed_set.
  - destruct (String.eqb d "__proto__") eqn:Ep.
    + apply String.eqb_eq in Ep.
      apply keyed_persist; cbn [locations prototype]; [exact Hl|].
      intros entry He. now injection He as <-.
    + apply String.eqb_neq in Ep.
      apply keyed_persist; cbn [locations prototype]; [|exact Hp].
      now apply wellKeyed_set.
Qed.

Lemma keyed_handleUpdateLocation now self body :
  trackerKeyed self -> trackerKeyed (fst (handleUpdateLocation now self body)).
Proof.
  intros Hk. unfold handleUpdateLocation.
  destruct (body_driver_id body) as [d|]; [|exact Hk].
  destruct (body_lat body) as [lat|]; [|exact Hk].
  destruct (body_lng body) as [lng|]; [|exact Hk].
  destruct (negb (truthy (Some d))) eqn:E; [exact Hk|].
  cbn [fst]. apply keyed_assign; [|exact Hk].
  apply negb_false_iff in E. unfold truthy in E.
  apply negb_true_iff in E. now apply String.eqb_neq.
Qed.

Lemma keyed_handleRemoveLocation self driverId :
  trackerKeyed self -> trackerKeyed (fst (handleRemoveLocation self driverId)).
Proof.
  intros [Hl [Hs Hp]]. unfold handleRemoveLocation.
  destruct (negb (isTruthy (lookup self driverId))); [exact (conj Hl (conj Hs Hp))|].
  cbn [fst]. apply keyed_persist; cbn [locations prototype]; [|exact Hp].
  now apply wellKeyed_filter.
Qed.

Lemma keyed_handleNearby hav now self body :
  trackerKeyed self -> trackerKeyed (fst (handleNearby hav now self body)).
Proof.
  intros [Hl [Hs Hp]]. unfold handleNearby.
  destruct (query_lat body) as [lat|]; [|exact (conj Hl (conj Hs Hp))].
  destruct (query_lng body) as [lng|]; [|exact (conj Hl (conj Hs Hp))].
  rewrite pruneLoop_filter. cbn [fst snd orb].
  assert (Hf : wellKeyed (filter (kept (now - 5 * 60 * 1000)
                                    (entries (locations self)))
                            (locations self)))
    by now apply wellKeyed_filter.
  destruct (existsb _ (entries (locations self))); cbn [fst].
  - now apply keyed_persist.
  - exact (conj Hf (conj Hs Hp)).
Qed.

Lemma keyed_fetch hav now self request :
  trackerKeyed self -> trackerKeyed (fst (fetch hav now self request)).
Proof.
  intro H. apply keyed_ensureLoaded in H. unfold fetch.
  destruct request as [b|d|d|b|].
  - now apply keyed_handleUpdateLocation.
  - destruct (truthy (Some d)); exact H.
  - destruct (truthy (Some d)); [|exact H].
    now apply keyed_handleRemoveLocation.
  - now apply keyed_handleNearby.
  - exact H.
Qed.

(** *** Persistence *)

Lemma synced_ensureLoaded self :
  synced self ->
  synced (ensureLoaded self) /\ loaded (ensureLoaded self) = true.
Proof.
  unfold synced, ensureLoaded. destruct (loaded self) eqn:E.
  - intro H. rewrite E. now split.
  - intros _. simpl. split; [|reflexivity].
    destruct (storage self); [now left|now right].
Qed.

Lemma synced_persist self :
  loaded self = true ->
  synced (persist self) /\ loaded (persist self) = true.
Proof.
  intro H. unfold synced, persist. simpl. rewrite H. split; [now left|reflexivity].
Qed.

Lemma synced_handleUpdateLocation now self body :
  loaded self = true -> synced self ->
  synced (fst (handleUpdateLocation now self body))
  /\ loaded (fst (handleUpdateLocation now self body)) = true.
Proof.
  intros Hl Hs. unfold handleUpdateLocation.
  destruct (body_driver_id body) as [d|]; [|now split].
  destruct (body_lat body) as [lat|]; [|now split].
  destruct (body_lng body) as [lng|]; [|now split].
  destruct (negb (truthy (Some d))); [now split|].
  cbn [fst]. apply synced_persist. now rewrite loaded_assign.
Qed.

Lemma synced_handleRemoveLocation self driverId :
  loaded self = true -> synced self ->
  synced (fst (handleRemoveLocation self driverId))
  /\ loaded (fst (handleRemoveLocation self driverId)) = true.
Proof.
  intros Hl Hs. unfold handleRemoveLocation.
  destruct (negb (isTruthy (lookup self driverId))); [now split|].
  cbn [fst]. now apply synced_persist.
Qed.

Lemma synced_handleNearby hav now self body :
  loaded self = true -> synced self ->
  synced (fst (handleNearby hav now self body))
  /\ loaded (fst (handleNearby hav now self body)) = true.
Proof.
  intros Hl Hs. unfold handleNearby.
  destruct (query_lat body) as [lat|]; [|now split].
  destruct (query_lng body) as [lng|]; [|now split].
  pose proof (pruneLoop_unpruned (now - 5 * 60 * 1000) (locations self))
    as Hun.
  destruct (pruneLoop _ _ _ _) as [locations' pruned].
  cbn [fst snd] in *. destruct pruned.
  - now apply synced_persist.
  - rewrite (Hun eq_refl). split; [|exact Hl].
    destruct self as [st locs ld pr]. simpl in *. exact Hs.
Qed.

Lemma synced_fetch hav now self request :
  synced self -> synced (fst (fetch hav now self request)).
Proof.
  intro H. apply synced_ensureLoaded in H. destruct H as [Hs Hl].
  unfold fetch. destruct request as [b|d|d|b|].
  - now apply synced_handleUpdateLocation.
  - destruct (truthy (Some d)); exact Hs.
  - destruct (truthy (Some d)); [|exact Hs].
    now apply synced_handleRemoveLocation.
  - now apply synced_handleNearby.
  - exact Hs.
Qed.

Lemma trackerAt_keyed hav t self :
  trackerAt hav t self -> trackerKeyed self.
Proof.
  induction 1 as [now|t now self request Hrun IH Hle|t self Hrun IH].
  - split; [|split]; simpl;
      [apply wellKeyed_nil|intros stored H; discriminate H
      |intros e He; discriminate He].
  - now apply keyed_fetch.
  - destruct IH as [_ [Hs _]]. split; [|split]; simpl;
      [apply wellKeyed_nil|exact Hs|intros e He; discriminate He].
Qed.

Lemma trackerAt_synced hav t self :
  trackerAt hav t self -> synced self.
Proof.
  induction 1 as [now|t now self request Hrun IH Hle|t self Hrun IH].
  - reflexivity.
  - now apply synced_fetch.
  - reflexivity.
Qed.

(** *** Reading *)

(** What is inherited depends on the prototype alone. *)
Lemma inherited_prototype (self self' : DriverTracker.t) (d : string) :
  prototype self' = prototype self -> inherited self' d = inherited self d.
Proof. unfold inherited. now intros ->. Qed.

Lemma handleGetLocation_ext (self self' : DriverTracker.t) (d : string) :
  get (locations self') d = get (locations self) d ->
  prototype self' = prototype self ->
  handleGetLocation self' d = handleGetLocation self d.
Proof.
  intros Hg Hp. unfold handleGetLocation, lookup.
  now rewrite Hg, (inherited_prototype self self' d Hp).
Qed.

(** A Get that answers with an entry found it as an own property, or
    was asked for ['__proto__'] and found the prototype. *)
Lemma handleGetLocation_entry (self : DriverTracker.t) (d : string)
    (entry : DriverLocation) :
  handleGetLocation self d = jsonResponse (SuccessLocation entry) 200 ->
  get (locations self) d = Some entry
  \/ (d = "__proto__" /\ prototype self = Some entry).
Proof.
  unfold handleGetLocation, lookup.
  destruct (get (locations self) d) as [w|] eqn:E.
  - cbn. intro H. injection H as <-. now left.
  - unfold inherited.
    destruct (String.eqb d "__proto__") eqn:Ep.
    + apply String.eqb_eq in Ep.
      destruct (prototype self) as [e|]; cbn; intro H; [|discriminate H].
      injection H as <-. now right.
    + destruct (prototype self) as [e|];
        repeat match goal with
               | |- context [String.eqb d ?x] => destruct (String.eqb d x)
               end;
        unfold fromObjectPrototype;
        try destruct (existsb _ _); cbn;
        try destruct (negb _); intro H; discriminate H.
Qed.

Lemma handleGetLocation_assigned (self : DriverTracker.t) (d : string)
    (entry : DriverLocation) :
  handleGetLocation (persist (assign self d entry)) d
  = jsonResponse (SuccessLocation entry) 200.
Proof.
  unfold handleGetLocation.
  assert (Hl : lookup (persist (assign self d entry)) d
               = Some (EntryValue entry)).
  { rewrite <- (lookup_assign self d entry). reflexivity. }
  now rewrite Hl.
Qed.

Lemma delete_absent (store : LocationStore) (d : string) :
  get store d = None -> delete store d = store.
Proof.
  intro Hn. unfold delete. apply filter_all. intros [k v] Hin. cbn [fst].
  apply negb_true_iff. apply String.eqb_neq. intros ->.
  apply (get_None_keys _ _ Hn). apply in_map_iff. now exists (d, v).
Qed.
End TrackerInvariants.

Import StoreSpec KeyFacts TrackerInvariants.

Lemma tracker_tied_run :
  trackerAt Examples.meridianDistance 1000 Examples.tracker_tied.
Proof.
  unfold Examples.tracker_tied.
  apply (@tracker_fetch Examples.meridianDistance 0 1000); [|lia].
  apply (@tracker_fetch Examples.meridianDistance 0 0); [|lia].
  apply tracker_new.
Qed.

(** X1.  In every state the durable object reaches, the live mapping
    and the stored one hold at most one entry per driver, every entry
    is filed under the [driver_id] it carries, no key is empty or
    ['__proto__'], and an entry that has become the prototype of the
    mapping carries the id ['__proto__'].  A Get that answers with an
    entry answers with the entry of the driver asked for; and for an id
    under which the mapping inherits nothing, a Get answers 404 exactly
    when the mapping holds no entry for it. *)
Theorem tracker_entries_keyed
    (haversineDistance : number -> number -> number -> number -> number)
    (t : timestamp) (self : DriverTracker.t) :
  trackerAt haversineDistance t self ->
  trackerKeyed self
  /\ (forall d entry,
        handleGetLocation self d = jsonResponse (SuccessLocation entry) 200 ->
        DriverLocation.driver_id entry = d)
  /\ (forall d, ownOnly d ->
        (handleGetLocation self d
         = jsonResponse (ErrorBody "Driver not found") 404
         <-> LocationStore.get (locations self) d = None)).
Proof.
  intro Hrun. pose proof (trackerAt_keyed Hrun) as Hk.
  split; [exact Hk|]. destruct Hk as [[_ Hkeys] [_ Hproto]]. split.
  - intros d entry Hget. apply handleGetLocation_entry in Hget.
    destruct Hget as [Hown|[-> Hp]].
    + apply get_In in Hown. exact (proj1 (Hkeys _ Hown)).
    + now apply Hproto.
  - intros d Hd. split.
    + intro H404.
      destruct (LocationStore.get (locations self) d) as [v|] eqn:E;
        [|reflexivity].
      rewrite (handleGetLocation_own self d E) in H404. discriminate H404.
    + intro Hnone. now apply handleGetLocation_absent.
Qed.

Lemma tracker_entries_keyed_witness :
  trackerAt Examples.meridianDistance 1000 Examples.tracker_tied
  /\ map fst (locations Examples.tracker_tied) = ["driver-b"; "driver-a"]
  /\ trackerKeyed Examples.tracker_tied.
Proof.
  pose proof tracker_tied_run as Hrun.
  split; [exact Hrun|]. split; [reflexivity|].
  exact (proj1 (tracker_entries_keyed Hrun)).
Defined.

(** X2.  The stored copy mirrors the live mapping: a durable object
    dropped from memory and constructed again over the storage it left
    holds the same entries, and when the mapping still has
    [Object.prototype] as its prototype it answers any request exactly
    as the live object would and ends in the same state. *)
Theorem restart_loses_nothing
    (haversineDistance : number -> number -> number -> number -> number)
    (t now : timestamp) (self : DriverTracker.t) (request : Request) :
  trackerAt haversineDistance t self ->
  locations (ensureLoaded (constructor (storage self)))
  = locations (ensureLoaded self)
  /\ (prototype self = None ->
      fetch haversineDistance now (constructor (storage self)) request
      = fetch haversineDistance now self request).
Proof.
  intro Hrun. apply trackerAt_synced in Hrun.
  unfold synced in Hrun. destruct self as [st locs ld pr]. simpl in *.
  split.
  - unfold ensureLoaded, constructor. simpl. destruct ld.
    + destruct Hrun as [->|[-> ->]]; reflexivity.
    + reflexivity.
  - intros ->.
    assert (Heq : ensureLoaded (constructor st)
                  = ensureLoaded (mk st locs ld None)).
    { unfold ensureLoaded, constructor. simpl. destruct ld.
      - destruct Hrun as [->|[-> ->]]; reflexivity.
      - reflexivity. }
    unfold fetch. now rewrite Heq.
Qed.

Lemma restart_loses_nothing_witness :
  trackerAt Examples.meridianDistance 1000 Examples.tracker_tied
  /\ prototype Examples.tracker_tied = None
  /\ snd (fetch Examples.meridianDistance 2000
            (constructor (storage Examples.tracker_tied))
            (GET_location "driver-a"))
     = jsonResponse
         (SuccessLocation (DriverLocation.mk "driver-a" 1 1 1000)) 200.
Proof.
  pose proof tracker_tied_run as Hrun.
  split; [exact Hrun|]. split; [reflexivity|].
  rewrite (proj2 (@restart_loses_nothing Examples.meridianDistance 1000 2000
                    Examples.tracker_tied (GET_location "driver-a") Hrun)
             eq_refl).
  reflexivity.
Defined.

(** X3.  A removal is refused with 404, and changes nothing, exactly
    when the mapping answers nothing truthy for the id.  Removing a
    driver that has an entry answers 200, deletes the entry, leaves the
    stored copy equal to the live mapping and every other id answered
    as before; when the mapping inherits nothing under the id, a Get
    for it then answers 404 and so does a second removal.  An id that
    is only inherited is answered 200 as well: nothing is deleted and
    the mapping is written to storage. *)
Theorem remove_location
    (self : DriverTracker.t) (d : string) :
  (isTruthy (lookup self d) = false ->
   handleRemoveLocation self d
   = (self, jsonResponse (ErrorBody "Driver not found") 404))
  /\ (forall entry,
        LocationStore.get (locations self) d = Some entry ->
        let out := handleRemoveLocation self d in
        snd out = jsonResponse Success 200
        /\ LocationStore.get (locations (fst out)) d = None
        /\ storage (fst out) = Some (locations (fst out))
        /\ (forall other, other <> d ->
              handleGetLocation (fst out) other = handleGetLocation self other)
        /\ (ownOnly d ->
            handleGetLocation (fst out) d
            = jsonResponse (ErrorBody "Driver not found") 404
            /\ snd (handleRemoveLocation (fst out) d)
               = jsonResponse (ErrorBody "Driver not found") 404))
  /\ (LocationStore.get (locations self) d = None ->
      isTruthy (lookup self d) = true ->
      handleRemoveLocation self d
      = (persist self, jsonResponse Success 200)).
Proof.
  split; [|split].
  - intro Hfalsy. unfold handleRemoveLocation. now rewrite Hfalsy.
  - intros entry Hsome. cbv zeta.
    assert (Hout : handleRemoveLocation self d
                   = (mk (Some (LocationStore.delete (locations self) d))
                        (LocationStore.delete (locations self) d)
                        (loaded self) (prototype self),
                      jsonResponse Success 200)).
    { unfold handleRemoveLocation.
      now rewrite (@lookup_own self d entry Hsome). }
    rewrite Hout. cbn [fst snd locations storage].
    split; [reflexivity|]. split; [apply get_delete_same|].
    split; [reflexivity|]. split.
    + intros other Hne. apply handleGetLocation_ext; cbn [locations prototype];
        [now apply get_delete_other|reflexivity].
    + intro Hown.
      assert (Hnone : LocationStore.get
                        (locations
                           (mk (Some (LocationStore.delete (locations self) d))
                              (LocationStore.delete (locations self) d)
                              (loaded self) (prototype self))) d = None)
        by (cbn [locations]; apply get_delete_same).
      split.
      * exact (@handleGetLocation_absent _ d Hnone Hown).
      * unfold handleRemoveLocation.
        now rewrite (@lookup_absent _ d Hnone Hown).
  - intros Hnone Htruthy. unfold handleRemoveLocation. rewrite Htruthy.
    cbn [negb]. rewrite (delete_absent _ _ Hnone).
    now destruct self.
Qed.

Lemma remove_location_witness :
  let out := handleRemoveLocation Examples.tracker_tied "driver-b" in
  ownOnly "driver-b"
  /\ snd out = jsonResponse Success 200
  /\ handleGetLocation (fst out) "driver-b"
     = jsonResponse (ErrorBody "Driver not found") 404
  /\ handleGetLocation (fst out) "driver-a"
     = handleGetLocation Examples.tracker_tied "driver-a"
  /\ handleRemoveLocation Examples.tracker_tied "driver-z"
     = (Examples.tracker_tied, jsonResponse (ErrorBody "Driver not found") 404).
Proof.
  cbv zeta.
  assert (Hown : ownOnly "driver-b") by (apply ownOnly_driver; reflexivity).
  destruct (remove_location Examples.tracker_tied "driver-b") as [_ [Hsome _]].
  destruct (remove_location Examples.tracker_tied "driver-z") as [Hnone _].
  specialize (Hsome (DriverLocation.mk "driver-b" 1 1 0) eq_refl).
  cbv zeta in Hsome. destruct Hsome as [H200 [_ [_ [Hother H404]]]].
  split; [exact Hown|]. split; [exact H200|].
  split; [exact (proj1 (H404 Hown))|].
  split; [apply Hother; discriminate|].
  apply Hnone. reflexivity.
Defined.

(** X4.  An upsert request for one driver, accepted or rejected, leaves
    the entry the mapping holds for any other driver in place, so that
    a Get for that driver returns it as before; and unless the upsert
    names ['__proto__'], which replaces the prototype of the mapping,
    it leaves unchanged what a Get answers for every other id. *)
Theorem upsert_leaves_others
    (haversineDistance : number -> number -> number -> number -> number)
    (now : timestamp) (self : DriverTracker.t)
    (body : UpdateLocationBody) (other : string) :
  body_driver_id body <> Some other ->
  let after := fst (fetch haversineDistance now self (PUT_location body)) in
  (forall entry,
      LocationStore.get (locations (ensureLoaded self)) other = Some entry ->
      handleGetLocation after other
      = jsonResponse (SuccessLocation entry) 200)
  /\ (body_driver_id body <> Some "__proto__" ->
      handleGetLocation after other
      = handleGetLocation (ensureLoaded self) other).
Proof.
  intro Hne. cbv zeta. unfold fetch, handleUpdateLocation.
  set (self0 := ensureLoaded self).
  assert (Hskip : forall P : DriverTracker.t -> Prop,
            P self0 ->
            (forall d lat lng,
                body_driver_id body = Some d ->
                P (persist (assign self0 d (DriverLocation.mk d lat lng now)))) ->
            P (fst match body_driver_id body, body_lat body, body_lng body with
                   | Some driver_id, Some lat, Some lng =>
                       if negb (truthy (Some driver_id))
                       then (self0, jsonResponse (ErrorBody "Missing fields") 400)
                       else
                         (persist (assign self0 driver_id
                                     (DriverLocation.mk driver_id lat lng now)),
                          jsonResponse
                            (SuccessLocation
                               (DriverLocation.mk driver_id lat lng now)) 200)
                   | _, _, _ =>
                       (self0, jsonResponse (ErrorBody "Missing fields") 400)
                   end)).
  { intros P H0 H1.
    destruct (body_driver_id body) as [d|]; [|exact H0].
    destruct (body_lat body) as [lat|]; [|exact H0].
    destruct (body_lng body) as [lng|]; [|exact H0].
    destruct (negb (truthy (Some d))); [exact H0|].
    now apply H1. }
  split.
  - intros entry Hget. apply Hskip.
    + now apply handleGetLocation_own.
    + intros d lat lng Hd. apply handleGetLocation_own.
      cbn [persist locations]. unfold assign.
      assert (Hdo : other <> d) by (intros ->; apply Hne; exact Hd).
      destruct (LocationStore.get (locations self0) d);
        [|destruct (String.eqb d "__proto__")]; cbn [locations];
        rewrite ?get_set_other by exact Hdo; exact Hget.
  - intro Hproto.
    apply (Hskip (fun s => handleGetLocation s other
                           = handleGetLocation self0 other)).
    + reflexivity.
    + intros d lat lng Hd.
      assert (Hdo : other <> d) by (intros ->; apply Hne; exact Hd).
      assert (Hp : String.eqb d "__proto__" = false).
      { apply String.eqb_neq. intros ->. apply Hproto. exact Hd. }
      unfold assign. rewrite Hp.
      destruct (LocationStore.get (locations self0) d);
        apply handleGetLocation_ext; cbn [persist locations prototype];
        try reflexivity; now apply get_set_other.
Qed.

Lemma upsert_leaves_others_witness :
  handleGetLocation
    (fst (fetch Examples.meridianDistance 3000 Examples.tracker_tied
            (Examples.put "driver-a" 5 6))) "driver-b"
  = jsonResponse (SuccessLocation (DriverLocation.mk "driver-b" 1 1 0)) 200.
Proof.
  unfold Examples.put.
  assert (Hne : body_driver_id
                  (mkUpdateBody (Some "driver-a") (Some 5) (Some 6))
                <> Some "driver-b") by discriminate.
  apply (proj1 (@upsert_leaves_others Examples.meridianDistance 3000
                  Examples.tracker_tied _ "driver-b" Hne)).
  reflexivity.
Defined.

(** X5.  On a mapping without duplicate keys a nearby query returns
    exactly the entries that are not stale and lie within the radius,
    each with its distance from the query point: none is missing and
    none is beyond the radius. *)
Theorem nearby_exact
    (haversineDistance : number -> number -> number -> number -> number)
    (now : timestamp) (self : DriverTracker.t)
    (lat lng : number) (radius : option number) :
  NoDup (map fst (locations self)) ->
  let r := match radius with Some r => r | None => 10 end in
  exists data,
    body (snd (handleNearby haversineDistance now self
                 (mkNearbyBody (Some lat) (Some lng) radius)))
    = SuccessNearby data
    /\ forall e,
         In e data
         <-> exists v,
               In v (LocationStore.values (locations self))
               /\ ~ stale now v
               /\ e = entryOf haversineDistance lat lng v
               /\ distance_km e <= r.
Proof.
  intros Hnd r. unfold handleNearby. cbn [query_lat query_lng radius_km].
  rewrite pruneLoop_filter. cbn [fst snd body].
  eexists. split; [reflexivity|]. intro e.
  unfold nearbyOf. rewrite (Array_sort_In distance_km).
  rewrite filter_In, in_map_iff. fold r. split.
  - intros [[v [Hv Hin]] Hle]. exists v.
    unfold LocationStore.values in Hin. apply in_map_iff in Hin.
    destruct Hin as [[k u] [Hu Hin]]. simpl in Hu. subst u.
    apply filter_In in Hin. destruct Hin as [Hin Hk].
    split; [unfold LocationStore.values; apply in_map_iff; now exists (k, v)|].
    split.
    + intro Hs. apply stale_staleb in Hs.
      unfold kept in Hk. apply negb_true_iff in Hk.
      assert (Hex : existsb (fun e0 => staleb (now - 5 * 60 * 1000) (snd e0)
                                       && String.eqb (fst (k, v)) (fst e0))
                      (LocationStore.entries (locations self)) = true).
      { apply existsb_exists. exists (k, v). split; [exact Hin|].
        cbn [fst snd]. now rewrite Hs, String.eqb_refl. }
      congruence.
    + split; [now symmetry|]. now apply Qle_bool_iff.
  - intros [v [Hin [Hfresh [-> Hle]]]]. split.
    + exists v. split; [reflexivity|].
      unfold LocationStore.values in *. apply in_map_iff in Hin.
      destruct Hin as [[k u] [Hu Hin]]. simpl in Hu. subst u.
      apply in_map_iff. exists (k, v). split; [reflexivity|].
      apply filter_In. split; [exact Hin|].
      apply (@pruned_keeps_fresh _ _ _ _ Hnd Hin).
      destruct (staleb (now - 5 * 60 * 1000) v) eqn:E; [|reflexivity].
      apply stale_staleb in E. contradiction.
    + now apply Qle_bool_iff.
Qed.

Lemma nearby_exact_witness :
  exists data,
    body (snd (handleNearby Examples.meridianDistance 2000 Examples.tracker_tied
                 (mkNearbyBody (Some 1) (Some 1) None)))
    = SuccessNearby data
    /\ In (entryOf Examples.meridianDistance 1 1
             (DriverLocation.mk "driver-a" 1 1 1000)) data.
Proof.
  assert (Hnd : NoDup (map fst (locations Examples.tracker_tied))).
  { simpl. repeat constructor; simpl; intuition discriminate. }
  destruct (@nearby_exact Examples.meridianDistance 2000 Examples.tracker_tied
              1 1 None Hnd) as [data [Hbody Hin]].
  exists data. split; [exact Hbody|].
  apply Hin. exists (DriverLocation.mk "driver-a" 1 1 1000).
  split; [right; left; reflexivity|].
  split; [unfold stale; simpl; lia|].
  split; [reflexivity|]. unfold Qle. simpl. lia.
Defined.

(** X6.  On a mapping without duplicate keys a nearby query leaves the
    entry of every driver that is not stale in place, and when no
    entry is stale it changes nothing at all, storage included. *)
Theorem nearby_keeps_fresh
    (haversineDistance : number -> number -> number -> number -> number)
    (now : timestamp) (self : DriverTracker.t) (body : NearbyBody) :
  NoDup (map fst (locations self)) ->
  let out := handleNearby haversineDistance now self body in
  (forall d entry,
      LocationStore.get (locations self) d = Some entry ->
      ~ stale now entry ->
      handleGetLocation (fst out) d = handleGetLocation self d)
  /\ ((forall kv, In kv (locations self) -> ~ stale now (snd kv)) ->
      fst out = self).
Proof.
  intros Hnd. cbv zeta. unfold handleNearby.
  destruct (query_lat body) as [lat|]; [|now split].
  destruct (query_lng body) as [lng|]; [|now split].
  split.
  - intros d entry Hget Hfresh. rewrite pruneLoop_filter. cbn [fst snd orb].
    assert (Hsame : LocationStore.get
                      (filter (kept (now - 5 * 60 * 1000)
                                 (LocationStore.entries (locations self)))
                         (locations self)) d
                    = LocationStore.get (locations self) d).
    { apply get_filter. apply get_In in Hget.
      apply (@pruned_keeps_fresh _ _ _ _ Hnd Hget).
      destruct (staleb (now - 5 * 60 * 1000) entry) eqn:E; [|reflexivity].
      apply stale_staleb in E. contradiction. }
    rewrite (@handleGetLocation_own self d entry Hget).
    destruct (existsb _ (LocationStore.entries (locations self)));
      cbn [fst]; apply handleGetLocation_own; cbn [persist locations];
      now rewrite Hsame.
  - intro Hall.
    pose proof (pruneLoop_unpruned (now - 5 * 60 * 1000) (locations self))
      as Hun.
    assert (Hflag : snd (pruneLoop (now - 5 * 60 * 1000)
                           (LocationStore.entries (locations self))
                           (locations self) false) = false).
    { rewrite pruneLoop_filter. simpl.
      destruct (existsb _ (LocationStore.entries (locations self))) eqn:E;
        [|reflexivity].
      apply existsb_exists in E. destruct E as [kv [Hin Hs]].
      apply stale_staleb in Hs. exfalso. exact (Hall kv Hin Hs). }
    specialize (Hun Hflag).
    destruct (pruneLoop _ _ _ _) as [locations' pruned].
    cbn [fst snd] in *. subst. destruct self; reflexivity.
Qed.

Lemma nearby_keeps_fresh_witness :
  fst (handleNearby Examples.meridianDistance 2000 Examples.tracker_tied
         Examples.query_1_1)
  = Examples.tracker_tied.
Proof.
  assert (Hnd : NoDup (map fst (locations Examples.tracker_tied))).
  { simpl. repeat constructor; simpl; intuition discriminate. }
  apply (proj2 (@nearby_keeps_fresh Examples.meridianDistance 2000
                  Examples.tracker_tied Examples.query_1_1 Hnd)).
  intros kv [<-|[<-|[]]]; unfold stale; simpl; lia.
Defined.

(* ================================================================= *)
(** ** Reading orders *)

Module QueryFacts.
Import OrderQueries OrderViews OrderSpec.











End QueryFacts.
Import OrderQueries OrderViews OrderSpec QueryFacts.





(** X9.  [getOrder] answers 404 for an unknown order and 403 for an
    actor who is neither admin nor the order's customer, merchant or
    driver; otherwise it returns the order with exactly the items of
    that order.  Whenever it refuses, [updateOrderStatus] refuses the
    same actor with the same exception and writes nothing. *)
Theorem getOrder_visibility
    (db : D1Database) (order_items : list OrderItemRow)
    (orderId user : string) (role : Role) :
  (findById db orderId = None ->
   getOrder db order_items orderId user role = Throw NotFound)
  /\ (forall order, findById db orderId = Some order ->
        (~ party order user role ->
         getOrder db order_items orderId user role = Throw AccessDenied)
        /\ (party order user role ->
            exists its,
              getOrder db order_items orderId user role = Ok (order, its)
              /\ forall it, In it its
                   <-> In it order_items /\ OrderItemRow.order_id it = orderId))
  /\ (forall e now target,
        getOrder db order_items orderId user role = Throw e ->
        updateOrderStatus now db orderId target user role = (db, Throw e)).
Proof.
  unfold getOrder. fold (isParty).
  change (fun (order : OrderRow) =>
            match role with admin => true | _ => false end
            || String.eqb (OrderRow.customer_id order) user
            || String.eqb (OrderRow.merchant_id order) user
            || option_string_eqb (OrderRow.driver_id order) user)
    with (fun order => isParty order user role).
  split; [|split].
  - intro H. now rewrite H.
  - intros order H. rewrite H. split.
    + intro Hn. apply isParty_not_party in Hn.
      unfold isParty in Hn. now rewrite Hn.
    + intro Hp. apply isParty_party in Hp. unfold isParty in Hp. rewrite Hp.
      eexists. split; [reflexivity|]. intro it. unfold findItems.
      rewrite filter_In, String.eqb_eq. reflexivity.
  - intros e now target. unfold updateOrderStatus.
    destruct (findById db orderId) as [order|].
    + unfold isParty.
      destruct (negb _); [intro H; injection H as <-; reflexivity|discriminate].
    + intro H. injection H as <-. reflexivity.
Qed.

Lemma getOrder_visibility_witness :
  getOrder Examples2.db_history Examples2.items_history "o-1" "driver-1" driver
  = Ok (Examples2.orderAt "o-1" "customer-1" (Some "driver-1") delivered 10,
        [OrderItemRow.mk "i-1" "o-1" "item-a" 2 5;
         OrderItemRow.mk "i-3" "o-1" "item-c" 1 1])
  /\ getOrder Examples2.db_history Examples2.items_history "o-3" "driver-1" driver
     = Throw AccessDenied
  /\ updateOrderStatus 50 Examples2.db_history "o-3" picked_up "driver-1" driver
     = (Examples2.db_history, Throw AccessDenied).
Proof.
  destruct (getOrder_visibility Examples2.db_history Examples2.items_history
              "o-3" "driver-1" driver) as [_ [Hsome Hsame]].
  destruct (Hsome (Examples2.orderAt "o-3" "customer-1" None created 30) eq_refl)
    as [Hdenied _].
  assert (Hd : getOrder Examples2.db_history Examples2.items_history "o-3"
                 "driver-1" driver = Throw AccessDenied).
  { apply Hdenied. intros [H|[H|[H|H]]]; discriminate H. }
  split; [reflexivity|]. split; [exact Hd|].
  apply Hsame. exact Hd.
Defined.

(* ================================================================= *)
(** ** Writing orders: create, status updates, dispatch *)

Module WriteFacts.
Import Concurrent.

Lemma findById_other_row (db : D1Database) (id : string) (o : OrderRow) :
  findById db id = Some o -> OrderRow.id o = id.
Proof. intro H. now apply findById_In in H. Qed.

(** [findById] after [updateStatus]. *)
Lemma updateStatus_findById now db id status driverId other :
  findById (fst (updateStatus now db id status driverId)) other
  = if String.eqb other id then
      option_map
        (fun o => match driverId with
                  | Some d => setStatusAndDriver now status d o
                  | None => setStatus now status o
                  end)
        (findById db id)
    else findById db other.
Proof.
  unfold updateStatus. cbn [fst]. rewrite findById_map.
  - destruct (String.eqb other id) eqn:E.
    + apply String.eqb_eq in E. subst other.
      destruct (findById db id) as [o|] eqn:Ef; [|reflexivity].
      simpl. rewrite (findById_other_row _ _ Ef), String.eqb_refl.
      reflexivity.
    + destruct (findById db other) as [o|] eqn:Ef; [|reflexivity].
      simpl. rewrite (findById_other_row _ _ Ef), E. reflexivity.
  - intro o. destruct (String.eqb (OrderRow.id o) id); [|reflexivity].
    destruct driverId; reflexivity.
Qed.

Lemma findById_app_fresh (db : D1Database) (row : OrderRow) (other : string) :
  findById db (OrderRow.id row) = None ->
  findById (mkDB (orders db ++ [row]) (driver_status db)) other
  = if String.eqb other (OrderRow.id row) then Some row
    else findById db other.
Proof.
  unfold findById. simpl. intro Hfresh.
  induction (orders db) as [|o rest IH]; simpl in *.
  - rewrite (String.eqb_sym other). now destruct (String.eqb _ _).
  - destruct (String.eqb (OrderRow.id o) (OrderRow.id row)) eqn:E;
      [discriminate Hfresh|].
    destruct (String.eqb (OrderRow.id o) other) eqn:E2.
    + destruct (String.eqb other (OrderRow.id row)) eqn:E3; [|reflexivity].
      apply String.eqb_eq in E2, E3.
      rewrite <- E3, <- E2, String.eqb_refl in E. discriminate E.
    + now apply IH.
Qed.
End WriteFacts.
Import WriteFacts.

Section SortHead.
Context {A : Type}.
Variable key : A -> number.

(** The head of the sorted array is the first element of least key. *)
Lemma Array_sort_head (l : list A) (c : A) (rest : list A) :
  Array_sort (fun a b => key a - key b) l = c :: rest ->
  exists before after,
    l = before ++ c :: after
    /\ (forall x, In x before -> key c < key x)
    /\ (forall x, In x after -> key c <= key x).
Proof.
  revert c rest. induction l as [|x xs IH]; intros c rest; [discriminate|].
  simpl. destruct (Array_sort (fun a b => key a - key b) xs) as [|y ys] eqn:E.
  - simpl. intro H. injection H as <- <-.
    assert (Hnil : xs = []).
    { apply (f_equal (@List.length A)) in E.
      rewrite (Array_sort_length key) in E.
      now destruct xs. }
    subst xs. exists [], []. repeat split; intros z [].
  - destruct (IH y ys eq_refl) as [before [after [Hxs [Hb Ha]]]].
    simpl. destruct (Qle_bool (key x - key y) 0) eqn:Ec.
    + intro H. injection H as <- <-.
      apply (compare_nonpositive key) in Ec.
      exists [], xs. split; [reflexivity|]. split; [intros z []|].
      intros z Hz. rewrite Hxs in Hz. apply in_app_iff in Hz.
      eapply Qle_trans; [exact Ec|].
      destruct Hz as [Hz|[<-|Hz]].
      * apply Qlt_le_weak. now apply Hb.
      * apply Qle_refl.
      * now apply Ha.
    + intro H. injection H as <- _.
      apply (compare_positive key) in Ec. destruct Ec as [Hle Hne].
      exists (x :: before), after. split; [now rewrite Hxs|].
      split; [|exact Ha].
      intros z [<-|Hz]; [|now apply Hb].
      apply Qle_lteq in Hle. destruct Hle as [Hlt|Heq]; [exact Hlt|].
      exfalso. apply Hne. now symmetry.
Qed.
End SortHead.

(** X10.  [updateOrderStatus] succeeds exactly when the order exists,
    the actor is a party to it, the role's table lists the target and
    the ordering guard accepts the step.  It then returns the order
    with the new status and the time of the call as [updated_at], every
    other field as it was; a later [findById] returns that row; no other
    order and no ledger row changes. *)
Theorem updateOrderStatus_success
    (now : timestamp) (db : D1Database) (orderId : string)
    (target : OrderStatus) (user : string) (role : Role) :
  (forall order,
      findById db orderId = Some order ->
      party order user role ->
      In target (ALLOWED_TRANSITIONS role) ->
      isValidTransition (OrderRow.status order) target = true ->
      let out := updateOrderStatus now db orderId target user role in
      snd out = Ok (Some (setStatus now target order))
      /\ findById (fst out) orderId = Some (setStatus now target order)
      /\ (forall other, other <> orderId ->
            findById (fst out) other = findById db other)
      /\ driver_status (fst out) = driver_status db)
  /\ (forall db' r,
        updateOrderStatus now db orderId target user role = (db', Ok r) ->
        exists order,
          findById db orderId = Some order
          /\ party order user role
          /\ In target (ALLOWED_TRANSITIONS role)
          /\ isValidTransition (OrderRow.status order) target = true).
Proof.
  split.
  - intros order Hfind Hp Hin Hv. cbv zeta. unfold updateOrderStatus.
    apply isParty_party in Hp. apply includes_In in Hin.
    rewrite Hfind, Hp, Hin, Hv. cbn [negb].
    pose proof (updateStatus_findById now db orderId target None) as Hf.
    destruct (updateStatus now db orderId target None) as [db' updated] eqn:E.
    assert (Hup : updated = findById db' orderId).
    { unfold updateStatus in E. now injection E as <- <-. }
    cbn [fst snd] in *.
    assert (Hrow : findById db' orderId = Some (setStatus now target order)).
    { rewrite Hf, String.eqb_refl, Hfind. reflexivity. }
    split; [now rewrite Hup, Hrow|]. split; [exact Hrow|]. split.
    + intros other Hne. rewrite Hf.
      apply String.eqb_neq in Hne. now rewrite Hne.
    + unfold updateStatus in E. now injection E as <- _.
  - intros db' r. unfold updateOrderStatus.
    destruct (findById db orderId) as [order|]; [|discriminate].
    destruct (negb (isParty order user role)) eqn:Ep; [discriminate|].
    destruct (negb (includes (ALLOWED_TRANSITIONS role) target)) eqn:Ei;
      [discriminate|].
    destruct (negb (isValidTransition (OrderRow.status order) target)) eqn:Ev;
      [discriminate|].
    intros _. exists order. split; [reflexivity|].
    apply negb_false_iff in Ep, Ei, Ev.
    split; [now apply isParty_party|]. split; [now apply includes_In|exact Ev].
Qed.

Lemma updateOrderStatus_success_witness :
  let out := updateOrderStatus 9 Examples.db_created "order-1" accepted
               "merchant-1" merchant in
  snd out = Ok (Some (setStatus 9 accepted Examples.order1))
  /\ findById (fst out) "order-1" = Some (setStatus 9 accepted Examples.order1).
Proof.
  destruct (updateOrderStatus_success 9 Examples.db_created "order-1" accepted
              "merchant-1" merchant) as [Hok _].
  assert (Hp : party Examples.order1 "merchant-1" merchant)
    by (right; right; left; reflexivity).
  assert (Hin : In accepted (ALLOWED_TRANSITIONS merchant)) by (left; reflexivity).
  specialize (Hok Examples.order1 eq_refl Hp Hin eq_refl).
  cbv zeta in *. destruct Hok as [H1 [H2 _]]. now split.
Defined.

(** X11.  [updateStatus] returns what [findById] then finds for that
    id: the row with the new status, the driver when one is given and
    the new [updated_at]; every other order reads as before, the number
    of orders and the ledger do not change; for an id no order has it
    returns null and leaves the database as it was. *)
Theorem updateStatus_lookup
    (now : timestamp) (db : D1Database) (id : string)
    (status : OrderStatus) (driverId : option string) :
  let out := updateStatus now db id status driverId in
  snd out = findById (fst out) id
  /\ (forall other,
        findById (fst out) other
        = if String.eqb other id then
            option_map
              (fun o => match driverId with
                        | Some d => setStatusAndDriver now status d o
                        | None => setStatus now status o
                        end)
              (findById db id)
          else findById db other)
  /\ List.length (orders (fst out)) = List.length (orders db)
  /\ driver_status (fst out) = driver_status db
  /\ (findById db id = None -> out = (db, None)).
Proof.
  cbv zeta. split; [reflexivity|]. split; [apply updateStatus_findById|].
  split; [simpl; apply length_map|]. split; [reflexivity|].
  intro Hnone.
  assert (Hsame : fst (updateStatus now db id status driverId) = db).
  { unfold updateStatus. cbn [fst]. destruct db as [os ds]. simpl. f_equal.
    unfold findById in Hnone. simpl in Hnone.
    rewrite <- (map_id os) at 2. apply map_ext_in. intros o Hin.
    now rewrite (find_none _ _ Hnone o Hin). }
  unfold updateStatus in *. cbn [fst] in Hsame. rewrite Hsame.
  now rewrite Hnone.
Qed.

(** X12.  [createOrder] when D1 refuses the rows (an id already
    taken, a [customer_id] or [merchant_id] that is no user, a CHECK
    that fails) throws what D1 threw, writes nothing and starts no
    dispatch.  When D1 accepts them, for an id no order has yet, it
    inserts an order in status ['created'] with no driver, which
    [findById] then returns; the orders already there read as before,
    the ledger is untouched, and the automatic dispatch is left running
    on the new row. *)
Theorem createOrder_inserts
    (now : timestamp) (orderId : string) (db : D1Database)
    (customerId : string) (input : CreateOrderInput) :
  (forall e,
     OrderCreation.createOrder (Some e) now orderId db customerId input
     = (db, Throw e, None))
  /\ (findById db orderId = None ->
      let out :=
        OrderCreation.createOrder None now orderId db customerId input in
      exists row,
        out = (fst (fst out), Ok (Some row),
               Some (Concurrent.DispatchOrder Concurrent.Auto row))
        /\ findById (fst (fst out)) orderId = Some row
        /\ OrderRow.id row = orderId
        /\ OrderRow.customer_id row = customerId
        /\ OrderRow.merchant_id row = input_merchant_id input
        /\ OrderRow.status row = created
        /\ OrderRow.driver_id row = None
        /\ (forall other, other <> orderId ->
              findById (fst (fst out)) other = findById db other)
        /\ driver_status (fst (fst out)) = driver_status db).
Proof.
  split; [reflexivity|].
  intro Hfresh. cbv zeta.
  unfold OrderCreation.createOrder, Concurrent.createOrder, create.
  set (row := OrderRow.mk orderId customerId (input_merchant_id input) None
                created (totalPrice (OrderService.items input))
                (fst (pickup_location input)) (snd (pickup_location input))
                (fst (dropoff_location input)) (snd (dropoff_location input))
                (input_notes input) now now).
  pose proof (@findById_app_fresh db row) as Hf. cbn [OrderRow.id row] in Hf.
  assert (Hrow : findById (mkDB (orders db ++ [row]) (driver_status db)) orderId
                 = Some row).
  { rewrite (Hf orderId Hfresh). now rewrite String.eqb_refl. }
  rewrite Hrow. cbn [fst snd]. exists row.
  split; [reflexivity|]. split; [exact Hrow|].
  repeat (split; [reflexivity|]). split; [|reflexivity].
  intros other Hne. rewrite (Hf other Hfresh).
  apply String.eqb_neq in Hne. now rewrite Hne.
Qed.

Lemma createOrder_inserts_witness :
  findById Examples.db_drivers "order-1" = None
  /\ exists row,
       findById (fst (fst (OrderCreation.createOrder None 0 "order-1"
                             Examples.db_drivers "customer-1" Examples.input1)))
         "order-1" = Some row
       /\ OrderRow.status row = created
       /\ OrderRow.driver_id row = None
       /\ OrderRow.customer_id row = "customer-1".
Proof.
  assert (Hfresh : findById Examples.db_drivers "order-1" = None) by reflexivity.
  split; [exact Hfresh|].
  destruct (proj2 (@createOrder_inserts 0 "order-1" Examples.db_drivers
                     "customer-1" Examples.input1) Hfresh)
    as [row [_ [Hfind [_ [Hc [_ [Hs [Hd _]]]]]]]].
  exists row. repeat split; assumption.
Defined.

(** [dispatchOrder] run with a distance that is a number everywhere:
    the driver assigned splits the list of available drivers into those
    strictly farther before it and those at least as far after it. *)
Lemma dispatchOrder_head
    (haversineDistance : number -> number -> number -> number -> number)
    (now : timestamp) (db : D1Database) (order : OrderRow)
    (s : OrderStatus) (d : option string) :
  assignment db (OrderRow.id order) = Some (s, d) ->
  findAvailableDrivers db <> [] ->
  exists nearest before after,
    findAvailableDrivers db = before ++ nearest :: after
    /\ (forall x, In x before ->
          pickupDistance haversineDistance order nearest
          < pickupDistance haversineDistance order x)
    /\ (forall x, In x after ->
          pickupDistance haversineDistance order nearest
          <= pickupDistance haversineDistance order x)
    /\ assignment (fst (dispatchOrder haversineDistance now db order))
         (OrderRow.id order)
       = Some (accepted, Some (AvailableDriver.driver_id nearest)).
Proof.
  intros Ha Hne. unfold dispatchOrder.
  destruct (findAvailableDrivers db) as [|a l] eqn:El; [contradiction|].
  destruct (rankDrivers haversineDistance order (a :: l)) as [|c rest] eqn:Er.
  - exfalso. exact (rankDrivers_nonempty haversineDistance order a l Er).
  - unfold rankDrivers in Er.
    destruct (Array_sort_head distance _ Er) as [before [after [Hm [Hb Hafter]]]].
    destruct c as [nearest dist].
    assert (Hc : In (nearest, dist)
                   (map (fun d0 => (d0, pickupDistance haversineDistance order d0))
                      (a :: l))).
    { unfold pickupDistance. rewrite Hm. apply in_app_iff. right. now left. }
    apply in_map_iff in Hc. destruct Hc as [n0 [Hn0 _]].
    injection Hn0 as -> <-.
    exists nearest, (map fst before), (map fst after).
    assert (Hfst : map fst (map (fun d0 => (d0, pickupDistance haversineDistance
                                                  order d0)) (a :: l))
                   = a :: l).
    { rewrite map_map. simpl. f_equal. apply map_id. }
    assert (Hval : forall x l0,
               (forall y, In y l0 ->
                  In y (map (fun d0 => (d0, pickupDistance haversineDistance
                                              order d0)) (a :: l))) ->
               In x (map fst l0) ->
               In (x, pickupDistance haversineDistance order x) l0).
    { intros x l0 Hsub Hx. apply in_map_iff in Hx.
      destruct Hx as [[x0 dx] [Hx0 Hin]]. simpl in Hx0. subst x0.
      pose proof (Hsub _ Hin) as Hy. apply in_map_iff in Hy.
      destruct Hy as [z [Hz _]]. injection Hz as -> <-. exact Hin. }
    split.
    { rewrite <- Hfst. unfold pickupDistance. rewrite Hm.
      rewrite map_app. reflexivity. }
    split.
    { intros x Hx.
      apply (Hb (x, pickupDistance haversineDistance order x)).
      apply Hval; [|exact Hx]. intros y Hy. unfold pickupDistance.
      rewrite Hm. apply in_app_iff. now left. }
    split.
    { intros x Hx.
      apply (Hafter (x, pickupDistance haversineDistance order x)).
      apply Hval; [|exact Hx]. intros y Hy. unfold pickupDistance.
      rewrite Hm. apply in_app_iff. right. now right. }
    pose proof (updateStatus_assignment now db (OrderRow.id order) accepted
                  (Some (AvailableDriver.driver_id nearest))
                  (OrderRow.id order)) as Hu.
    rewrite Ha, String.eqb_refl in Hu. cbn [fst].
    destruct (updateStatus now db (OrderRow.id order) accepted
                (Some (AvailableDriver.driver_id nearest))) as [db' r].
    exact Hu.
Qed.

(** X13.  When at least one driver is available and the distance of
    every available driver from the pickup point is a number (not
    [NaN]), [dispatchOrder] assigns the order a driver whose distance
    is least among the available drivers, and among those at that
    least distance the one the ledger lists first. *)
Theorem dispatch_assigns_nearest
    (distanceJs : Haversine)
    (now : timestamp) (db : D1Database) (order : OrderRow)
    (s : OrderStatus) (d : option string) :
  assignment db (OrderRow.id order) = Some (s, d) ->
  findAvailableDrivers db <> [] ->
  measurable distanceJs order (findAvailableDrivers db) ->
  exists nearest before after least,
    findAvailableDrivers db = before ++ nearest :: after
    /\ pickupDistanceJs distanceJs order nearest = Some least
    /\ (forall x, In x before ->
          exists q, pickupDistanceJs distanceJs order x = Some q
                    /\ least < q)
    /\ (forall x, In x after ->
          exists q, pickupDistanceJs distanceJs order x = Some q
                    /\ least <= q)
    /\ assignment (fst (dispatchOrder (valueOf distanceJs) now db order))
         (OrderRow.id order)
       = Some (accepted, Some (AvailableDriver.driver_id nearest)).
Proof.
  intros Ha Hne Hm.
  destruct (@dispatchOrder_head (valueOf distanceJs) now db order s d Ha Hne)
    as [nearest [before [after [Hsplit [Hb [Hafter Hassign]]]]]].
  assert (Hdef : forall x, In x (findAvailableDrivers db) ->
            pickupDistanceJs distanceJs order x
            = Some (pickupDistance (valueOf distanceJs) order x)).
  { intros x Hx. generalize (Hm x Hx).
    unfold pickupDistance, valueOf, pickupDistanceJs.
    destruct (distanceJs _ _ _ _); [reflexivity|congruence]. }
  exists nearest, before, after,
    (pickupDistance (valueOf distanceJs) order nearest).
  split; [exact Hsplit|].
  split.
  { apply Hdef. rewrite Hsplit. apply in_app_iff. right. now left. }
  split.
  { intros x Hx. exists (pickupDistance (valueOf distanceJs) order x).
    split; [|exact (Hb x Hx)].
    apply Hdef. rewrite Hsplit. apply in_app_iff. now left. }
  split; [|exact Hassign].
  intros x Hx. exists (pickupDistance (valueOf distanceJs) order x).
  split; [|exact (Hafter x Hx)].
  apply Hdef. rewrite Hsplit. apply in_app_iff. right. now right.
Qed.

Lemma dispatch_assigns_nearest_witness :
  measurable Examples2.meridianDistanceJs Examples.order1
    (findAvailableDrivers Examples.db_two_drivers)
  /\ assignment (fst (dispatchOrder (valueOf Examples2.meridianDistanceJs) 10
                        Examples.db_two_drivers Examples.order1)) "order-1"
     = Some (accepted, Some "driver-1")
  /\ exists nearest least,
       In nearest (findAvailableDrivers Examples.db_two_drivers)
       /\ pickupDistanceJs Examples2.meridianDistanceJs Examples.order1 nearest
          = Some least.
Proof.
  assert (Ha : assignment Examples.db_two_drivers (OrderRow.id Examples.order1)
               = Some (created, None)) by reflexivity.
  assert (Hne : findAvailableDrivers Examples.db_two_drivers <> [])
    by discriminate.
  assert (Hm : measurable Examples2.meridianDistanceJs Examples.order1
                 (findAvailableDrivers Examples.db_two_drivers)).
  { intros a _. discriminate. }
  split; [exact Hm|]. split; [reflexivity|].
  destruct (@dispatch_assigns_nearest Examples2.meridianDistanceJs 10
              Examples.db_two_drivers Examples.order1 created None Ha Hne Hm)
    as [nearest [before [after [least [Hsplit [Hleast _]]]]]].
  exists nearest, least. split; [|exact Hleast].
  rewrite Hsplit. apply in_app_iff. right. now left.
Defined.

(** X14.  [triggerDispatch] has three outcomes besides "no driver".
    An unknown order: 404, nothing written.  An order whose status is
    not ['created']: 400 "already dispatched", nothing written.  A
    ['created'] order while some driver is available: the answer is
    [assigned: true] with one of the available drivers, and the order is
    then ['accepted'] with that driver. *)
Theorem triggerDispatch_outcomes
    (haversineDistance : number -> number -> number -> number -> number)
    (now : timestamp) (db : D1Database) (orderId : string) :
  (findById db orderId = None ->
   triggerDispatch haversineDistance now db orderId = (db, Throw NotFound))
  /\ (forall order,
        findById db orderId = Some order ->
        (OrderRow.status order <> created ->
         triggerDispatch haversineDistance now db orderId
         = (db, Throw AlreadyDispatched))
        /\ (OrderRow.status order = created ->
            findAvailableDrivers db <> [] ->
            exists d,
              In d (driverIds (findAvailableDrivers db))
              /\ snd (triggerDispatch haversineDistance now db orderId)
                 = Ok (mkOutcome true (Some d))
              /\ assignment
                   (fst (triggerDispatch haversineDistance now db orderId))
                   orderId
                 = Some (accepted, Some d))).
Proof.
  split.
  - intro H. unfold triggerDispatch. now rewrite H.
  - intros order Hfind. split.
    + intro Hs. unfold triggerDispatch. rewrite Hfind.
      apply OrderStatus_eqb_neq in Hs. now rewrite Hs.
    + intros Hs Hne. unfold triggerDispatch. rewrite Hfind, Hs.
      cbn [OrderStatus_eqb negb].
      pose proof (findById_other_row _ _ Hfind) as Hid.
      assert (Ha : assignment db (OrderRow.id order)
                   = Some (created, OrderRow.driver_id order)).
      { unfold assignment. rewrite Hid, Hfind. simpl. now rewrite Hs. }
      destruct (@dispatchOrder_overwrites haversineDistance now db order
                  created (OrderRow.driver_id order) Ha Hne)
        as [d [Hin [Hok Hassign]]].
      exists d. split; [exact Hin|].
      destruct (dispatchOrder haversineDistance now db order) as [db' r].
      cbn [fst snd] in *. subst r. cbn [fst snd].
      rewrite Hid in Hassign. split; [|exact Hassign].
      unfold assignment in Hassign.
      destruct (findById db' orderId) as [u|]; [|discriminate Hassign].
      simpl in Hassign. injection Hassign as _ Hd.
      unfold outcomeOf. now rewrite Hd.
Qed.

Lemma triggerDispatch_outcomes_witness :
  triggerDispatch Examples.meridianDistance 10 Examples.db_two_drivers "order-9"
  = (Examples.db_two_drivers, Throw NotFound)
  /\ triggerDispatch Examples.meridianDistance 50 Examples.db_delivered "order-1"
     = (Examples.db_delivered, Throw AlreadyDispatched)
  /\ exists d,
       snd (triggerDispatch Examples.meridianDistance 10
              Examples.db_two_drivers "order-1")
       = Ok (mkOutcome true (Some d)).
Proof.
  destruct (triggerDispatch_outcomes Examples.meridianDistance 10
              Examples.db_two_drivers "order-9") as [Hnone _].
  destruct (triggerDispatch_outcomes Examples.meridianDistance 50
              Examples.db_delivered "order-1") as [_ Hdel].
  destruct (triggerDispatch_outcomes Examples.meridianDistance 10
              Examples.db_two_drivers "order-1") as [_ Hcreated].
  split; [apply Hnone; reflexivity|]. split.
  - apply (proj1 (Hdel Examples.order1_delivered eq_refl)). discriminate.
  - destruct (proj2 (Hcreated Examples.order1 eq_refl) eq_refl) as [d [_ [Hd _]]];
      [discriminate|].
    now exists d.
Defined.

(** X15.  The driver [dispatchOrder] assigns is, in the database it
    leaves, on an active order and no longer among the available
    drivers; a dispatch that follows, of whatever order, assigns a
    different driver. *)
Theorem assigned_driver_is_busy
    (haversineDistance : number -> number -> number -> number -> number)
    (now : timestamp) (db : D1Database) (order : OrderRow)
    (s : OrderStatus) (d0 : option string) :
  assignment db (OrderRow.id order) = Some (s, d0) ->
  findAvailableDrivers db <> [] ->
  let db' := fst (dispatchOrder haversineDistance now db order) in
  exists d,
    assignment db' (OrderRow.id order) = Some (accepted, Some d)
    /\ In d (activeDriverIds db')
    /\ ~ In d (driverIds (findAvailableDrivers db'))
    /\ (forall now2 order2 s2 d2 next,
          assignment db' (OrderRow.id order2) = Some (s2, d2) ->
          findAvailableDrivers db' <> [] ->
          assignment (fst (dispatchOrder haversineDistance now2 db' order2))
            (OrderRow.id order2) = Some (accepted, Some next) ->
          next <> d).
Proof.
  intros Ha Hne. cbv zeta.
  destruct (@dispatchOrder_overwrites haversineDistance now db order s d0 Ha Hne)
    as [d [_ [_ Hassign]]].
  set (db' := fst (dispatchOrder haversineDistance now db order)) in *.
  exists d. split; [exact Hassign|].
  assert (Hbusy : In d (activeDriverIds db')).
  { unfold assignment in Hassign.
    destruct (findById db' (OrderRow.id order)) as [row|] eqn:Ef;
      [|discriminate Hassign].
    simpl in Hassign. injection Hassign as Hst Hdr.
    apply findById_In in Ef. destruct Ef as [Hin _].
    unfold activeDriverIds. apply in_flat_map. exists row.
    split; [exact Hin|]. rewrite Hst, Hdr. now left. }
  assert (Hgone : ~ In d (driverIds (findAvailableDrivers db'))).
  { intro Hin. unfold driverIds in Hin. apply in_map_iff in Hin.
    destruct Hin as [a [Hid Hin]]. apply findAvailableDrivers_In in Hin.
    destruct Hin as [_ [_ [_ [_ [_ [_ Hfree]]]]]]. rewrite Hid in Hfree.
    contradiction. }
  split; [exact Hbusy|]. split; [exact Hgone|].
  intros now2 order2 s2 d2 next Ha2 Hne2 Hnext.
  destruct (@dispatchOrder_overwrites haversineDistance now2 db' order2 s2 d2
              Ha2 Hne2) as [n [Hin [_ Hn]]].
  rewrite Hn in Hnext. injection Hnext as <-.
  intros ->. contradiction.
Qed.

Lemma assigned_driver_is_busy_witness :
  let db' := fst (dispatchOrder Examples.meridianDistance 10
                    Examples.db_two_drivers Examples.order1) in
  exists d,
    assignment db' "order-1" = Some (accepted, Some d)
    /\ ~ In d (driverIds (findAvailableDrivers db')).
Proof.
  assert (Ha : assignment Examples.db_two_drivers (OrderRow.id Examples.order1)
               = Some (created, None)) by reflexivity.
  assert (Hne : findAvailableDrivers Examples.db_two_drivers <> [])
    by discriminate.
  destruct (@assigned_driver_is_busy Examples.meridianDistance 10
              Examples.db_two_drivers Examples.order1 created None Ha Hne)
    as [d [H1 [_ [H2 _]]]].
  exists d. now split.
Defined.

(* ================================================================= *)
(** ** The availability ledger and the driver service *)

Module LedgerFacts.

Lemma upsertDriverStatus_keeps_others now db driverId isAvailable lat lng row :
  In row (driver_status db) ->
  DriverStatusRow.driver_id row <> driverId ->
  In row (driver_status (upsertDriverStatus now db driverId isAvailable lat lng)).
Proof.
  intros Hin Hne. unfold upsertDriverStatus. cbv zeta.
  destruct (existsb _ (driver_status db)); simpl.
  - apply in_map_iff. exists row. split; [|exact Hin].
    apply String.eqb_neq in Hne. now rewrite Hne.
  - apply in_app_iff. now left.
Qed.

Lemma upsertDriverStatus_ids now db driverId isAvailable lat lng :
  map DriverStatusRow.driver_id
    (driver_status (upsertDriverStatus now db driverId isAvailable lat lng))
  = if existsb (fun ds => String.eqb (DriverStatusRow.driver_id ds) driverId)
         (driver_status db)
    then map DriverStatusRow.driver_id (driver_status db)
    else map DriverStatusRow.driver_id (driver_status db) ++ [driverId].
Proof.
  unfold upsertDriverStatus. cbv zeta.
  destruct (existsb _ (driver_status db)); simpl.
  - rewrite map_map. apply map_ext. intro ds.
    destruct (String.eqb (DriverStatusRow.driver_id ds) driverId) eqn:E;
      [|reflexivity].
    simpl. apply String.eqb_eq in E. now symmetry.
  - now rewrite map_app.
Qed.

Lemma ledgerRow_upsert now db driverId isAvailable lat lng other :
  ledgerRow (upsertDriverStatus now db driverId isAvailable lat lng) other
  = if String.eqb other driverId then
      Some (DriverStatusRow.mk driverId (if isAvailable then 1%Z else 0%Z)
              lat lng now)
    else ledgerRow db other.
Proof.
  unfold ledgerRow, upsertDriverStatus. cbv zeta.
  destruct (existsb _ (driver_status db)) eqn:Ex; simpl.
  - induction (driver_status db) as [|ds rest IH]; [discriminate Ex|].
    simpl in *.
    destruct (String.eqb (DriverStatusRow.driver_id ds) driverId) eqn:E.
    + simpl. apply String.eqb_eq in E. rewrite String.eqb_sym.
      destruct (String.eqb other driverId) eqn:E2.
      * reflexivity.
      * rewrite E. rewrite String.eqb_sym. rewrite E2.
        clear IH Ex. induction rest as [|r rest IHr]; [reflexivity|].
        simpl. destruct (String.eqb (DriverStatusRow.driver_id r) driverId) eqn:E3.
        -- simpl. rewrite (String.eqb_sym driverId), E2.
           apply String.eqb_eq in E3. rewrite E3.
           rewrite (String.eqb_sym driverId), E2. exact IHr.
        -- destruct (String.eqb (DriverStatusRow.driver_id r) other);
             [reflexivity|exact IHr].
    + simpl in Ex.
      destruct (String.eqb (DriverStatusRow.driver_id ds) other) eqn:E2.
      * destruct (String.eqb other driverId) eqn:E3; [|reflexivity].
        apply String.eqb_eq in E2, E3. rewrite <- E3, <- E2 in E.
        rewrite String.eqb_refl in E. discriminate E.
      * now apply IH.
  - induction (driver_status db) as [|ds rest IH]; simpl in *.
    + rewrite (String.eqb_sym driverId). now destruct (String.eqb other driverId).
    + apply orb_false_iff in Ex. destruct Ex as [E Ex].
      destruct (String.eqb (DriverStatusRow.driver_id ds) other) eqn:E2.
      * destruct (String.eqb other driverId) eqn:E3; [|reflexivity].
        apply String.eqb_eq in E2, E3. rewrite <- E3, <- E2 in E.
        rewrite String.eqb_refl in E. discriminate E.
      * now apply IH.
Qed.

(** A write to one driver's ledger row leaves the candidacy of every
    other driver as it was. *)
Lemma upsert_other_candidates now db driverId isAvailable lat lng a :
  AvailableDriver.driver_id a <> driverId ->
  (In a (findAvailableDrivers
           (upsertDriverStatus now db driverId isAvailable lat lng))
   <-> In a (findAvailableDrivers db)).
Proof.
  intro Hne. rewrite !findAvailableDrivers_In.
  unfold activeDriverIds. rewrite upsertDriverStatus_orders.
  split; intros [row [Hin [Hav [Hla [Hln [Hid Hfree]]]]]]; exists row.
  - apply upsertDriverStatus_rows in Hin. destruct Hin as [->|[Hin _]].
    + simpl in Hid. congruence.
    + repeat split; assumption.
  - split; [|repeat split; assumption].
    apply upsertDriverStatus_keeps_others; [exact Hin|]. congruence.
Qed.
End LedgerFacts.
Import LedgerFacts.

(** X16.  [upsertDriverStatus] makes the written row the ledger row of
    that driver and leaves the ledger row and the candidacy for
    dispatch of every other driver, and all orders, as they were; a
    ledger with one row per driver stays so. *)
Theorem upsertDriverStatus_row
    (now : timestamp) (db : D1Database) (driverId : string)
    (isAvailable : bool) (lat lng : option number) :
  let db' := upsertDriverStatus now db driverId isAvailable lat lng in
  ledgerRow db' driverId
  = Some (DriverStatusRow.mk driverId (if isAvailable then 1%Z else 0%Z)
            lat lng now)
  /\ (forall other, other <> driverId -> ledgerRow db' other = ledgerRow db other)
  /\ (forall a, AvailableDriver.driver_id a <> driverId ->
        (In a (findAvailableDrivers db') <-> In a (findAvailableDrivers db)))
  /\ orders db' = orders db
  /\ (uniqueDriverRows db -> uniqueDriverRows db').
Proof.
  cbv zeta. split; [|split; [|split; [|split]]].
  - rewrite ledgerRow_upsert. now rewrite String.eqb_refl.
  - intros other Hne. rewrite ledgerRow_upsert.
    apply String.eqb_neq in Hne. now rewrite Hne.
  - intros a Hne. now apply upsert_other_candidates.
  - apply upsertDriverStatus_orders.
  - unfold uniqueDriverRows. intro Hnd. rewrite upsertDriverStatus_ids.
    destruct (existsb _ (driver_status db)) eqn:E; [exact Hnd|].
    apply NoDup_app; [exact Hnd|repeat constructor; intros []|].
    intros x Hx [<-|[]]. apply in_map_iff in Hx.
    destruct Hx as [ds [Hid Hin]].
    assert (Hex : existsb (fun ds0 => String.eqb (DriverStatusRow.driver_id ds0)
                                        driverId)
                    (driver_status db) = true).
    { apply existsb_exists. exists ds. split; [exact Hin|].
      now apply String.eqb_eq. }
    congruence.
Qed.

Lemma upsertDriverStatus_row_witness :
  uniqueDriverRows Examples.db_two_drivers
  /\ uniqueDriverRows
       (upsertDriverStatus 9 Examples.db_two_drivers "driver-1" false None None)
  /\ ledgerRow
       (upsertDriverStatus 9 Examples.db_two_drivers "driver-1" false None None)
       "driver-2"
     = ledgerRow Examples.db_two_drivers "driver-2".
Proof.
  assert (Hu : uniqueDriverRows Examples.db_two_drivers).
  { unfold uniqueDriverRows. simpl.
    repeat constructor; simpl; intuition discriminate. }
  destruct (upsertDriverStatus_row 9 Examples.db_two_drivers "driver-1" false
              None None) as [_ [Hother [_ [_ Huniq]]]].
  split; [exact Hu|]. split; [exact (Huniq Hu)|].
  apply Hother. discriminate.
Defined.

(** X17.  [updateLocation] for a driver with a non-empty id succeeds;
    afterwards the tracker and the ledger hold the same position for
    the driver, the ledger marks the driver available, and the driver
    is a candidate for dispatch exactly when on no active order.  With
    an empty id the tracker refuses, [updateLocation] throws and the
    ledger is not written. *)
Theorem updateLocation_mirrors
    (haversineDistance : number -> number -> number -> number -> number)
    (now : timestamp) (env : Env) (d : string) (lat lng : number) :
  (d <> "" ->
   let out := DriverService.updateLocation haversineDistance now env d lat lng in
   snd out = Ok tt
   /\ handleGetLocation (DRIVER_TRACKER (fst out)) d
      = jsonResponse (SuccessLocation (DriverLocation.mk d lat lng now)) 200
   /\ ledgerRow (DB (fst out)) d
      = Some (DriverStatusRow.mk d 1 (Some lat) (Some lng) now)
   /\ (In d (driverIds (findAvailableDrivers (DB (fst out))))
       <-> ~ In d (activeDriverIds (DB env))))
  /\ (d = "" ->
      let out := DriverService.updateLocation haversineDistance now env d lat lng in
      snd out = Throw (Error "DO error: Missing fields")
      /\ DB (fst out) = DB env).
Proof.
  split.
  - intro Hd. cbv zeta. unfold DriverService.updateLocation.
    pose proof (truthy_nonempty Hd) as Ht.
    unfold fetch, handleUpdateLocation.
    cbn [body_driver_id body_lat body_lng]. rewrite Ht.
    cbn [negb ok status Z.leb Z.compare Pos.compare Pos.compare_cont andb
         fst snd DRIVER_TRACKER DB].
    split; [reflexivity|]. split.
    { apply handleGetLocation_assigned. }
    split.
    { rewrite ledgerRow_upsert. now rewrite String.eqb_refl. }
    split.
    + intros Hin Hbusy. unfold driverIds in Hin. apply in_map_iff in Hin.
      destruct Hin as [a [Hid Hin]]. apply findAvailableDrivers_In in Hin.
      destruct Hin as [_ [_ [_ [_ [_ [_ Hfree]]]]]]. apply Hfree.
      unfold activeDriverIds in *. rewrite upsertDriverStatus_orders.
      now rewrite Hid.
    + apply location_update_restores.
  - intros ->. cbv zeta. unfold DriverService.updateLocation.
    unfold fetch, handleUpdateLocation. simpl. now split.
Qed.

Lemma updateLocation_mirrors_witness :
  let out := DriverService.updateLocation Examples.meridianDistance 7
               (mkEnv (constructor None) Examples.db_created) "driver-1" 3 4 in
  snd out = Ok tt
  /\ handleGetLocation (DRIVER_TRACKER (fst out)) "driver-1"
     = jsonResponse (SuccessLocation (DriverLocation.mk "driver-1" 3 4 7)) 200
  /\ In "driver-1" (driverIds (findAvailableDrivers (DB (fst out))))
  /\ snd (DriverService.updateLocation Examples.meridianDistance 7
            (mkEnv (constructor None) Examples.db_created) "" 3 4)
     = Throw (Error "DO error: Missing fields").
Proof.
  destruct (updateLocation_mirrors Examples.meridianDistance 7
              (mkEnv (constructor None) Examples.db_created) "driver-1" 3 4)
    as [Hok _].
  destruct (updateLocation_mirrors Examples.meridianDistance 7
              (mkEnv (constructor None) Examples.db_created) "" 3 4)
    as [_ Hbad].
  assert (Hd : "driver-1" <> "") by discriminate.
  specialize (Hok Hd). cbv zeta in *.
  destruct Hok as [H1 [H2 [_ H4]]].
  split; [exact H1|]. split; [exact H2|]. split.
  - apply H4. simpl. intros [].
  - exact (proj1 (Hbad eq_refl)).
Defined.

(** X18.  [goOffline] writes the ledger row of the driver as
    unavailable and without position, so that the driver is not a
    candidate for dispatch, and leaves the candidacy of every other
    driver as before, whatever the tracker does.  When the id is
    non-empty, reaches the tracker unchanged as the second segment of
    the URL path, and is not a name under which the mapping inherits
    something, a Get for the driver answers 404 afterwards. *)
Theorem goOffline_removes
    (haversineDistance : number -> number -> number -> number -> number)
    (pathSegment : string -> option string)
    (now : timestamp) (env : Env) (d : string) :
  let env' := DriverService.goOffline haversineDistance pathSegment now env d in
  (pathSegment d = Some d -> d <> "" -> ownOnly d ->
   handleGetLocation (DRIVER_TRACKER env') d
   = jsonResponse (ErrorBody "Driver not found") 404)
  /\ ledgerRow (DB env') d = Some (DriverStatusRow.mk d 0 None None now)
  /\ ~ In d (driverIds (findAvailableDrivers (DB env')))
  /\ (forall a, AvailableDriver.driver_id a <> d ->
        (In a (findAvailableDrivers (DB env'))
         <-> In a (findAvailableDrivers (DB env)))).
Proof.
  cbv zeta. unfold DriverService.goOffline.
  destruct (fetch haversineDistance now (DRIVER_TRACKER env)
              match pathSegment d with
              | Some segment => DELETE_location segment
              | None => OtherRequest
              end) as [tracker res] eqn:Ef.
  cbn [DRIVER_TRACKER DB].
  split; [|split; [|split]].
  - intros Hpath Hd Hown. rewrite Hpath in Ef.
    pose proof (truthy_nonempty Hd) as Ht.
    unfold fetch in Ef. rewrite Ht in Ef. unfold handleRemoveLocation in Ef.
    destruct (negb (isTruthy (lookup (ensureLoaded (DRIVER_TRACKER env)) d)))
      eqn:Efalsy; injection Ef as <- _.
    + unfold handleGetLocation. now rewrite Efalsy.
    + apply handleGetLocation_absent; [|exact Hown].
      cbn [persist locations]. apply get_delete_same.
  - rewrite ledgerRow_upsert. now rewrite String.eqb_refl.
  - apply unpositioned_absent. intros row Hin Hid.
    apply upsertDriverStatus_rows in Hin.
    destruct Hin as [->|[_ Hne]]; [now split|contradiction].
  - intros a Hne. now apply upsert_other_candidates.
Qed.

Lemma goOffline_removes_witness :
  let env' := DriverService.goOffline Examples.meridianDistance
                StoreSpec.plainSegment 9 Examples.env_reported "driver-1" in
  StoreSpec.plainSegment "driver-1" = Some "driver-1"
  /\ ownOnly "driver-1"
  /\ handleGetLocation (DRIVER_TRACKER Examples.env_reported) "driver-1"
     = jsonResponse
         (SuccessLocation (DriverLocation.mk "driver-1" 1.0000 1.0000 0)) 200
  /\ handleGetLocation (DRIVER_TRACKER env') "driver-1"
     = jsonResponse (ErrorBody "Driver not found") 404
  /\ ~ In "driver-1" (driverIds (findAvailableDrivers (DB env'))).
Proof.
  assert (Hd : "driver-1" <> "") by discriminate.
  assert (Hown : ownOnly "driver-1") by (apply ownOnly_driver; reflexivity).
  pose proof (@goOffline_removes Examples.meridianDistance
                StoreSpec.plainSegment 9 Examples.env_reported "driver-1")
    as H.
  cbv zeta in *. destruct H as [H1 [_ [H3 _]]].
  split; [reflexivity|]. split; [exact Hown|]. split; [reflexivity|].
  split; [exact (H1 eq_refl Hd Hown)|exact H3].
Defined.

(* ================================================================= *)
(** ** Utility functions *)

Module UtilsFacts.
Import Strings.Ascii Utils UtilsSpec.

Lemma charCode_inj (x y : ascii) : charCode x = charCode y -> x = y.
Proof.
  unfold charCode. intro H. apply N2Z.inj in H.
  rewrite <- (ascii_N_embedding x), <- (ascii_N_embedding y). now rewrite H.
Qed.

Lemma xorAll_zero (a : string) :
  forall (b : string) (r : Z),
    String.length a = String.length b ->
    (xorAll a b r = 0%Z <-> r = 0%Z /\ a = b).
Proof.
  induction a as [|x a IH]; intros [|y b] r Hlen; simpl in *;
    try discriminate.
  - split; [now split|now intros [H _]].
  - injection Hlen as Hlen. rewrite (IH b _ Hlen).
    rewrite Z.lor_eq_0_iff, Z.lxor_eq_0_iff. split.
    + intros [[Hr Hc] Hab]. apply charCode_inj in Hc. now subst.
    + intros [Hr Hab]. injection Hab as -> ->. now repeat split.
Qed.

Lemma timingSafeEqual_same (a b : string) :
  timingSafeEqual a b = true <-> a = b.
Proof.
  unfold timingSafeEqual.
  destruct (String.length a =? String.length b)%nat eqn:E; simpl.
  - apply Nat.eqb_eq in E. rewrite Z.eqb_eq, (xorAll_zero a b 0%Z E). tauto.
  - apply Nat.eqb_neq in E. split; [discriminate|]. intros ->. now contradiction E.
Qed.

Lemma concat_cons (x : string) (xs : list string) :
  String.concat "" (x :: xs) = (x ++ String.concat "" xs)%string.
Proof.
  destruct xs as [|y ys]; simpl; [|reflexivity].
  induction x as [|c x IH]; simpl; [reflexivity|]. now rewrite <- IH.
Qed.

Lemma bufferToHex_cons (b : Byte.byte) (buf : list Byte.byte) :
  bufferToHex (b :: buf) = (hexOf b ++ bufferToHex buf)%string.
Proof. unfold bufferToHex. simpl map. apply concat_cons. Qed.

(** One byte, written and read back. *)
Lemma hexOf_read (b : Byte.byte) (rest : string) :
  hexToBuffer (hexOf b ++ rest) = b :: hexToBuffer rest.
Proof. destruct b; reflexivity. Qed.

Lemma hexOf_shape (b : Byte.byte) :
  exists c1 c2,
    hexOf b = String c1 (String c2 EmptyString)
    /\ isHexDigit c1 = true /\ isHexDigit c2 = true.
Proof. destruct b; do 2 eexists; repeat split. Qed.

Lemma hexToBuffer_bufferToHex (buf : list Byte.byte) :
  hexToBuffer (bufferToHex buf) = buf.
Proof.
  induction buf as [|b buf IH]; [reflexivity|].
  rewrite bufferToHex_cons, hexOf_read. now rewrite IH.
Qed.

Lemma bufferToHex_length (buf : list Byte.byte) :
  String.length (bufferToHex buf) = (2 * List.length buf)%nat.
Proof.
  induction buf as [|b buf IH]; [reflexivity|].
  rewrite bufferToHex_cons.
  destruct (hexOf_shape b) as [c1 [c2 [-> _]]]. simpl. rewrite IH. lia.
Qed.

Lemma bufferToHex_digits (buf : list Byte.byte) (c : ascii) :
  In c (list_ascii_of_string (bufferToHex buf)) -> isHexDigit c = true.
Proof.
  induction buf as [|b buf IH]; [intros []|].
  rewrite bufferToHex_cons.
  destruct (hexOf_shape b) as [c1 [c2 [-> [H1 H2]]]]. simpl.
  intros [<-|[<-|H]]; auto.
Qed.

Lemma bufferToHex_without_colon (buf : list Byte.byte) :
  without ":"%char (bufferToHex buf).
Proof.
  intros c Hin Heq. apply bufferToHex_digits in Hin. subst c.
  discriminate Hin.
Qed.

Lemma split_without (sep : ascii) (s : string) :
  without sep s -> split sep s = [s].
Proof.
  induction s as [|c s IH]; [reflexivity|].
  intro Hw. simpl.
  assert (Hc : Ascii.eqb c sep = false).
  { apply Ascii.eqb_neq. apply Hw. now left. }
  rewrite Hc, IH; [reflexivity|].
  intros x Hx. apply Hw. now right.
Qed.

Lemma split_app (sep : ascii) (s1 s2 : string) :
  without sep s1 ->
  split sep (s1 ++ String sep s2) = s1 :: split sep s2.
Proof.
  induction s1 as [|c s1 IH]; intro Hw; simpl.
  - now rewrite Ascii.eqb_refl.
  - assert (Hc : Ascii.eqb c sep = false).
    { apply Ascii.eqb_neq. apply Hw. now left. }
    rewrite Hc, IH; [reflexivity|].
    intros x Hx. apply Hw. now right.
Qed.
End UtilsFacts.

Module PasswordFacts.
Import Strings.Ascii.

(** The text [hashPassword] stores for a salt and a hash. *)
Lemma stored_split (salt hash : list Byte.byte) :
  Utils.split ":"%char
    ("100000" ++ ":" ++ Utils.bufferToHex salt ++ ":"
       ++ Utils.bufferToHex hash)%string
  = ["100000"; Utils.bufferToHex salt; Utils.bufferToHex hash].
Proof.
  change ("100000" ++ ":" ++ Utils.bufferToHex salt ++ ":"
            ++ Utils.bufferToHex hash)%string
    with ("100000" ++ String ":"%char
            (Utils.bufferToHex salt
               ++ String ":"%char (Utils.bufferToHex hash)))%string.
  rewrite UtilsFacts.split_app.
  2:{ intros c Hc Heq. subst c. simpl in Hc.
      repeat (destruct Hc as [Hc|Hc]; [discriminate Hc|]). exact Hc. }
  rewrite UtilsFacts.split_app
    by apply UtilsFacts.bufferToHex_without_colon.
  rewrite UtilsFacts.split_without
    by apply UtilsFacts.bufferToHex_without_colon.
  reflexivity.
Qed.

Lemma falsy_hex (buf : list Byte.byte) :
  buf <> [] -> Utils.falsy (Some (Utils.bufferToHex buf)) = false.
Proof.
  destruct buf as [|b buf]; intro Hb; [contradiction|].
  rewrite UtilsFacts.bufferToHex_cons.
  destruct (UtilsFacts.hexOf_shape b) as [c1 [c2 [-> _]]]. reflexivity.
Qed.

Lemma verifyPassword_stored
    (deriveBits : string -> list Byte.byte -> option Z
                  -> result (list Byte.byte))
    (salt hash : list Byte.byte) (candidate : string) :
  salt <> [] -> hash <> [] ->
  Utils.verifyPassword deriveBits candidate
    ("100000" ++ ":" ++ Utils.bufferToHex salt ++ ":"
       ++ Utils.bufferToHex hash)%string
  = match deriveBits candidate salt (Some Utils.ITERATIONS) with
    | Throw e => Throw e
    | Ok h => Ok (Utils.timingSafeEqual (Utils.bufferToHex h)
                    (Utils.bufferToHex hash))
    end.
Proof.
  intros Hsalt Hhash. unfold Utils.verifyPassword. rewrite stored_split.
  cbn [nth_error]. rewrite (falsy_hex Hsalt), (falsy_hex Hhash).
  cbn [Utils.falsy orb]. rewrite UtilsFacts.hexToBuffer_bufferToHex.
  reflexivity.
Qed.

Lemma timingSafeEqual_hex (h hash : list Byte.byte) :
  Utils.timingSafeEqual (Utils.bufferToHex h) (Utils.bufferToHex hash) = true
  <-> h = hash.
Proof.
  split.
  - intro H. apply UtilsFacts.timingSafeEqual_same in H.
    rewrite <- (UtilsFacts.hexToBuffer_bufferToHex h), H.
    apply UtilsFacts.hexToBuffer_bufferToHex.
  - intros ->. now apply UtilsFacts.timingSafeEqual_same.
Qed.
End PasswordFacts.

Section UtilsProperties.
Import Strings.Ascii.

(** X19.  [timingSafeEqual] returns true exactly when its two strings
  are equal. *)
Theorem timingSafeEqual_iff (a b : string) :
Utils.timingSafeEqual a b = true <-> a = b.
Proof.
unfold Utils.timingSafeEqual.
destruct (String.length a =? String.length b)%nat eqn:E; simpl.
- apply Nat.eqb_eq in E. rewrite Z.eqb_eq.
  rewrite (UtilsFacts.xorAll_zero a b 0%Z E). tauto.
- apply Nat.eqb_neq in E. split; [discriminate|].
  intros ->. now contradiction E.
Qed.

(** X20.  [hexToBuffer] reads back what [bufferToHex] wrote: for every
  byte array the round trip is the identity.  The text has two
  lowercase hexadecimal digits per byte, so two arrays with the same
  text are equal. *)
Theorem hex_round_trip (buf : list Byte.byte) :
Utils.hexToBuffer (Utils.bufferToHex buf) = buf
/\ String.length (Utils.bufferToHex buf) = (2 * List.length buf)%nat
/\ (forall c, In c (list_ascii_of_string (Utils.bufferToHex buf)) ->
      UtilsSpec.isHexDigit c = true)
/\ (forall other, Utils.bufferToHex other = Utils.bufferToHex buf ->
      other = buf).
Proof.
split; [apply UtilsFacts.hexToBuffer_bufferToHex|].
split; [apply UtilsFacts.bufferToHex_length|].
split; [apply UtilsFacts.bufferToHex_digits|].
intros other H. rewrite <- (UtilsFacts.hexToBuffer_bufferToHex other), H.
apply UtilsFacts.hexToBuffer_bufferToHex.
Qed.

(** X21.  A password verifies against the text [hashPassword] made of
  it: when the key derivation returns a non-empty hash for the
  password under a non-empty salt and 100000 iterations,
  [hashPassword] returns "100000:salt:hash" in hexadecimal and
  [verifyPassword] of the same password on that text is true; for
  any password it is true exactly when the derivation for that
  password, with that salt and 100000 iterations, returns the same
  hash. *)
Theorem password_round_trip
  (deriveBits : string -> list Byte.byte -> option Z -> result (list Byte.byte))
  (salt hash : list Byte.byte) (password : string) :
deriveBits password salt (Some Utils.ITERATIONS) = Ok hash ->
salt <> [] -> hash <> [] ->
exists stored,
  Utils.hashPassword deriveBits salt password = Ok stored
  /\ Utils.verifyPassword deriveBits password stored = Ok true
  /\ (forall candidate,
        Utils.verifyPassword deriveBits candidate stored = Ok true
        <-> deriveBits candidate salt (Some Utils.ITERATIONS) = Ok hash).
Proof.
intros Hderive Hsalt Hhash.
unfold Utils.hashPassword. rewrite Hderive. eexists. split; [reflexivity|].
split.
- rewrite (PasswordFacts.verifyPassword_stored _ _ Hsalt Hhash), Hderive.
  f_equal. now apply PasswordFacts.timingSafeEqual_hex.
- intro candidate.
  rewrite (PasswordFacts.verifyPassword_stored _ _ Hsalt Hhash).
  destruct (deriveBits candidate salt (Some Utils.ITERATIONS)) as [h|e].
  + split.
    * intro H. injection H as H.
      apply PasswordFacts.timingSafeEqual_hex in H. now subst.
    * intro H. injection H as ->. f_equal.
      now apply PasswordFacts.timingSafeEqual_hex.
  + split; discriminate.
Qed.

Lemma password_round_trip_witness :
exists stored,
  Utils.hashPassword UtilsSpec.toyDerive [Byte.x01; Byte.xfe] "secret"
  = Ok stored
  /\ Utils.verifyPassword UtilsSpec.toyDerive "secret" stored = Ok true
  /\ Utils.verifyPassword UtilsSpec.toyDerive "Secret" stored <> Ok true.
Proof.
assert (Hsalt : [Byte.x01; Byte.xfe] <> []) by discriminate.
assert (Hhash : [Byte.x01; Byte.xfe]
                  ++ map Ascii.byte_of_ascii (list_ascii_of_string "secret")
                <> []) by discriminate.
destruct (@password_round_trip UtilsSpec.toyDerive [Byte.x01; Byte.xfe]
            _ "secret" eq_refl Hsalt Hhash) as [stored [Hh [Hv Hiff]]].
exists stored. split; [exact Hh|]. split; [exact Hv|].
intro H. apply Hiff in H. discriminate H.
Defined.
End UtilsProperties.

(* ================================================================= *)
(** ** Base64url and tokens *)

Module Base64Facts.
Import Strings.Ascii Base64 Base64Spec.

Lemma list_ind3 (A : Type) (P : list A -> Prop) :
  P [] -> (forall a, P [a]) -> (forall a b, P [a; b]) ->
  (forall a b c l, P l -> P (a :: b :: c :: l)) ->
  forall l, P l.
Proof.
  intros H0 H1 H2 H3. fix IH 1.
  intros [|a [|b [|c l]]]; [exact H0|apply H1|apply H2|].
  apply H3, IH.
Qed.

Lemma string_append_assoc (s1 s2 s3 : string) :
  ((s1 ++ s2) ++ s3 = s1 ++ (s2 ++ s3))%string.
Proof.
  induction s1 as [|c s1 IH]; [reflexivity|].
  cbn [String.append]. now rewrite IH.
Qed.

Lemma allSextets_ok : forallb sextetOk allSextets = true.
Proof. vm_compute. reflexivity. Qed.

Lemma sextetOk_lt (n : N) : (n < 64)%N -> sextetOk n = true.
Proof.
  intro H. apply (proj1 (forallb_forall _ _) allSextets_ok).
  unfold allSextets. apply in_map_iff. exists (N.to_nat n).
  split; [lia|]. apply in_seq. lia.
Qed.

Lemma code_lt (b : Byte.byte) : (code b < 256)%N.
Proof. apply N_ascii_bounded. Qed.

Lemma byteOf_code (b : Byte.byte) : byteOf (code b) = b.
Proof.
  unfold byteOf, code.
  rewrite <- byte_of_ascii_via_N, byte_of_ascii_of_byte. reflexivity.
Qed.

Ltac euclid :=
  zify; Z.to_euclidean_division_equations; lia.

Lemma sextetsOf_lt (bytes : list Byte.byte) :
  Forall (fun n => (n < 64)%N) (sextetsOf bytes).
Proof.
  induction bytes as [|a|a b|a b c l IH] using list_ind3;
    cbn [sextetsOf]; repeat constructor; try exact IH;
    pose proof (code_lt a);
    try pose proof (code_lt b); try pose proof (code_lt c); euclid.
Qed.

Lemma sextetsOf_length (bytes : list Byte.byte) :
  (List.length (sextetsOf bytes) mod 4 =? 1)%nat = false.
Proof.
  induction bytes as [|a|a b|a b c l IH] using list_ind3;
    try reflexivity.
  cbn [sextetsOf List.length].
  replace (S (S (S (S (List.length (sextetsOf l))))))
    with (List.length (sextetsOf l) + 1 * 4)%nat by lia.
  rewrite Nat.Div0.mod_add. exact IH.
Qed.

Lemma decodeSextets_sextetsOf (bytes : list Byte.byte) :
  decodeSextets (sextetsOf bytes) = bytes.
Proof.
  induction bytes as [|a|a b|a b c l IH] using list_ind3;
    cbn [sextetsOf decodeSextets]; [reflexivity| | |rewrite IH];
    pose proof (code_lt a);
    try pose proof (code_lt b); try pose proof (code_lt c);
    repeat f_equal;
    match goal with
    | |- byteOf _ = ?x =>
        transitivity (byteOf (code x)); [f_equal; euclid|apply byteOf_code]
    end.
Qed.

(** The three replacements of [base64UrlEncode], one character at a
    time. *)
Lemma encode_step (c : ascii) (s : string) :
  removeAll "="%char
    (replaceAll "/"%char "_"%char
       (replaceAll "+"%char "-"%char (String c s)))
  = if Ascii.eqb (toUrl c) "="%char
    then removeAll "="%char
           (replaceAll "/"%char "_"%char (replaceAll "+"%char "-"%char s))
    else String (toUrl c)
           (removeAll "="%char
              (replaceAll "/"%char "_"%char
                 (replaceAll "+"%char "-"%char s))).
Proof. reflexivity. Qed.

Lemma encode_sextet (n : N) (s : string) :
  (n < 64)%N ->
  removeAll "="%char
    (replaceAll "/"%char "_"%char
       (replaceAll "+"%char "-"%char (String (encodeChar n) s)))
  = String (toUrl (encodeChar n))
      (removeAll "="%char
         (replaceAll "/"%char "_"%char (replaceAll "+"%char "-"%char s))).
Proof.
  intro H. rewrite encode_step.
  pose proof (sextetOk_lt H) as Hok. unfold sextetOk in Hok.
  repeat (apply andb_prop in Hok; destruct Hok as [Hok ?]).
  destruct (Ascii.eqb (toUrl (encodeChar n)) "="%char);
    [discriminate|reflexivity].
Qed.

Ltac split_forall :=
  repeat match goal with
         | H : Forall _ (_ :: _) |- _ =>
             let h := fresh "Hlt" in
             apply Forall_cons_iff in H; destruct H as [h H]
         end.

Lemma base64UrlEncode_sextets (bytes : list Byte.byte) :
  base64UrlEncode (Bytes bytes)
  = string_of_list_ascii
      (map (fun n => toUrl (encodeChar n)) (sextetsOf bytes)).
Proof.
  unfold base64UrlEncode.
  induction bytes as [|a|a b|a b c l IH] using list_ind3;
    [reflexivity| | |];
    pose proof (sextetsOf_lt (a :: nil)) as Ha;
    try pose proof (sextetsOf_lt (a :: b :: nil)) as Hab;
    try pose proof (sextetsOf_lt (a :: b :: c :: nil)) as Habc;
    cbn [sextetsOf] in *.
  - change (btoa (binaryOf [a]))
      with (String (encodeChar (code a / 4))
              (String (encodeChar (code a mod 4 * 16)) "==")).
    split_forall. rewrite !encode_sextet by assumption. reflexivity.
  - change (btoa (binaryOf [a; b]))
      with (String (encodeChar (code a / 4))
              (String (encodeChar (code a mod 4 * 16 + code b / 16))
                 (String (encodeChar (code b mod 16 * 4)) "="))).
    split_forall. rewrite !encode_sextet by assumption. reflexivity.
  - change (btoa (binaryOf (a :: b :: c :: l)))
      with (String (encodeChar (code a / 4))
              (String (encodeChar (code a mod 4 * 16 + code b / 16))
                 (String (encodeChar (code b mod 16 * 4 + code c / 64))
                    (String (encodeChar (code c mod 64))
                       (btoa (binaryOf l)))))).
    split_forall. rewrite !encode_sextet by assumption. rewrite IH.
    reflexivity.
Qed.

Lemma base64UrlEncode_bytesOf (input : Input) :
  base64UrlEncode input = base64UrlEncode (Bytes (bytesOf input)).
Proof. destruct input; reflexivity. Qed.

(** Every character written is of the URL-safe alphabet. *)
Lemma base64UrlEncode_urlSafe (input : Input) (c : ascii) :
  In c (list_ascii_of_string (base64UrlEncode input)) -> urlSafe c = true.
Proof.
  rewrite base64UrlEncode_bytesOf, base64UrlEncode_sextets,
    list_ascii_of_string_of_list_ascii.
  intro Hin. apply in_map_iff in Hin. destruct Hin as [n [<- Hn]].
  pose proof (sextetsOf_lt (bytesOf input)) as Hlt.
  rewrite Forall_forall in Hlt.
  pose proof (sextetOk_lt (Hlt n Hn)) as Hok. unfold sextetOk in Hok.
  repeat (apply andb_prop in Hok; destruct Hok as [Hok ?]).
  exact Hok.
Qed.

Lemma base64UrlEncode_without_dot (input : Input) :
  UtilsSpec.without "."%char (base64UrlEncode input).
Proof.
  intros c Hc ->. apply base64UrlEncode_urlSafe in Hc. discriminate Hc.
Qed.

(** The way back, one character at a time. *)
Lemma replace_fromUrl (l : list ascii) :
  replaceAll "_"%char "/"%char
    (replaceAll "-"%char "+"%char (string_of_list_ascii l))
  = string_of_list_ascii (map fromUrl l).
Proof.
  induction l as [|c l IH]; [reflexivity|].
  cbn [string_of_list_ascii map replaceAll]. rewrite IH. reflexivity.
Qed.

Lemma removeWhitespace_none (l : list ascii) :
  Forall (fun c => isAsciiWhitespace c = false) l ->
  removeWhitespace (string_of_list_ascii l) = string_of_list_ascii l.
Proof.
  induction 1 as [|c l Hc _ IH]; [reflexivity|].
  cbn [string_of_list_ascii removeWhitespace]. rewrite Hc, IH. reflexivity.
Qed.

Lemma stripPadding_none (l : list ascii) :
  Forall (fun c => c <> "="%char) l -> stripPadding l = l.
Proof.
  intro H. unfold stripPadding.
  destruct (List.length l mod 4 =? 0)%nat; [|reflexivity].
  destruct (rev l) as [|c r] eqn:E; [reflexivity|].
  assert (Hc : c <> "="%char).
  { rewrite Forall_forall in H. apply H. apply in_rev. rewrite E. now left. }
  destruct c as [[] [] [] [] [] [] [] []]; try reflexivity.
  exfalso. apply Hc. reflexivity.
Qed.

Lemma sextets_read (ns : list N) :
  Forall (fun n => (n < 64)%N) ns ->
  sextets (map fromUrl (map (fun n => toUrl (encodeChar n)) ns)) = Some ns.
Proof.
  induction 1 as [|n ns Hn _ IH]; [reflexivity|].
  cbn [map sextets]. rewrite IH.
  pose proof (sextetOk_lt Hn) as Hok. unfold sextetOk in Hok.
  apply andb_prop in Hok. destruct Hok as [_ Hok].
  destruct (decodeChar (fromUrl (toUrl (encodeChar n)))) as [m|];
    [|discriminate].
  apply N.eqb_eq in Hok. now subst.
Qed.

Lemma sextet_chars (ns : list N) :
  Forall (fun n => (n < 64)%N) ns ->
  Forall (fun c => isAsciiWhitespace c = false)
    (map fromUrl (map (fun n => toUrl (encodeChar n)) ns))
  /\ Forall (fun c => c <> "="%char)
       (map fromUrl (map (fun n => toUrl (encodeChar n)) ns)).
Proof.
  intro H. rewrite map_map. split; apply Forall_map;
    eapply Forall_impl; try exact H; cbv beta; intros n Hn;
    pose proof (sextetOk_lt Hn) as Hok; unfold sextetOk in Hok;
    repeat (apply andb_prop in Hok; destruct Hok as [Hok ?]).
  - now apply negb_true_iff.
  - apply Ascii.eqb_neq. now apply negb_true_iff.
Qed.

(** [base64UrlDecode] reads back the bytes [base64UrlEncode] was
    given. *)
Lemma decode_encode (bytes : list Byte.byte) :
  base64UrlDecode (base64UrlEncode (Bytes bytes)) = Some bytes.
Proof.
  rewrite base64UrlEncode_sextets. unfold base64UrlDecode, atob.
  pose proof (sextetsOf_lt bytes) as Hlt.
  destruct (sextet_chars Hlt) as [Hws Hpad].
  rewrite replace_fromUrl, (removeWhitespace_none Hws),
    list_ascii_of_string_of_list_ascii, (stripPadding_none Hpad).
  rewrite !length_map, sextetsOf_length, (sextets_read Hlt),
    decodeSextets_sextetsOf.
  reflexivity.
Qed.
End Base64Facts.

Module JwtFacts.
Import Strings.Ascii.

Lemma token_split (header body signature : Base64.Input) :
  Utils.split "."%char
    ((Base64.base64UrlEncode header ++ "." ++ Base64.base64UrlEncode body)
       ++ "." ++ Base64.base64UrlEncode signature)%string
  = [Base64.base64UrlEncode header; Base64.base64UrlEncode body;
     Base64.base64UrlEncode signature].
Proof.
  rewrite Base64Facts.string_append_assoc. cbn [String.append].
  rewrite UtilsFacts.split_app
    by apply Base64Facts.base64UrlEncode_without_dot.
  rewrite UtilsFacts.split_app
    by apply Base64Facts.base64UrlEncode_without_dot.
  rewrite UtilsFacts.split_without
    by apply Base64Facts.base64UrlEncode_without_dot.
  reflexivity.
Qed.

(** What [verifyJWT] makes of a token of three encoded parts whose
    body parses. *)
Lemma verifyJWT_token
    (jsonParse : list Byte.byte -> option JWTPayload)
    (hmacVerify : string -> list Byte.byte -> string -> bool)
    (checkedMs : timestamp) (secret body : string)
    (signature : list Byte.byte) (payload : JWTPayload) :
  jsonParse (Base64.encodeUtf8 body) = Some payload ->
  Jwt.verifyJWT jsonParse hmacVerify checkedMs
    ((Base64.base64UrlEncode (Base64.Text Jwt.headerJson) ++ "."
        ++ Base64.base64UrlEncode (Base64.Text body))
       ++ "." ++ Base64.base64UrlEncode (Base64.Bytes signature))%string
    secret
  = if hmacVerify secret signature
         (Base64.base64UrlEncode (Base64.Text Jwt.headerJson) ++ "."
            ++ Base64.base64UrlEncode (Base64.Text body))%string
    then if (JWTPayload.exp payload <? checkedMs / 1000)%Z
         then None else Some payload
    else None.
Proof.
  intro Hparse. unfold Jwt.verifyJWT. rewrite token_split.
  rewrite Base64Facts.decode_encode.
  destruct (hmacVerify secret signature _); cbn [negb]; [|reflexivity].
  rewrite Base64Facts.base64UrlEncode_bytesOf, Base64Facts.decode_encode.
  cbn [Base64Spec.bytesOf]. rewrite Hparse. reflexivity.
Qed.
End JwtFacts.

Section TokenProperties.
Import Strings.Ascii.

(** X22.  [base64UrlDecode] reads back the bytes [base64UrlEncode] was
  given (the UTF-8 bytes of a string, the bytes of an array); every
  character of the encoding is a letter, a digit, ['-'] or ['_']; and
  two inputs with the same encoding have the same bytes. *)
Theorem base64url_round_trip (input : Base64.Input) :
Base64.base64UrlDecode (Base64.base64UrlEncode input)
= Some (Base64Spec.bytesOf input)
/\ (forall c,
      In c (list_ascii_of_string (Base64.base64UrlEncode input)) ->
      Base64Spec.urlSafe c = true)
/\ (forall other,
      Base64.base64UrlEncode other = Base64.base64UrlEncode input ->
      Base64Spec.bytesOf other = Base64Spec.bytesOf input).
Proof.
assert (Hback : forall i,
          Base64.base64UrlDecode (Base64.base64UrlEncode i)
          = Some (Base64Spec.bytesOf i)).
{ intro i. rewrite Base64Facts.base64UrlEncode_bytesOf.
  apply Base64Facts.decode_encode. }
split; [apply Hback|]. split.
- intros c Hc. now apply (@Base64Facts.base64UrlEncode_urlSafe input).
- intros other Heq.
  pose proof (Hback other) as Ho. rewrite Heq, Hback in Ho.
  now injection Ho.
Qed.

(** X23.  When the platform signs the unsigned part, verifies that
  signature and parses back the payload it serialised, [signJWT]
  returns a token that [verifyJWT] under the same secret answers with
  the full payload ([iat] the second of issue, [exp] that plus the
  lifetime) as long as the second of the check is not after [exp],
  and with null from then on; under a secret for which the platform
  does not verify the signature the answer is null at any time. *)
Theorem jwt_round_trip
  (jsonStringify : JWTPayload -> string)
  (jsonParse : list Byte.byte -> option JWTPayload)
  (hmacSign : string -> string -> result (list Byte.byte))
  (hmacVerify : string -> list Byte.byte -> string -> bool)
  (issuedMs : timestamp) (sub email : string) (role : Role)
  (secret : string) (expiresInSeconds : Z) (signature : list Byte.byte) :
let full :=
  JWTPayload.mk sub email role (issuedMs / 1000)
    (issuedMs / 1000 + expiresInSeconds) in
let unsigned :=
  (Base64.base64UrlEncode (Base64.Text Jwt.headerJson) ++ "."
     ++ Base64.base64UrlEncode (Base64.Text (jsonStringify full)))%string in
hmacSign secret unsigned = Ok signature ->
hmacVerify secret signature unsigned = true ->
jsonParse (Base64.encodeUtf8 (jsonStringify full)) = Some full ->
exists token,
  Jwt.signJWT jsonStringify hmacSign issuedMs sub email role secret
    expiresInSeconds = Ok token
  /\ (forall checkedMs : timestamp,
        Jwt.verifyJWT jsonParse hmacVerify checkedMs token secret
        = if (issuedMs / 1000 + expiresInSeconds <? checkedMs / 1000)%Z
          then None else Some full)
  /\ (forall (checkedMs : timestamp) (other : string),
        hmacVerify other signature unsigned = false ->
        Jwt.verifyJWT jsonParse hmacVerify checkedMs token other = None).
Proof.
intros full unsigned Hsign Hverify Hparse.
unfold Jwt.signJWT. fold full. fold unsigned. rewrite Hsign.
eexists. split; [reflexivity|]. split.
- intro checkedMs. unfold unsigned.
  rewrite (@JwtFacts.verifyJWT_token jsonParse hmacVerify checkedMs secret
             _ signature _ Hparse).
  fold unsigned. rewrite Hverify. reflexivity.
- intros checkedMs other Hother. unfold unsigned.
  rewrite (@JwtFacts.verifyJWT_token jsonParse hmacVerify checkedMs other
             _ signature _ Hparse).
  fold unsigned. rewrite Hother. reflexivity.
Qed.

Lemma jwt_round_trip_witness :
exists token,
  Jwt.signJWT JwtSpec.toyStringify JwtSpec.toySign 1700000000999
    "u1" "a@b.c" customer "k" 86400 = Ok token
  /\ Jwt.verifyJWT JwtSpec.toyParse JwtSpec.toyVerify 1700086400999
       token "k" = Some JwtSpec.toyPayload
  /\ Jwt.verifyJWT JwtSpec.toyParse JwtSpec.toyVerify 1700086401000
       token "k" = None
  /\ Jwt.verifyJWT JwtSpec.toyParse JwtSpec.toyVerify 1700000001000
       token "other" = None.
Proof.
destruct (@jwt_round_trip JwtSpec.toyStringify JwtSpec.toyParse
            JwtSpec.toySign JwtSpec.toyVerify 1700000000999
            "u1" "a@b.c" customer "k" 86400 _
            eq_refl eq_refl eq_refl) as [token [Hs [Hv Ho]]].
exists token. split; [exact Hs|]. split; [|split].
- rewrite Hv. reflexivity.
- rewrite Hv. reflexivity.
- apply Ho. reflexivity.
Defined.
End TokenProperties.

(* ================================================================= *)
(** ** The rate limiter *)

Module RateLimitFacts.
Import RateLimit RateLimitSpec.

Lemma find_filter_other (kv : KVNamespace) (key other : string) :
  other <> key ->
  find (fun e => String.eqb (fst e) other)
    (filter (fun e => negb (String.eqb (fst e) key)) kv)
  = find (fun e => String.eqb (fst e) other) kv.
Proof.
  intro Hne. induction kv as [|[k v] kv IH]; [reflexivity|].
  cbn [filter find fst].
  destruct (String.eqb k key) eqn:Ek; cbn [negb find fst].
  - apply String.eqb_eq in Ek. subst k.
    destruct (String.eqb key other) eqn:Eo; [|exact IH].
    apply String.eqb_eq in Eo. congruence.
  - now rewrite IH.
Qed.

Lemma storedFor_put_same (now later : timestamp) (kv : KVNamespace)
    (key : string) (value : list timestamp) (ttl : Z) :
  storedFor later (written now kv key value ttl) key
  = if (later <? now + ttl * 1000)%Z then value else [].
Proof.
  unfold storedFor, held, written. cbn [find fst].
  rewrite String.eqb_refl.
  now destruct (later <? now + ttl * 1000)%Z.
Qed.

Lemma storedFor_put_other (now later : timestamp) (kv : KVNamespace)
    (key other : string) (value : list timestamp) (ttl : Z) :
  other <> key ->
  storedFor later (written now kv key value ttl) other
  = storedFor later kv other.
Proof.
  intro Hne. unfold storedFor, held, written. cbn [find fst].
  destruct (String.eqb key other) eqn:E.
  - apply String.eqb_eq in E. congruence.
  - now rewrite find_filter_other.
Qed.

Lemma acceptedAt_snoc (key k : string) (t : timestamp)
    (log : list (string * timestamp)) :
  acceptedAt key (log ++ [(k, t)])
  = acceptedAt key log ++ (if String.eqb k key then [t] else []).
Proof.
  unfold acceptedAt. rewrite filter_app, map_app. cbn [filter fst].
  now destruct (String.eqb k key).
Qed.

Lemma recent_app (opts : RateLimitOptions) (now : timestamp)
    (l1 l2 : list timestamp) :
  recent opts now (l1 ++ l2) = recent opts now l1 ++ recent opts now l2.
Proof. apply filter_app. Qed.

Lemma recent_recent (opts : RateLimitOptions) (now later : timestamp)
    (l : list timestamp) :
  (now <= later)%Z ->
  recent opts later (recent opts now l) = recent opts later l.
Proof.
  intro Hle. unfold recent. induction l as [|x l IH]; [reflexivity|].
  cbn [filter].
  destruct (now - windowSeconds opts * 1000 <? x)%Z eqn:E1; cbn [filter];
    destruct (later - windowSeconds opts * 1000 <? x)%Z eqn:E2;
    rewrite ?IH; try reflexivity.
  apply Z.ltb_lt in E2. apply Z.ltb_ge in E1. lia.
Qed.

Lemma recent_old (opts : RateLimitOptions) (now bound : timestamp)
    (l : list timestamp) :
  (forall x, In x l -> (x <= bound)%Z) ->
  (bound <= now - windowSeconds opts * 1000)%Z ->
  recent opts now l = [].
Proof.
  intros Hall Hb. unfold recent. induction l as [|x l IH]; [reflexivity|].
  cbn [filter].
  assert (Hx : (x <= bound)%Z) by (apply Hall; now left).
  destruct (now - windowSeconds opts * 1000 <? x)%Z eqn:E.
  - apply Z.ltb_lt in E. lia.
  - apply IH. intros y Hy. apply Hall. now right.
Qed.

(** Up to the present, the window and the limiter's filter agree. *)
Lemma recent_inWindow (opts : RateLimitOptions) (now : timestamp)
    (l : list timestamp) :
  (forall x, In x l -> (x <= now)%Z) ->
  recent opts now l = filter (inWindow opts now) l.
Proof.
  intro Hall. unfold recent. apply filter_ext_in. intros x Hx.
  unfold inWindow. apply Hall in Hx.
  destruct (now - windowSeconds opts * 1000 <? x)%Z; [|reflexivity].
  symmetry. apply Z.leb_le. exact Hx.
Qed.

Lemma filter_length_le (A : Type) (p q : A -> bool) (l : list A) :
  (forall x, p x = true -> q x = true) ->
  (List.length (filter p l) <= List.length (filter q l))%nat.
Proof.
  intro Himp. induction l as [|x l IH]; [apply Nat.le_refl|].
  cbn [filter]. destruct (p x) eqn:Ep.
  - rewrite (Himp x Ep). cbn [List.length]. lia.
  - destruct (q x); cbn [List.length]; lia.
Qed.

(** What the limiter decides on, in a state that satisfies the
    invariant. *)
Lemma rateLimiter_reads (opts : RateLimitOptions)
    (log : list (string * timestamp)) (kv : KVNamespace)
    (last now : timestamp) (req : Req) :
  Inv opts log kv last -> (last <= now)%Z ->
  rateLimiter opts now req kv
  = let key := keyOf opts req in
    let seen := recent opts now (acceptedAt key log) in
    if (maxKeyBytes <? keyBytes key)%Z then (Throw KVGetFailed, kv)
    else if (limit opts <=? Z.of_nat (List.length seen))%Z
    then (Throw TooManyRequests, kv)
    else if (windowSeconds opts + 5 <? minExpirationTtl)%Z
    then (Throw KVPutFailed, kv)
    else (Ok (limit opts - Z.of_nat (List.length (seen ++ [now])))%Z,
          written now kv key (seen ++ [now]) (windowSeconds opts + 5)%Z).
Proof.
  intros [_ [Hread _]] Hle. unfold rateLimiter, kvGet, kvPut. cbv zeta.
  destruct (maxKeyBytes <? keyBytes (keyOf opts req))%Z; [reflexivity|].
  change (match held now kv (keyOf opts req) with
          | Some ts => ts
          | None => []
          end) with (storedFor now kv (keyOf opts req)).
  change (filter (fun ts => (now - windowSeconds opts * 1000 <? ts)%Z)
            (storedFor now kv (keyOf opts req)))
    with (recent opts now (storedFor now kv (keyOf opts req))).
  rewrite (Hread _ _ Hle).
  destruct (limit opts <=? _)%Z; [reflexivity|].
  now destruct (windowSeconds opts + 5 <? minExpirationTtl)%Z.
Qed.

Lemma Inv_later (opts : RateLimitOptions)
    (log : list (string * timestamp)) (kv : KVNamespace)
    (last now : timestamp) :
  Inv opts log kv last -> (last <= now)%Z -> Inv opts log kv now.
Proof.
  intros [H1 [H2 H3]] Hle. split; [|split].
  - intros key x Hx. specialize (H1 key x Hx). lia.
  - intros key later Hl. apply H2. lia.
  - exact H3.
Qed.

Lemma Inv_step (opts : RateLimitOptions)
    (log : list (string * timestamp)) (kv : KVNamespace)
    (last : timestamp) (r : timestamp * Req) :
  Inv opts log kv last -> (last <= fst r)%Z ->
  Inv opts (fst (step opts (log, kv) r)) (snd (step opts (log, kv) r))
    (fst r).
Proof.
  destruct r as [now req]. cbn [fst snd]. intros HInv Hle.
  unfold step. cbn [fst snd].
  rewrite (rateLimiter_reads req HInv Hle). cbv zeta.
  pose proof (Inv_later HInv Hle) as HInv'.
  destruct HInv' as [H1 [H2 H3]].
  set (key0 := keyOf opts req).
  set (seen := recent opts now (acceptedAt key0 log)).
  destruct (maxKeyBytes <? keyBytes key0)%Z; cbn [fst snd]; [now split|].
  destruct (limit opts <=? Z.of_nat (List.length seen))%Z eqn:Elim;
    cbn [fst snd]; [now split|].
  destruct (windowSeconds opts + 5 <? minExpirationTtl)%Z;
    cbn [fst snd]; [now split|].
  apply Z.leb_gt in Elim.
  split; [|split].
  - intros key x Hx. rewrite acceptedAt_snoc in Hx.
    apply in_app_or in Hx. destruct Hx as [Hx|Hx]; [now apply (H1 key)|].
    destruct (String.eqb key0 key); [|contradiction].
    destruct Hx as [<-|[]]. lia.
  - intros key later Hl. rewrite acceptedAt_snoc.
    destruct (String.eqb key0 key) eqn:Ek.
    + apply String.eqb_eq in Ek. subst key.
      rewrite storedFor_put_same.
      destruct (later <? now + (windowSeconds opts + 5) * 1000)%Z eqn:Eexp.
      * unfold seen. rewrite !recent_app, recent_recent by exact Hl.
        reflexivity.
      * apply Z.ltb_ge in Eexp. symmetry.
        apply (@recent_old opts later now).
        -- intros x Hx. apply in_app_or in Hx.
           destruct Hx as [Hx|[<-|[]]]; [now apply (H1 key0)|lia].
        -- lia.
    + rewrite app_nil_r. rewrite storedFor_put_other.
      * now apply H2.
      * intros ->. now rewrite String.eqb_refl in Ek.
  - intros key t. rewrite acceptedAt_snoc.
    destruct (String.eqb key0 key) eqn:Ek; [|rewrite app_nil_r; apply H3].
    apply String.eqb_eq in Ek. subst key.
    rewrite filter_app, length_app. cbn [filter].
    destruct (inWindow opts t now) eqn:Ew; cbn [List.length].
    + assert (Hsub : (List.length (filter (inWindow opts t)
                                     (acceptedAt key0 log))
                      <= List.length seen)%nat).
      { apply filter_length_le. intros x Hx. unfold inWindow in *.
        apply andb_prop in Hx. destruct Hx as [Hx _].
        apply andb_prop in Ew. destruct Ew as [Ew Ew'].
        apply Z.ltb_lt in Hx, Ew. apply Z.leb_le in Ew'.
        apply Z.ltb_lt. lia. }
      lia.
    + specialize (H3 key0 t). lia.
Qed.

Lemma last_cons (x d : timestamp) (l : list timestamp) :
  last (x :: l) d = last l x.
Proof.
  revert x d. induction l as [|y l IH]; intros x d; [reflexivity|].
  change (last (x :: y :: l) d) with (last (y :: l) d).
  now rewrite (IH y d), (IH y x).
Qed.

Lemma chronological_snoc (start : timestamp)
    (reqs : list (timestamp * Req)) (r : timestamp * Req) :
  chronological start (reqs ++ [r])
  = chronological start reqs && (lastTime start reqs <=? fst r)%Z.
Proof.
  revert start. induction reqs as [|x reqs IH]; intro start.
  - cbn. now rewrite andb_true_r.
  - cbn [app chronological]. rewrite IH, andb_assoc. f_equal.
    unfold lastTime. cbn [map]. now rewrite last_cons.
Qed.

Lemma lastTime_snoc (start : timestamp)
    (reqs : list (timestamp * Req)) (r : timestamp * Req) :
  lastTime start (reqs ++ [r]) = fst r.
Proof. unfold lastTime. rewrite map_app. apply last_last. Qed.

Lemma serve_snoc (opts : RateLimitOptions)
    (reqs : list (timestamp * Req)) (r : timestamp * Req) :
  serve opts (reqs ++ [r]) = step opts (serve opts reqs) r.
Proof. unfold serve. now rewrite fold_left_app. Qed.

(** The invariant holds after any chronological run from the empty
    namespace. *)
Lemma serve_Inv (opts : RateLimitOptions) (start : timestamp)
    (reqs : list (timestamp * Req)) :
  chronological start reqs = true ->
  Inv opts (fst (serve opts reqs)) (snd (serve opts reqs))
    (lastTime start reqs).
Proof.
  induction reqs as [|r reqs IH] using rev_ind; intro Hc.
  - split; [|split].
    + intros key x [].
    + reflexivity.
    + intros key t. cbn. lia.
  - rewrite chronological_snoc in Hc. apply andb_prop in Hc.
    destruct Hc as [Hc Hle]. apply Z.leb_le in Hle.
    rewrite serve_snoc, lastTime_snoc.
    specialize (IH Hc).
    destruct (serve opts reqs) as [log kv]. cbn [fst snd] in IH.
    now apply (@Inv_step opts log kv (lastTime start reqs)).
Qed.
End RateLimitFacts.

(** X24.  Requests handled one after another on a clock that does not
    go back, from an empty namespace: whatever the keys and the times,
    the accepted requests of one key within any one window of
    [windowSeconds] number at most [limit]. *)
Theorem sliding_window_bound
    (opts : RateLimit.RateLimitOptions) (start : timestamp)
    (reqs : list (timestamp * RateLimit.Req)) (key : string) (t : timestamp) :
  RateLimitSpec.chronological start reqs = true ->
  (Z.of_nat
     (List.length
        (filter (RateLimitSpec.inWindow opts t)
           (RateLimitSpec.acceptedAt key
              (fst (RateLimitSpec.serve opts reqs)))))
   <= Z.max 0 (RateLimit.limit opts))%Z.
Proof.
  intro Hc.
  destruct (RateLimitFacts.serve_Inv opts start reqs Hc) as [_ [_ Hbound]].
  apply Hbound.
Qed.

Lemma sliding_window_bound_witness :
  (Z.of_nat
     (List.length
        (filter (RateLimitSpec.inWindow RateLimitExamples.twoPerMinute 2000)
           (RateLimitSpec.acceptedAt "auth:10.0.0.1:/login"
              (fst (RateLimitSpec.serve RateLimitExamples.twoPerMinute
                      RateLimitExamples.burst)))))
   <= 2)%Z.
Proof.
  exact (@sliding_window_bound RateLimitExamples.twoPerMinute 0
           RateLimitExamples.burst "auth:10.0.0.1:/login" 2000 eq_refl).
Defined.

(** X25.  After such a run, a request that comes no earlier than the
    last one.  If its key is longer than the 512 bytes KV allows, the
    read throws.  Otherwise it is refused with 429 exactly when [limit]
    or more requests of its key were accepted within the window that
    ends now.  Otherwise, if [windowSeconds + 5] is below the 60
    seconds KV asks of an [expirationTtl], the write throws.
    Otherwise the request is accepted and told [X-RateLimit-Remaining]
    = [limit] less the accepted requests of the window, itself
    included.  Whatever is thrown, the namespace is left as it was. *)
Theorem rateLimiter_exact
    (opts : RateLimit.RateLimitOptions) (start now : timestamp)
    (reqs : list (timestamp * RateLimit.Req)) (req : RateLimit.Req) :
  RateLimitSpec.chronological start reqs = true ->
  (RateLimitSpec.lastTime start reqs <= now)%Z ->
  let state := RateLimitSpec.serve opts reqs in
  let key := RateLimit.keyOf opts req in
  let seen :=
    filter (RateLimitSpec.inWindow opts now)
      (RateLimitSpec.acceptedAt key (fst state)) in
  let out := RateLimit.rateLimiter opts now req (snd state) in
  fst out
  = (if (RateLimit.maxKeyBytes <? RateLimit.keyBytes key)%Z
     then Throw RateLimit.KVGetFailed
     else if (RateLimit.limit opts <=? Z.of_nat (List.length seen))%Z
     then Throw RateLimit.TooManyRequests
     else if (RateLimit.windowSeconds opts + 5
              <? RateLimit.minExpirationTtl)%Z
     then Throw RateLimit.KVPutFailed
     else Ok (RateLimit.limit opts - Z.of_nat (List.length seen) - 1)%Z)
  /\ (forall e, fst out = Throw e -> snd out = snd state).
Proof.
  intros Hc Hle state key seen out.
  pose proof (RateLimitFacts.serve_Inv opts start reqs Hc) as HInv.
  fold state in HInv.
  pose proof (RateLimitFacts.rateLimiter_reads req HInv Hle) as Hread.
  fold out in Hread. cbv zeta in Hread. fold key in Hread.
  destruct HInv as [Hpast _].
  rewrite RateLimitFacts.recent_inWindow in Hread
    by (intros x Hx; specialize (Hpast _ _ Hx); lia).
  fold seen in Hread. rewrite Hread.
  destruct (RateLimit.maxKeyBytes <? RateLimit.keyBytes key)%Z;
    cbn [fst snd]; [now split|].
  destruct (RateLimit.limit opts <=? Z.of_nat (List.length seen))%Z;
    cbn [fst snd]; [now split|].
  destruct (RateLimit.windowSeconds opts + 5 <? RateLimit.minExpirationTtl)%Z;
    cbn [fst snd]; [now split|].
  split; [|discriminate]. f_equal. rewrite length_app. cbn [List.length]. lia.
Qed.

Lemma rateLimiter_exact_witness :
  fst (RateLimit.rateLimiter RateLimitExamples.twoPerMinute 2000
         (RateLimitSpec.client "10.0.0.1")
         (snd (RateLimitSpec.serve RateLimitExamples.twoPerMinute
                 [(0, RateLimitSpec.client "10.0.0.1");
                  (1000, RateLimitSpec.client "10.0.0.1")]%Z)))
  = Throw RateLimit.TooManyRequests.
Proof.
  exact (proj1 (@rateLimiter_exact RateLimitExamples.twoPerMinute 0 2000
                  [(0, RateLimitSpec.client "10.0.0.1");
                   (1000, RateLimitSpec.client "10.0.0.1")]%Z
                  (RateLimitSpec.client "10.0.0.1") eq_refl
                  ltac:(vm_compute; discriminate))).
Defined.

(* ================================================================= *)
(** ** Users and authentication *)

Module UserFacts.
Import UserRepository AuthService UserSpec.

Lemma find_none_existsb (A : Type) (f : A -> bool) (l : list A) :
  find f l = None -> existsb f l = false.
Proof.
  induction l as [|x l IH]; [reflexivity|]. cbn [find existsb].
  destruct (f x); [discriminate|exact IH].
Qed.

Lemma existsb_find_none (A : Type) (f : A -> bool) (l : list A) :
  existsb f l = false -> find f l = None.
Proof.
  induction l as [|x l IH]; [reflexivity|]. cbn [find existsb].
  destruct (f x); [discriminate|exact IH].
Qed.

Lemma find_snoc (A : Type) (f : A -> bool) (l : list A) (x : A) :
  find f (l ++ [x])
  = match find f l with
    | Some y => Some y
    | None => if f x then Some x else None
    end.
Proof.
  induction l as [|y l IH]; [reflexivity|]. cbn [app find].
  destruct (f y); [reflexivity|exact IH].
Qed.

Lemma find_none_not_in (key : UserRow -> string) (l : list UserRow)
    (k : string) :
  find (fun u => String.eqb (key u) k) l = None -> ~ In k (map key l).
Proof.
  induction l as [|x l IH]; [intros _ []|]. cbn [find map].
  destruct (String.eqb (key x) k) eqn:E; [discriminate|].
  intros H [Hx|Hx]; [|now apply IH].
  apply String.eqb_neq in E. contradiction.
Qed.

Lemma NoDup_snoc (l : list string) (x : string) :
  NoDup l -> ~ In x l -> NoDup (l ++ [x]).
Proof.
  intros Hl Hx. apply NoDup_app; [exact Hl|repeat constructor; intros []|].
  intros y Hy [<-|[]]. contradiction.
Qed.

(** An INSERT that meets no constraint. *)
Lemma create_fresh (db : UserTables) (id : string) (now : timestamp)
    (input : CreateInput) :
  findById db id = None -> findByEmail db (email input) = None ->
  create db id now input
  = (Ok (Some (UserRow.mk id (email input) (password_hash input)
                 (role input) (name input) (phone input) now)),
     mkTables
       (users db
          ++ [UserRow.mk id (email input) (password_hash input)
                (role input) (name input) (phone input) now])
       (addresses db)).
Proof.
  intros Hid Hemail. unfold create.
  rewrite (find_none_existsb _ _ Hid), (find_none_existsb _ _ Hemail).
  cbv zeta. unfold findById at 1. cbn [users].
  rewrite find_snoc. unfold findById in Hid. rewrite Hid.
  cbn [UserRow.id]. now rewrite String.eqb_refl.
Qed.

(** [create] has two outcomes: it throws and leaves the tables, or
    it appends one row with a new id and a new email. *)
Lemma create_cases (db : UserTables) (id : string) (now : timestamp)
    (input : CreateInput) :
  (exists e, create db id now input = (Throw e, db))
  \/ (findById db id = None /\ findByEmail db (email input) = None).
Proof.
  unfold create.
  destruct (existsb _ (users db)) eqn:E1; [left; eauto|].
  destruct (existsb (fun u => String.eqb (UserRow.email u) (email input))
              (users db)) eqn:E2; [left; eauto|].
  right. split; now apply existsb_find_none.
Qed.

Lemma uniqueUsers_insert (db : UserTables) (row : UserRow) :
  uniqueUsers db ->
  findById db (UserRow.id row) = None ->
  findByEmail db (UserRow.email row) = None ->
  uniqueUsers (mkTables (users db ++ [row]) (addresses db)).
Proof.
  intros [Hids Hemails] Hid Hemail. unfold uniqueUsers. cbn [users].
  rewrite !map_app. cbn [map]. split; apply NoDup_snoc; trivial.
  - now apply find_none_not_in.
  - now apply find_none_not_in.
Qed.

Lemma signJWT_signs (jsonStringify : JWTPayload -> string)
    (hmacSign : string -> string -> result (list Byte.byte))
    (now : timestamp) (sub email : string) (role : Role)
    (secret : string) (expires : Z) :
  (forall msg, exists s, hmacSign secret msg = Ok s) ->
  exists token,
    Jwt.signJWT jsonStringify hmacSign now sub email role secret expires
    = Ok token.
Proof.
  intro Hsign. unfold Jwt.signJWT. cbv zeta.
  match goal with
  | |- context [hmacSign secret ?m] => destruct (Hsign m) as [s ->]
  end.
  eauto.
Qed.

(** [register] throws and leaves the tables, or appends the row of
    the new user, whose id and email no user had. *)
Lemma register_cases
    (deriveBits : string -> list Byte.byte -> option Z
                  -> result (list Byte.byte))
    (jsonStringify : JWTPayload -> string)
    (hmacSign : string -> string -> result (list Byte.byte))
    (call : Call) (db : UserTables) (input : RegisterInput) :
  (exists e,
     register deriveBits jsonStringify hmacSign call db input
     = (Throw e, db))
  \/ (exists r hash,
        register deriveBits jsonStringify hmacSign call db input
        = (r, mkTables
                (users db
                   ++ [registered (newId call) (writtenAt call) hash input])
                (addresses db))
        /\ findById db (newId call) = None
        /\ findByEmail db (reg_email input) = None).
Proof.
  unfold register.
  destruct (findByEmail db (reg_email input)) eqn:Hemail; [left; eauto|].
  destruct (Utils.hashPassword deriveBits (salt call) (reg_password input))
    as [hash|e]; [|left; eauto].
  set (cinput := mkCreateInput _ _ _ _ _).
  destruct (create_cases db (newId call) (writtenAt call) cinput)
    as [[e He]|[Hid Hem]].
  - rewrite He. left. eauto.
  - rewrite create_fresh by assumption. right.
    eexists _, hash. split; [reflexivity|]. now split.
Qed.

(** Addresses of a user are read from that user's rows alone. *)
Lemma findAddresses_ext (db db' : UserTables) (userId : string) :
  filter (ofUser userId) (addresses db')
  = filter (ofUser userId) (addresses db) ->
  findAddresses db' userId = findAddresses db userId.
Proof. unfold findAddresses. now intros ->. Qed.

Lemma findAddresses_In (db : UserTables) (userId : string)
    (a : AddressRow) :
  In a (findAddresses db userId)
  <-> In a (addresses db) /\ AddressRow.user_id a = userId.
Proof.
  unfold findAddresses. rewrite Array_sort_In, filter_In.
  unfold ofUser. now rewrite String.eqb_eq.
Qed.

Lemma filter_filter_other (db : UserTables) (id userId other : string) :
  other <> userId ->
  filter (ofUser other)
    (filter (fun a => negb (targeted id userId a)) (addresses db))
  = filter (ofUser other) (addresses db).
Proof.
  intro Hne. induction (addresses db) as [|a l IH]; [reflexivity|].
  cbn [filter]. unfold targeted at 1, ofUser at 2.
  destruct (String.eqb (AddressRow.user_id a) other) eqn:Eo.
  - apply String.eqb_eq in Eo.
    assert (Hu : String.eqb (AddressRow.user_id a) userId = false).
    { apply String.eqb_neq. congruence. }
    rewrite Hu, andb_false_r. cbn [negb filter]. unfold ofUser at 1.
    apply String.eqb_eq in Eo. now rewrite Eo, IH.
  - destruct (negb _); cbn [filter]; [unfold ofUser at 1; rewrite Eo|];
      exact IH.
Qed.
End UserFacts.

Section AuthProperties.
Import Strings.Ascii.

(** X26.  With an email and an id no user has, a derivation that
  yields a non-empty hash under a non-empty salt and a platform that
  signs under the secret, [register] succeeds: it returns the public
  fields of the new user, and from then on [login] with that email
  succeeds for the registered password, with the same public user,
  and answers 401 "Invalid email or password" for any candidate whose
  derivation under the stored salt gives another hash. *)
Theorem register_then_login
  (deriveBits : string -> list Byte.byte -> option Z
                -> result (list Byte.byte))
  (jsonStringify : JWTPayload -> string)
  (hmacSign : string -> string -> result (list Byte.byte))
  (call : AuthService.Call) (db : UserTables)
  (input : AuthService.RegisterInput) (hash : list Byte.byte) :
UserRepository.findByEmail db (AuthService.reg_email input) = None ->
UserRepository.findById db (AuthService.newId call) = None ->
deriveBits (AuthService.reg_password input) (AuthService.salt call)
  (Some Utils.ITERATIONS) = Ok hash ->
AuthService.salt call <> [] -> hash <> [] ->
(forall msg, exists s, hmacSign (AuthService.JWT_SECRET call) msg = Ok s) ->
exists user token db',
  AuthService.register deriveBits jsonStringify hmacSign call db input
  = (Ok (user, token), db')
  /\ user = PublicUser.mk (AuthService.newId call)
              (AuthService.reg_email input) (AuthService.reg_role input)
              (AuthService.reg_name input) (AuthService.reg_phone input)
              (AuthService.writtenAt call)
  /\ (forall later,
        AuthService.JWT_SECRET later = AuthService.JWT_SECRET call ->
        exists token',
          AuthService.login deriveBits jsonStringify hmacSign later db'
            (AuthService.mkLoginInput (AuthService.reg_email input)
               (AuthService.reg_password input))
          = Ok (user, token'))
  /\ (forall later candidate h,
        deriveBits candidate (AuthService.salt call)
          (Some Utils.ITERATIONS) = Ok h ->
        h <> hash ->
        AuthService.login deriveBits jsonStringify hmacSign later db'
          (AuthService.mkLoginInput (AuthService.reg_email input) candidate)
        = Throw AuthService.InvalidCredentials).
Proof.
intros Hemail Hid Hderive Hsalt Hhash Hsign.
unfold AuthService.register. rewrite Hemail.
unfold Utils.hashPassword. rewrite Hderive.
rewrite UserFacts.create_fresh by assumption.
cbn [UserRepository.email UserRepository.password_hash UserRepository.role
     UserRepository.name UserRepository.phone].
set (row := UserRow.mk _ _ _ _ _ _ _).
set (db' := mkTables _ _).
assert (Hfound : UserRepository.findByEmail db'
                   (AuthService.reg_email input) = Some row).
{ unfold UserRepository.findByEmail, db'. cbn [users].
  rewrite UserFacts.find_snoc.
  unfold UserRepository.findByEmail in Hemail. rewrite Hemail.
  unfold row. cbn [UserRow.email]. now rewrite String.eqb_refl. }
unfold AuthService.issue at 1.
destruct (@UserFacts.signJWT_signs jsonStringify hmacSign
            (AuthService.signedAt call) (UserRow.id row)
            (UserRow.email row) (UserRow.role row)
            (AuthService.JWT_SECRET call) 86400 Hsign) as [token ->].
exists (AuthService.toPublicUser row), token, db'.
split; [reflexivity|]. split; [reflexivity|]. split.
- intros later Hsecret. unfold AuthService.login.
  cbn [AuthService.login_email AuthService.login_password].
  rewrite Hfound. unfold row at 1. cbn [UserRow.password_hash].
  rewrite (PasswordFacts.verifyPassword_stored _ _ Hsalt Hhash), Hderive.
  rewrite (proj2 (PasswordFacts.timingSafeEqual_hex hash hash) eq_refl).
  unfold AuthService.issue.
  rewrite <- Hsecret in Hsign.
  destruct (@UserFacts.signJWT_signs jsonStringify hmacSign
              (AuthService.signedAt later) (UserRow.id row)
              (UserRow.email row) (UserRow.role row)
              (AuthService.JWT_SECRET later) 86400 Hsign) as [token' ->].
  exists token'. reflexivity.
- intros later candidate h Hh Hne. unfold AuthService.login.
  cbn [AuthService.login_email AuthService.login_password].
  rewrite Hfound. unfold row at 1. cbn [UserRow.password_hash].
  rewrite (PasswordFacts.verifyPassword_stored _ _ Hsalt Hhash), Hh.
  destruct (Utils.timingSafeEqual _ _) eqn:E; [|reflexivity].
  apply PasswordFacts.timingSafeEqual_hex in E. contradiction.
Qed.

Lemma register_then_login_witness :
exists user token db',
  AuthService.register UtilsSpec.toyDerive JwtSpec.toyStringify
    JwtSpec.toySign UserExamples.firstCall UserExamples.noUsers
    UserExamples.alice = (Ok (user, token), db')
  /\ PublicUser.email user = "alice@example.com"
  /\ (exists token',
        AuthService.login UtilsSpec.toyDerive JwtSpec.toyStringify
          JwtSpec.toySign UserExamples.laterCall db'
          (AuthService.mkLoginInput "alice@example.com" "correct horse")
        = Ok (user, token'))
  /\ AuthService.login UtilsSpec.toyDerive JwtSpec.toyStringify
       JwtSpec.toySign UserExamples.laterCall db'
       (AuthService.mkLoginInput "alice@example.com" "wrong horse")
     = Throw AuthService.InvalidCredentials.
Proof.
assert (Hsalt : AuthService.salt UserExamples.firstCall <> [])
  by discriminate.
assert (Hhash : [Byte.x01; Byte.xfe]
                  ++ map Ascii.byte_of_ascii
                       (list_ascii_of_string "correct horse") <> [])
  by discriminate.
destruct (@register_then_login UtilsSpec.toyDerive JwtSpec.toyStringify
            JwtSpec.toySign UserExamples.firstCall UserExamples.noUsers
            UserExamples.alice _ eq_refl eq_refl eq_refl Hsalt Hhash
            (fun msg => ex_intro _ _ eq_refl))
  as [user [token [db' [Hreg [Huser [Hin Hout]]]]]].
exists user, token, db'. split; [exact Hreg|]. split.
- rewrite Huser. reflexivity.
- split.
  + apply (Hin UserExamples.laterCall). reflexivity.
  + apply (Hout UserExamples.laterCall "wrong horse"
             ([Byte.x01; Byte.xfe]
                ++ map Ascii.byte_of_ascii
                     (list_ascii_of_string "wrong horse"))).
    * reflexivity.
    * discriminate.
Defined.

(** X27.  [register] keeps ids and emails unique, keeps every user
  already there, and adds at most one; when the email is taken it
  answers 409 "Email already registered" and writes nothing. *)
Theorem register_keeps_users_unique
  (deriveBits : string -> list Byte.byte -> option Z
                -> result (list Byte.byte))
  (jsonStringify : JWTPayload -> string)
  (hmacSign : string -> string -> result (list Byte.byte))
  (call : AuthService.Call) (db : UserTables)
  (input : AuthService.RegisterInput) :
UserSpec.uniqueUsers db ->
let out :=
  AuthService.register deriveBits jsonStringify hmacSign call db input in
UserSpec.uniqueUsers (snd out)
/\ (exists added, users (snd out) = users db ++ added
                  /\ (List.length added <= 1)%nat
                  /\ forall u, In u added ->
                       UserRow.email u = AuthService.reg_email input)
/\ addresses (snd out) = addresses db
/\ (forall u, UserRepository.findByEmail db (AuthService.reg_email input)
              = Some u ->
      out = (Throw AuthService.EmailTaken, db)).
Proof.
intros Huniq out. subst out.
destruct (UserFacts.register_cases deriveBits jsonStringify hmacSign
            call db input) as [[e He]|[r [hash [Hr [Hid Hem]]]]].
- rewrite He. cbn [snd]. split; [exact Huniq|]. split; [|split].
  + exists []. rewrite app_nil_r. split; [reflexivity|].
    split; [apply Nat.le_0_l|intros u []].
  + reflexivity.
  + intros u Hu. unfold AuthService.register in He. rewrite Hu in He.
    symmetry. exact He.
- rewrite Hr. cbn [snd users addresses]. split; [|split; [|split]].
  + now apply UserFacts.uniqueUsers_insert.
  + eexists. split; [reflexivity|]. split; [apply Nat.le_refl|].
    intros u [<-|[]]. reflexivity.
  + reflexivity.
  + intros u Hu. rewrite Hu in Hem. discriminate Hem.
Qed.

Lemma register_keeps_users_unique_witness :
UserSpec.uniqueUsers
  (snd (AuthService.register UtilsSpec.toyDerive JwtSpec.toyStringify
          JwtSpec.toySign UserExamples.firstCall UserExamples.twoUsers
          UserExamples.alice))
/\ AuthService.register UtilsSpec.toyDerive JwtSpec.toyStringify
     JwtSpec.toySign UserExamples.firstCall UserExamples.twoUsers
     UserExamples.alice
   = (Throw AuthService.EmailTaken, UserExamples.twoUsers).
Proof.
assert (Huniq : UserSpec.uniqueUsers UserExamples.twoUsers).
{ split; cbn; repeat constructor; cbn; intuition discriminate. }
destruct (@register_keeps_users_unique UtilsSpec.toyDerive
            JwtSpec.toyStringify JwtSpec.toySign UserExamples.firstCall
            UserExamples.twoUsers UserExamples.alice Huniq)
  as [H1 [_ [_ H4]]].
split; [exact H1|]. apply (H4 UserExamples.aliceRow). reflexivity.
Defined.
End AuthProperties.

Module GuardFacts.
Import Middleware.

Lemma bearer_startsWith (token : string) :
  startsWith "Bearer " ("Bearer " ++ token) = true.
Proof. reflexivity. Qed.

Lemma bearer_slice (token : string) :
  slice 7 ("Bearer " ++ token) = token.
Proof. reflexivity. Qed.

Lemma filter_nonempty (A : Type) (f : A -> bool) (l : list A) :
  (0 <? Z.of_nat (List.length (filter f l)))%Z = true
  <-> exists a, In a l /\ f a = true.
Proof.
  rewrite Z.ltb_lt. split.
  - destruct (filter f l) as [|a r] eqn:E; [cbn; lia|]. intros _.
    exists a. apply filter_In. rewrite E. now left.
  - intros [a Ha]. apply filter_In in Ha.
    destruct (filter f l); [destruct Ha|cbn [List.length]; lia].
Qed.
End GuardFacts.

(** X28.  A token [signJWT] issues for a user, sent as
    ["Bearer <token>"] to a route behind [authMiddleware] and
    [requireRole(...roles)] under the same secret, reaches the handler
    with the issued payload exactly when it has not expired and the
    user's role is one of [roles]; expired it is answered 401 "Invalid
    or expired token", with another role 403; a request without the
    header, or with one that does not start with ["Bearer "], is
    answered 401 "Missing or invalid Authorization header". *)
Theorem token_admits_roles
    (jsonStringify : JWTPayload -> string)
    (jsonParse : list Byte.byte -> option JWTPayload)
    (hmacSign : string -> string -> result (list Byte.byte))
    (hmacVerify : string -> list Byte.byte -> string -> bool)
    (issuedMs checkedMs : timestamp) (sub email : string) (role : Role)
    (secret : string) (expiresInSeconds : Z) (signature : list Byte.byte)
    (roles : list Role) :
  let full :=
    JWTPayload.mk sub email role (issuedMs / 1000)
      (issuedMs / 1000 + expiresInSeconds) in
  let unsigned :=
    (Base64.base64UrlEncode (Base64.Text Jwt.headerJson) ++ "."
       ++ Base64.base64UrlEncode (Base64.Text (jsonStringify full)))%string in
  hmacSign secret unsigned = Ok signature ->
  hmacVerify secret signature unsigned = true ->
  jsonParse (Base64.encodeUtf8 (jsonStringify full)) = Some full ->
  (exists token,
     Jwt.signJWT jsonStringify hmacSign issuedMs sub email role secret
       expiresInSeconds = Ok token
     /\ UserSpec.guarded jsonParse hmacVerify roles checkedMs secret
          (Some ("Bearer " ++ token)%string)
        = if (issuedMs / 1000 + expiresInSeconds <? checkedMs / 1000)%Z
          then Throw Middleware.InvalidToken
          else if existsb (Middleware.Role_eqb role) roles
               then Ok full
               else Throw (Middleware.AccessDenied roles))
  /\ UserSpec.guarded jsonParse hmacVerify roles checkedMs secret None
     = Throw Middleware.MissingHeader
  /\ (forall h, Middleware.startsWith "Bearer " h = false ->
        UserSpec.guarded jsonParse hmacVerify roles checkedMs secret (Some h)
        = Throw Middleware.MissingHeader).
Proof.
  intros full unsigned Hsign Hverify Hparse. split; [|split].
  - unfold Jwt.signJWT. fold full. fold unsigned. rewrite Hsign.
    eexists. split; [reflexivity|].
    unfold UserSpec.guarded, Middleware.authMiddleware.
    rewrite GuardFacts.bearer_startsWith, GuardFacts.bearer_slice.
    cbn [negb]. unfold unsigned.
    rewrite (@JwtFacts.verifyJWT_token jsonParse hmacVerify checkedMs secret
               _ signature _ Hparse).
    fold unsigned. rewrite Hverify. cbn [JWTPayload.exp full].
    destruct (issuedMs / 1000 + expiresInSeconds <? checkedMs / 1000)%Z;
      [reflexivity|].
    unfold Middleware.requireRole. cbn [JWTPayload.role full].
    now destruct (existsb (Middleware.Role_eqb role) roles).
  - reflexivity.
  - intros h Hh. unfold UserSpec.guarded, Middleware.authMiddleware.
    now rewrite Hh.
Qed.

Lemma token_admits_roles_witness :
  exists token,
    Jwt.signJWT JwtSpec.toyStringify JwtSpec.toySign 1700000000999
      "u1" "a@b.c" customer "k" 86400 = Ok token
    /\ UserSpec.guarded JwtSpec.toyParse JwtSpec.toyVerify [driver]
         1700000001000 "k" (Some ("Bearer " ++ token)%string)
       = Throw (Middleware.AccessDenied [driver]).
Proof.
  destruct (@token_admits_roles JwtSpec.toyStringify JwtSpec.toyParse
              JwtSpec.toySign JwtSpec.toyVerify 1700000000999 1700000001000
              "u1" "a@b.c" customer "k" 86400 _ [driver]
              eq_refl eq_refl eq_refl) as [[token [Hs Hg]] _].
  exists token. split; [exact Hs|]. rewrite Hg. reflexivity.
Defined.

(** X29.  Addresses are kept per user.  [createAddress] and
    [deleteAddress] on behalf of one user leave what [findAddresses]
    returns for every other user, and the table of users, as they
    were.  [deleteAddress] answers true exactly when the user owns an
    address with that id, and afterwards the user has the addresses as
    before except those with that id.  An address [createAddress]
    returns has the given id and user and is among the user's
    addresses; when it throws nothing is written. *)
Theorem addresses_are_per_user
    (db : UserTables) (id userId : string) (now : timestamp)
    (input : UserRepository.AddressInput) :
  let created := UserRepository.createAddress db id now userId input in
  let deleted := UserRepository.deleteAddress db id userId in
  (forall other, other <> userId ->
     UserRepository.findAddresses (snd created) other
     = UserRepository.findAddresses db other
     /\ UserRepository.findAddresses (snd deleted) other
        = UserRepository.findAddresses db other)
  /\ users (snd created) = users db
  /\ users (snd deleted) = users db
  /\ (fst deleted = true <-> UserSpec.owns db userId id)
  /\ (forall a,
        In a (UserRepository.findAddresses (snd deleted) userId)
        <-> In a (UserRepository.findAddresses db userId)
            /\ AddressRow.id a <> id)
  /\ (forall r, fst created = Ok r ->
        exists row,
          r = Some row /\ AddressRow.id row = id
          /\ AddressRow.user_id row = userId
          /\ In row (UserRepository.findAddresses (snd created) userId))
  /\ (forall e, fst created = Throw e -> snd created = db).
Proof.
  intros created deleted.
  assert (Hcreated :
            (exists e, created = (Throw e, db))
            \/ (created
                = (Ok (Some (AddressRow.mk id userId
                               (UserRepository.label input)
                               (UserRepository.street input)
                               (UserRepository.city input)
                               (UserRepository.country input)
                               (UserRepository.lat input)
                               (UserRepository.lng input) now)),
                   mkTables (users db)
                     (addresses db
                        ++ [AddressRow.mk id userId
                              (UserRepository.label input)
                              (UserRepository.street input)
                              (UserRepository.city input)
                              (UserRepository.country input)
                              (UserRepository.lat input)
                              (UserRepository.lng input) now])))).
  { unfold created, UserRepository.createAddress.
    destruct (existsb _ (addresses db)) eqn:E1; [left; eauto|].
    destruct (negb _); [left; eauto|]. right. cbv zeta. cbn [addresses].
    rewrite UserFacts.find_snoc, (UserFacts.existsb_find_none _ _ E1).
    cbn [AddressRow.id]. now rewrite String.eqb_refl. }
  split; [|split; [|split; [|split; [|split; [|split]]]]].
  - intros other Hne. split.
    + destruct Hcreated as [[e He]|He]; rewrite He; [reflexivity|].
      cbn [snd].
      apply UserFacts.findAddresses_ext. cbn [addresses].
      rewrite filter_app. cbn [filter].
      unfold UserRepository.ofUser at 2. cbn [AddressRow.user_id].
      assert (Hf : String.eqb userId other = false).
      { apply String.eqb_neq. congruence. }
      rewrite Hf. apply app_nil_r.
    + apply UserFacts.findAddresses_ext. unfold deleted. cbn [snd addresses].
      now apply UserFacts.filter_filter_other.
  - now destruct Hcreated as [[e He]|He]; rewrite He.
  - reflexivity.
  - unfold deleted, UserRepository.deleteAddress. cbn [fst].
    rewrite GuardFacts.filter_nonempty. unfold UserSpec.owns.
    split; intros [a [Ha Ht]]; exists a.
    + unfold UserRepository.targeted in Ht. apply andb_prop in Ht.
      destruct Ht as [H1 H2]. apply String.eqb_eq in H1, H2. now repeat split.
    + destruct Ht as [H1 H2]. split; [exact Ha|].
      unfold UserRepository.targeted. now rewrite H1, H2, !String.eqb_refl.
  - intro a. rewrite !UserFacts.findAddresses_In.
    unfold deleted, UserRepository.deleteAddress. cbn [snd addresses].
    rewrite filter_In.
    unfold UserRepository.targeted. split.
    + intros [[Ha Ht] Hu]. repeat split; trivial. intros Hid.
      rewrite Hid, Hu, !String.eqb_refl in Ht. discriminate Ht.
    + intros [[Ha Hu] Hid]. repeat split; trivial.
      apply String.eqb_neq in Hid. now rewrite Hid.
  - intros r Hr. destruct Hcreated as [[e He]|He]; rewrite He in *;
      cbn [fst snd] in *; [discriminate Hr|].
    injection Hr as <-. eexists. split; [reflexivity|].
    split; [reflexivity|]. split; [reflexivity|].
    apply UserFacts.findAddresses_In. cbn [addresses AddressRow.user_id].
    split; [|reflexivity]. apply in_or_app. right. now left.
  - intros e He. destruct Hcreated as [[e' He']|He']; rewrite He' in *;
      cbn [fst snd] in *; [reflexivity|discriminate He].
Qed.

Module UpdateFacts.
Import UserRepository UserSpec.

Lemma find_map_key (key : UserRow -> string) (f : UserRow -> UserRow)
    (k : string) (l : list UserRow) :
  (forall u, key (f u) = key u) ->
  find (fun u => String.eqb (key u) k) (map f l)
  = option_map f (find (fun u => String.eqb (key u) k) l).
Proof.
  intro Hkey. induction l as [|x l IH]; [reflexivity|].
  cbn [map find]. rewrite Hkey.
  destruct (String.eqb (key x) k); [reflexivity|exact IH].
Qed.

Lemma find_map_other (f : UserRow -> UserRow) (id other : string)
    (l : list UserRow) :
  (forall u, UserRow.id (f u) = UserRow.id u) ->
  other <> id ->
  find (fun u => String.eqb (UserRow.id u) other)
    (map (fun u => if String.eqb (UserRow.id u) id then f u else u) l)
  = find (fun u => String.eqb (UserRow.id u) other) l.
Proof.
  intros Hkey Hne. induction l as [|x l IH]; [reflexivity|].
  cbn [map find].
  destruct (String.eqb (UserRow.id x) id) eqn:Ei.
  - apply String.eqb_eq in Ei.
    assert (Ho : String.eqb (UserRow.id x) other = false).
    { apply String.eqb_neq. congruence. }
    rewrite Ho, Hkey, Ho. exact IH.
  - destruct (String.eqb (UserRow.id x) other); [reflexivity|exact IH].
Qed.

Lemma profile_nothing (u : UserRow) :
  profile (mkUpdateInput None None) u = u.
Proof. now destruct u. Qed.

(** [update] with a field given maps the table. *)
Lemma update_writes (db : UserTables) (id : string) (input : UpdateInput) :
  new_name input <> None \/ new_phone input <> None ->
  update db id input
  = (findById
       (mkTables
          (map (fun u => if String.eqb (UserRow.id u) id
                         then profile input u else u) (users db))
          (addresses db)) id,
     mkTables
       (map (fun u => if String.eqb (UserRow.id u) id
                      then profile input u else u) (users db))
       (addresses db)).
Proof.
  destruct input as [[n|] [p|]]; cbn [new_name new_phone];
    intros [H|H]; try contradiction; reflexivity.
Qed.
End UpdateFacts.

(** X30.  [update] returns the row [findById] then finds: the user's
    row with the given name and phone in place of the old ones, or
    null for an unknown id.  It never changes an id, an email, a
    password hash, a role or a creation time, nor any other user or any
    address; with neither field given it writes nothing. *)
Theorem update_touches_profile_only
    (db : UserTables) (id : string) (input : UserRepository.UpdateInput) :
  let out := UserRepository.update db id input in
  fst out = UserRepository.findById (snd out) id
  /\ fst out
     = option_map (UserSpec.profile input) (UserRepository.findById db id)
  /\ (forall other, other <> id ->
        UserRepository.findById (snd out) other
        = UserRepository.findById db other)
  /\ map UserSpec.credentials (users (snd out))
     = map UserSpec.credentials (users db)
  /\ addresses (snd out) = addresses db
  /\ (UserRepository.new_name input = None ->
      UserRepository.new_phone input = None -> snd out = db).
Proof.
  intro out.
  destruct (UserRepository.new_name input) as [n|] eqn:En.
  2: destruct (UserRepository.new_phone input) as [p|] eqn:Ep.
  3:{ assert (Hout : out = (UserRepository.findById db id, db)).
      { unfold out, UserRepository.update. now rewrite En, Ep. }
      rewrite Hout. cbn [fst snd]. repeat split; trivial.
      destruct input as [n p]. cbn in En, Ep. subst.
      destruct (UserRepository.findById db id) as [u|]; [|reflexivity].
      cbn [option_map]. now rewrite UpdateFacts.profile_nothing. }
  all: assert (Hout := @UpdateFacts.update_writes db id input);
    fold out in Hout; rewrite Hout
      by (rewrite ?En, ?Ep; (now left) || (right; discriminate));
    clear Hout; cbn [fst snd users addresses];
    (split; [reflexivity|]);
    (split;
     [unfold UserRepository.findById at 1; cbn [users];
      rewrite (@UpdateFacts.find_map_key UserRow.id
                 (fun u => if String.eqb (UserRow.id u) id
                           then UserSpec.profile input u else u))
        by (intro u; now destruct (String.eqb (UserRow.id u) id));
      fold (UserRepository.findById db id);
      destruct (UserRepository.findById db id) as [u|] eqn:Hf;
      [|reflexivity];
      apply find_some in Hf; destruct Hf as [_ Hf];
      cbn [option_map]; cbv beta; now rewrite Hf|]);
    (split;
     [intros other Hne; unfold UserRepository.findById; cbn [users];
      apply UpdateFacts.find_map_other; [reflexivity|exact Hne]|]);
    (split;
     [rewrite map_map; apply map_ext; intro u;
      now destruct (String.eqb (UserRow.id u) id)|]);
    (split; [reflexivity|]);
    intros Hn Hp; congruence.
Qed.
